(** * Translation pipeline of the [jsons] repository: chunking, retries,
      record merge and file persistence

    Shallow embedding of [config.py], [translate_json.py],
    [retry_failed_translations.py], [fix_non_translatable.py],
    [verify_translations.py] and the mapping of [number_files.py].

    Conventions of the embedding:
    - a Python [str] is a list of Unicode code points ([N]);
    - Python [int]s are [Z]; slicing follows Python's rules for negative
      and out-of-range bounds;
    - the [while] loop of [chunk_text] is driven by fuel; [None] means the
      fuel ran out;
    - the remote provider, the call log, the sleeps and the file system are
      an explicit world threaded through a state-and-exception monad;
    - writing a document opens the file, which empties it, and raises
      [UnicodeEncodeError] when a string of the document holds a surrogate
      code point;
    - [print] calls (and the [verbose] flag that only guards them) are not
      modelled. *)

From Stdlib Require Import List ZArith NArith Lia Bool Arith.
From Stdlib Require Import Sorted.
Import ListNotations.

Set Warnings "-register-all".
Local Open Scope Z_scope.

(** ** Strings *)

Module PyStr.

Definition char := N.
Definition str := list char.

Definition len (s : str) : Z := Z.of_nat (length s).

Definition char_eqb (a b : char) : bool := N.eqb a b.

Fixpoint str_eqb (a b : str) : bool :=
  match a, b with
  | [], [] => true
  | x :: a', y :: b' => char_eqb x y && str_eqb a' b'
  | _, _ => false
  end.

(** [s.startswith(d)] *)
Fixpoint startswith (s d : str) : bool :=
  match d, s with
  | [], _ => true
  | _ :: _, [] => false
  | x :: d', y :: s' => char_eqb x y && startswith s' d'
  end.

(** [s.endswith(d)] *)
Definition endswith (s d : str) : bool := startswith (rev s) (rev d).

(** [s[:n]] *)
Definition slice_to (s : str) (n : Z) : str :=
  if 0 <=? n then firstn (Z.to_nat n) s
  else firstn (length s - Z.to_nat (- n)) s.

(** [s[n:]] *)
Definition slice_from (s : str) (n : Z) : str :=
  if 0 <=? n then skipn (Z.to_nat n) s
  else skipn (length s - Z.to_nat (- n)) s.

(** [s.rfind(d)]: the highest index at which [d] occurs in [s], [-1] when
    it does not occur.  The scan runs left to right from index [i] and
    keeps the last index that matched. *)
Fixpoint rfind_aux (s d : str) (i : nat) (last : Z) : Z :=
  let last' := if startswith s d then Z.of_nat i else last in
  match s with
  | [] => last'
  | _ :: s' => rfind_aux s' d (S i) last'
  end.

Definition rfind (s d : str) : Z := rfind_aux s d 0 (-1).

(** [str.isspace] on one code point: the characters Python's [strip()]
    removes. *)
Definition isspace (c : char) : bool :=
  let z := Z.of_N c in
  ((9 <=? z) && (z <=? 13)) || ((28 <=? z) && (z <=? 32))
  || (z =? 133) || (z =? 160) || (z =? 5760)
  || ((8192 <=? z) && (z <=? 8202))
  || (z =? 8232) || (z =? 8233) || (z =? 8239) || (z =? 8287)
  || (z =? 12288).

Fixpoint lstrip (s : str) : str :=
  match s with
  | [] => []
  | c :: s' => if isspace c then lstrip s' else s
  end.

Definition rstrip (s : str) : str := rev (lstrip (rev s)).

(** [s.strip()] *)
Definition strip (s : str) : str := rstrip (lstrip s).

(** Truthiness of a string: [bool(s)]. *)
Definition truthy (s : str) : bool :=
  match s with [] => false | _ :: _ => true end.

(** [sep.join(parts)] *)
Fixpoint join (sep : str) (parts : list str) : str :=
  match parts with
  | [] => []
  | [p] => p
  | p :: rest => p ++ sep ++ join sep rest
  end.

(** ASCII part of [str.lower]: code points 65..90 move to 97..122. *)
Definition ascii_lower_char (c : char) : char :=
  if (65 <=? c)%N && (c <=? 90)%N then (c + 32)%N else c.

Definition ascii_lower (s : str) : str := map ascii_lower_char s.

End PyStr.

Import PyStr.

(** ** config.py *)

Module config.

Definition TRANSLATION_SUFFIX : str := [45; 101; 110]%N.   (* '-en' *)
Definition MAX_CHUNK_SIZE : Z := 500.
Definition MAX_RETRIES : nat := 5.

(** Delays are only ever handed to [time.sleep]; they are kept symbolic. *)
Inductive delay := BASE_DELAY | CHUNK_DELAY | RETRY_DELAY.

(** [int(max_size * MIN_CHUNK_RATIO)] with [MIN_CHUNK_RATIO = 0.5]:
    halving is exact in binary floating point and [int()] truncates
    towards zero, which is [Z.quot] (for [|max_size| < 2^53], beyond which
    no Python string is longer than [max_size]). *)
Definition min_position_of (max_size : Z) : Z := Z.quot max_size 2.

(** ('. ', '.\n', '؟ ', '! ', '، ', '\n\n', '\n') *)
Definition SENTENCE_DELIMITERS : list str :=
  [ [46; 32]; [46; 10]; [1567; 32]; [33; 32]; [1548; 32]; [10; 10]; [10] ]%N.

End config.

(** ** TextChunker *)

Module TextChunker.

(** The [for delimiter in ...] loop of [_find_break_point]. *)
Fixpoint find_break_in (delims : list str) (chunk : str)
         (min_position max_size : Z) : Z :=
  match delims with
  | [] => max_size
  | delimiter :: rest =>
      let pos := rfind chunk delimiter in
      if pos >? min_position then pos + len delimiter
      else find_break_in rest chunk min_position max_size
  end.

Definition _find_break_point (chunk : str) (max_size : Z) : Z :=
  let min_position := config.min_position_of max_size in
  find_break_in config.SENTENCE_DELIMITERS chunk min_position max_size.

(** One pass through the body of [while remaining:].  [inl chunks] is the
    loop's exit (falsy [remaining], or the [break]); [inr (remaining',
    chunks')] is the state the next iteration starts from. *)
Definition chunk_step (remaining : str) (chunks : list str) (max_size : Z)
  : list str + (str * list str) :=
  if negb (truthy remaining) then inl chunks
  else if len remaining <=? max_size then inl (chunks ++ [remaining])
  else
    let chunk := slice_to remaining max_size in
    let break_point := _find_break_point chunk max_size in
    inr (slice_from remaining break_point,
         chunks ++ [slice_to remaining break_point]).

Fixpoint chunk_loop (fuel : nat) (remaining : str) (chunks : list str)
         (max_size : Z) : option (list str) :=
  match fuel with
  | O => None
  | S fuel' =>
      match chunk_step remaining chunks max_size with
      | inl done => Some done
      | inr (remaining', chunks') => chunk_loop fuel' remaining' chunks' max_size
      end
  end.

Definition chunk_text (fuel : nat) (text : str) (max_size : Z)
  : option (list str) :=
  if len text <=? max_size then Some [text]
  else chunk_loop fuel text [] max_size.

End TextChunker.

Import TextChunker.

(** ** JSON values, records and statistics *)

Module Json.

(** What [json.load] can produce.  Objects keep their keys in insertion
    order, as Python dictionaries do. *)
Inductive json :=
| JNull
| JBool (b : bool)
| JInt (z : Z)
| JFloat (lexeme : str)
| JStr (s : str)
| JArr (elems : list json)
| JObj (fields : list (str * json)).

Definition dict := list (str * json).

(** [item.get(key)] as an option: the first binding of [key]. *)
Fixpoint dict_get (key : str) (d : dict) : option json :=
  match d with
  | [] => None
  | (k, v) :: d' => if str_eqb k key then Some v else dict_get key d'
  end.

(** [key in item] *)
Definition dict_mem (key : str) (d : dict) : bool :=
  match dict_get key d with Some _ => true | None => false end.

(** [item[key] = v]: an existing key keeps its position, a new key goes
    to the end. *)
Fixpoint dict_set (key : str) (v : json) (d : dict) : dict :=
  match d with
  | [] => [(key, v)]
  | (k, x) :: d' =>
      if str_eqb k key then (k, v) :: d' else (k, x) :: dict_set key v d'
  end.

Definition keys (d : dict) : list str := map fst d.

(** A Python dictionary holds each key once. *)
Definition wf_dict (d : dict) : Prop := NoDup (keys d).

(** [item[key] == value] for a string [value]. *)
Definition json_eq_str (j : json) (s : str) : bool :=
  match j with JStr t => str_eqb t s | _ => false end.

(** The code points that UTF-8 cannot encode: the surrogates U+D800 to
    U+DFFF.  [json.load] produces them from escapes such as ["\ud800"]. *)
Definition is_surrogate (c : char) : bool :=
  ((55296 <=? c) && (c <=? 57343))%N.

(** [s.encode('utf-8')] does not raise. *)
Definition str_encodable (s : str) : bool :=
  forallb (fun c => negb (is_surrogate c)) s.

(** Every string of the document, key or value, can be encoded: what
    [json.dump(data, f, ensure_ascii=False)] needs of [data] to write it to
    a file opened with [encoding='utf-8']. *)
Fixpoint encodable (j : json) : bool :=
  match j with
  | JStr s => str_encodable s
  | JArr elems => forallb encodable elems
  | JObj fields =>
      forallb (fun kv => match kv with
                         | (k, v) => str_encodable k && encodable v
                         end) fields
  | _ => true
  end.

End Json.

Import Json.

Module Stats.

(** [TranslationStats] *)
Record TranslationStats := mkStats {
  total_items : Z;
  translated_fields : Z;
  skipped_fields : Z;
  failed_fields : Z
}.

Definition empty : TranslationStats := mkStats 0 0 0 0.

Definition set_total (n : Z) (s : TranslationStats) :=
  mkStats n (translated_fields s) (skipped_fields s) (failed_fields s).
Definition incr_translated (s : TranslationStats) :=
  mkStats (total_items s) (translated_fields s + 1) (skipped_fields s)
          (failed_fields s).
Definition incr_skipped (s : TranslationStats) :=
  mkStats (total_items s) (translated_fields s) (skipped_fields s + 1)
          (failed_fields s).
Definition incr_failed (s : TranslationStats) :=
  mkStats (total_items s) (translated_fields s) (skipped_fields s)
          (failed_fields s + 1).

(** [FileResult]; the error text is not modelled, only its presence. *)
Record FileResult := mkFileResult {
  filename : str;
  success : bool;
  stats : TranslationStats
}.

End Stats.

Import Stats.

(** ** Effects: exceptions, the provider, sleeps and files *)

Module Eff.

Inductive exn :=
| ProviderError
| TypeError
| AttributeError
| OSError
| JSONDecodeError
| UnicodeEncodeError.

(** What one call of the remote provider does: it returns a string, or
    raises an exception of the kind [except Exception] catches. *)
Inductive outcome := Returned (s : str) | Raised.

Inductive event :=
| EvCall (text : str)
| EvSleep (d : config.delay)
| EvWrite (path : str) (data : json).

(** A computation ends normally, raises, or runs out of the fuel that
    bounds the chunker's [while]. *)
Inductive result (A : Type) :=
| Ok (a : A)
| Exc (e : exn)
| OutOfFuel.
Arguments Ok {A} a.
Arguments Exc {A} e.
Arguments OutOfFuel {A}.

Definition M (St A : Type) : Type := St -> result A * St.

Definition ret {St A} (a : A) : M St A := fun st => (Ok a, st).

Definition bind {St A B} (m : M St A) (k : A -> M St B) : M St B :=
  fun st =>
    match m st with
    | (Ok a, st') => k a st'
    | (Exc e, st') => (Exc e, st')
    | (OutOfFuel, st') => (OutOfFuel, st')
    end.

Definition raise {St A} (e : exn) : M St A := fun st => (Exc e, st).

Definition out_of_fuel {St A} : M St A := fun st => (OutOfFuel, st).

(** [try: body except Exception: handler] *)
Definition try_except {St A} (body : M St A) (handler : exn -> M St A)
  : M St A :=
  fun st =>
    match body st with
    | (Exc e, st') => handler e st'
    | r => r
    end.

Definition get {St} : M St St := fun st => (Ok st, st).
Definition modify {St} (f : St -> St) : M St unit := fun st => (Ok tt, f st).

(** Run a computation on a component of a larger state. *)
Definition lift {St Big A} (proj : Big -> St) (upd : St -> Big -> Big)
           (m : M St A) : M Big A :=
  fun big => let (r, st') := m (proj big) in (r, upd st' big).

(** [for x in xs: body(x)] *)
Fixpoint for_each {St X} (xs : list X) (body : X -> M St unit) : M St unit :=
  match xs with
  | [] => ret tt
  | x :: xs' => bind (body x) (fun _ => for_each xs' body)
  end.

End Eff.

Import Eff.

Notation "x <- m ;; k" := (bind m (fun x => k))
  (at level 61, m at next level, right associativity).
Notation "m ;;; k" := (bind m (fun _ => k))
  (at level 61, right associativity).

(** ** The world: provider state, event log, files *)

Module World.

Section WithProvider.

Variable PState : Type.

(** The remote provider ([GoogleTranslator.translate]) as a state machine:
    a call either returns a string or raises. *)
Variable provider : PState -> str -> PState * outcome.

(** A file that is absent has no entry; [None] as content is a file that
    is not valid JSON. *)
Record world := mkWorld {
  prov : PState;
  trace : list event;
  fs : list (str * option json)
}.

Definition log (ev : event) (w : world) : world :=
  mkWorld (prov w) (trace w ++ [ev]) (fs w).

(** [self.translator.translate(text)] *)
Definition provider_call (text : str) : M world str :=
  fun w =>
    let (p', o) := provider (prov w) text in
    let w' := mkWorld p' (trace w ++ [EvCall text]) (fs w) in
    match o with
    | Returned s => (Ok s, w')
    | Raised => (Exc ProviderError, w')
    end.

(** [time.sleep(d)] *)
Definition sleep (d : config.delay) : M world unit :=
  fun w => (Ok tt, log (EvSleep d) w).

Fixpoint fs_get (path : str) (files : list (str * option json))
  : option (option json) :=
  match files with
  | [] => None
  | (p, c) :: files' => if str_eqb p path then Some c else fs_get path files'
  end.

Fixpoint fs_put (path : str) (c : option json)
         (files : list (str * option json)) : list (str * option json) :=
  match files with
  | [] => [(path, c)]
  | (p, x) :: files' =>
      if str_eqb p path then (p, c) :: files' else (p, x) :: fs_put path c files'
  end.

(** [with open(path, 'r') as f: data = json.load(f)] *)
Definition load_json (path : str) : M world json :=
  fun w =>
    match fs_get path (fs w) with
    | None => (Exc OSError, w)
    | Some None => (Exc JSONDecodeError, w)
    | Some (Some data) => (Ok data, w)
    end.

(** [with open(path, 'w', encoding='utf-8') as f:
        json.dump(data, f, ensure_ascii=False, ...)].
    Opening the file empties it.  The encoder then writes the document
    piece by piece; a string that UTF-8 cannot encode makes the write
    raise [UnicodeEncodeError], and the file is left with the pieces
    written before it, which are not valid JSON. *)
Definition dump_json (path : str) (data : json) : M world unit :=
  fun w =>
    let opened content :=
      mkWorld (prov w) (trace w ++ [EvWrite path data])
              (fs_put path content (fs w)) in
    if encodable data then (Ok tt, opened (Some data))
    else (Exc UnicodeEncodeError, opened None).

End WithProvider.

Arguments prov {PState} w.
Arguments trace {PState} w.
Arguments fs {PState} w.
Arguments mkWorld {PState} prov trace fs.
Arguments log {PState} ev w.
Arguments sleep {PState} d w.
Arguments load_json {PState} path w.
Arguments dump_json {PState} path data w.

(** Number of provider calls recorded in a log. *)
Fixpoint calls (tr : list event) : nat :=
  match tr with
  | [] => O
  | EvCall _ :: tr' => S (calls tr')
  | _ :: tr' => calls tr'
  end.

(** The paths opened for writing, in order. *)
Fixpoint writes (tr : list event) : list str :=
  match tr with
  | [] => []
  | EvWrite p _ :: tr' => p :: writes tr'
  | _ :: tr' => writes tr'
  end.

End World.

Import World.

(** ** Translator *)

Module Translator.

Section WithProvider.

Variable PState : Type.
Variable provider : PState -> str -> PState * outcome.

Local Abbreviation world := (world PState).
Local Abbreviation provider_call := (provider_call PState provider).

Definition last_attempt (attempt : nat) : bool :=
  negb (Z.of_nat attempt <? Z.of_nat config.MAX_RETRIES - 1).

(** One iteration of [for attempt in range(MAX_RETRIES)] in
    [_translate_single]: [Some r] is a [return r], [None] falls through to
    the next attempt. *)
Definition single_attempt (text : str) (attempt : nat)
  : M world (option str) :=
  try_except
    (result <- provider_call text ;;
     sleep config.BASE_DELAY ;;;
     ret (Some result))
    (fun _ =>
       if last_attempt attempt then ret (Some text)
       else sleep config.RETRY_DELAY ;;; ret None).

Fixpoint single_loop (text : str) (attempts : list nat) : M world str :=
  match attempts with
  | [] => ret text
  | attempt :: rest =>
      r <- single_attempt text attempt ;;
      match r with
      | Some v => ret v
      | None => single_loop text rest
      end
  end.

Definition _translate_single (text : str) : M world str :=
  single_loop text (seq 0 config.MAX_RETRIES).

(** One iteration of the inner [for attempt in ...] of [_translate_chunks]:
    [Some l] is a [break] with [translated_chunks = l]. *)
Definition chunk_attempt (chunk : str) (translated_chunks : list str)
           (attempt : nat) : M world (option (list str)) :=
  try_except
    (result <- provider_call chunk ;;
     sleep config.CHUNK_DELAY ;;;
     ret (Some (translated_chunks ++ [result])))
    (fun _ =>
       if last_attempt attempt then ret (Some (translated_chunks ++ [chunk]))
       else sleep config.RETRY_DELAY ;;; ret None).

Fixpoint chunk_attempts (chunk : str) (translated_chunks : list str)
         (attempts : list nat) : M world (list str) :=
  match attempts with
  | [] => ret translated_chunks
  | attempt :: rest =>
      r <- chunk_attempt chunk translated_chunks attempt ;;
      match r with
      | Some l => ret l
      | None => chunk_attempts chunk translated_chunks rest
      end
  end.

Fixpoint chunks_loop (chunks : list str) (translated_chunks : list str)
  : M world (list str) :=
  match chunks with
  | [] => ret translated_chunks
  | chunk :: rest =>
      l <- chunk_attempts chunk translated_chunks (seq 0 config.MAX_RETRIES) ;;
      chunks_loop rest l
  end.

Definition _translate_chunks (chunks : list str) : M world str :=
  translated_chunks <- chunks_loop chunks [] ;;
  ret (join [32%N] translated_chunks).

(** [translate] on a [str].  [chunk_text] runs with its default
    [max_size]; the fuel [S (length text)] is always enough for a positive
    [max_size] (lemma [chunk_text_enough_fuel] below). *)
Definition translate (text : str) : M world str :=
  if negb (truthy text) || negb (truthy (strip text)) then ret text
  else
    match chunk_text (S (length text)) text config.MAX_CHUNK_SIZE with
    | None => out_of_fuel
    | Some chunks =>
        if (length chunks =? 1)%nat then _translate_single text
        else _translate_chunks chunks
    end.

End WithProvider.

End Translator.

Import Translator.

(** ** JSONTranslator *)

Module JSONTranslator.

(** [len(data)]: [None], booleans and numbers have no length. *)
Definition py_len {St} (data : json) : M St Z :=
  match data with
  | JArr elems => ret (Z.of_nat (length elems))
  | JObj fields => ret (Z.of_nat (length fields))
  | JStr s => ret (len s)
  | _ => raise TypeError
  end.

(** What [for item in data] visits: the elements of a list, the keys of an
    object, the characters of a string. *)
Definition iter_elems {St} (data : json) : M St (list json) :=
  match data with
  | JArr elems => ret elems
  | JObj fields => ret (map (fun kv => JStr (fst kv)) fields)
  | JStr s => ret (map (fun c => JStr [c]) s)
  | _ => raise TypeError
  end.

(** The document after the loop: only the dictionaries inside a list are
    mutated in place. *)
Definition rebuild (data : json) (elems' : list json) : json :=
  match data with
  | JArr _ => JArr elems'
  | _ => data
  end.

Section WithProvider.

Variable PState : Type.
Variable provider : PState -> str -> PState * outcome.

Local Abbreviation world := (world PState).
Local Abbreviation translate := (translate PState provider).

(** The objects [_process_item] works on: the record, the statistics, and
    the world behind the translator. *)
Record item_state := mkItemState {
  st_item : dict;
  st_stats : TranslationStats;
  st_world : world
}.

Definition with_world {A} (m : M world A) : M item_state A :=
  lift st_world (fun w' st => mkItemState (st_item st) (st_stats st) w') m.

Definition upd_stats (f : TranslationStats -> TranslationStats)
  : M item_state unit :=
  modify (fun st => mkItemState (st_item st) (f (st_stats st)) (st_world st)).

Definition set_item (key : str) (v : json) : M item_state unit :=
  modify (fun st =>
            mkItemState (dict_set key v (st_item st)) (st_stats st) (st_world st)).

(** Body of [for key, value in list(item.items())]. *)
Definition process_field (key : str) (value : json) : M item_state unit :=
  if endswith key config.TRANSLATION_SUFFIX then ret tt
  else
    match value with
    | JStr v =>
        if negb (truthy (strip v)) then ret tt
        else
          let en_key := key ++ config.TRANSLATION_SUFFIX in
          st <- get ;;
          if dict_mem en_key (st_item st) then upd_stats incr_skipped
          else
            translated <- with_world (translate v) ;;
            set_item en_key (JStr translated) ;;;
            if negb (str_eqb translated v) then upd_stats incr_translated
            else upd_stats incr_failed
    | _ => ret tt
    end.

(** [_process_item] on a dictionary: the loop runs over a snapshot of the
    items taken before the first iteration. *)
Definition _process_item : M item_state unit :=
  st <- get ;;
  for_each (st_item st) (fun kv => process_field (fst kv) (snd kv)).

(** [self._process_item(item, stats, verbose)] for an element of [data]:
    anything but a dictionary has no [.items()]. *)
Definition process_element (e : json) : M (TranslationStats * world) json :=
  fun sw =>
    match e with
    | JObj d =>
        let (r, st') := _process_item (mkItemState d (fst sw) (snd sw)) in
        (match r with
         | Ok _ => Ok (JObj (st_item st'))
         | Exc x => Exc x
         | OutOfFuel => OutOfFuel
         end, (st_stats st', st_world st'))
    | _ => (Exc AttributeError, sw)
    end.

Fixpoint process_elements (es : list json)
  : M (TranslationStats * world) (list json) :=
  match es with
  | [] => ret []
  | e :: es' =>
      e' <- process_element e ;;
      es'' <- process_elements es' ;;
      ret (e' :: es'')
  end.

Definition in_world {A} (m : M world A) : M (TranslationStats * world) A :=
  lift snd (fun w' sw => (fst sw, w')) m.

(** The [try] block of [process_file]. *)
Definition process_file_body (file_path : str)
  : M (TranslationStats * world) unit :=
  data <- in_world (load_json file_path) ;;
  n <- py_len data ;;
  modify (fun sw => (set_total n (fst sw), snd sw)) ;;;
  elems <- iter_elems data ;;
  elems' <- process_elements elems ;;
  in_world (dump_json file_path (rebuild data elems')).

Definition process_file (file_path : str) : M world FileResult :=
  fun w =>
    match process_file_body file_path (Stats.empty, w) with
    | (Ok _, (s, w')) => (Ok (mkFileResult file_path true s), w')
    | (Exc _, (s, w')) => (Ok (mkFileResult file_path false s), w')
    | (OutOfFuel, (_, w')) => (OutOfFuel, w')
    end.

End WithProvider.

End JSONTranslator.

Import JSONTranslator.

(** ** TranslationRetrier (retry_failed_translations.py) *)

Module TranslationRetrier.

(** [FileRetryResult] *)
Record FileRetryResult := mkRetryResult {
  rr_filename : str;
  rr_fields_retried : Z;
  rr_fields_fixed : Z;
  rr_modified : bool
}.

Section WithProvider.

Variable PState : Type.
Variable provider : PState -> str -> PState * outcome.

Local Abbreviation world := (world PState).
Local Abbreviation translate := (translate PState provider).

(** The locals of [_retry_file] while one record is visited. *)
Record retry_state := mkRetryState {
  rs_item : dict;
  fields_retried : Z;
  fields_fixed : Z;
  modified : bool;
  rs_world : world
}.

Definition with_world {A} (m : M world A) : M retry_state A :=
  lift rs_world
       (fun w' st => mkRetryState (rs_item st) (fields_retried st)
                                  (fields_fixed st) (modified st) w') m.

(** [en_key in item and item[en_key] == value] *)
Definition failed_signature (en_key : str) (v : str) (item : dict) : bool :=
  dict_mem en_key item &&
  match dict_get en_key item with
  | Some j => json_eq_str j v
  | None => false
  end.

Definition retry_field (key : str) (value : json) : M retry_state unit :=
  if endswith key config.TRANSLATION_SUFFIX then ret tt
  else
    match value with
    | JStr v =>
        if negb (truthy (strip v)) then ret tt
        else
          let en_key := key ++ config.TRANSLATION_SUFFIX in
          st <- get ;;
          if failed_signature en_key v (rs_item st) then
            modify (fun st => mkRetryState (rs_item st) (fields_retried st + 1)
                                (fields_fixed st) (modified st) (rs_world st)) ;;;
            translated <- with_world (translate v) ;;
            if negb (str_eqb translated v) then
              modify (fun st =>
                        mkRetryState (dict_set en_key (JStr translated) (rs_item st))
                                     (fields_retried st) (fields_fixed st + 1)
                                     true (rs_world st))
            else ret tt
          else ret tt
    | _ => ret tt
    end.

(** The locals that outlive a record. *)
Record retry_acc := mkRetryAcc {
  acc_retried : Z;
  acc_fixed : Z;
  acc_modified : bool;
  acc_world : world
}.

Definition retry_element (e : json) : M retry_acc json :=
  fun acc =>
    match e with
    | JObj d =>
        let body :=
          for_each d (fun kv => retry_field (fst kv) (snd kv)) in
        let (r, st') :=
          body (mkRetryState d (acc_retried acc) (acc_fixed acc)
                             (acc_modified acc) (acc_world acc)) in
        (match r with
         | Ok _ => Ok (JObj (rs_item st'))
         | Exc x => Exc x
         | OutOfFuel => OutOfFuel
         end,
         mkRetryAcc (fields_retried st') (fields_fixed st') (modified st')
                    (rs_world st'))
    | _ => (Exc AttributeError, acc)
    end.

Fixpoint retry_elements (es : list json) : M retry_acc (list json) :=
  match es with
  | [] => ret []
  | e :: es' =>
      e' <- retry_element e ;;
      es'' <- retry_elements es' ;;
      ret (e' :: es'')
  end.

Definition in_world {A} (m : M world A) : M retry_acc A :=
  lift acc_world
       (fun w' acc => mkRetryAcc (acc_retried acc) (acc_fixed acc)
                                 (acc_modified acc) w') m.

Definition retry_file_body (file_path : str) : M retry_acc FileRetryResult :=
  data <- in_world (load_json file_path) ;;
  elems <- iter_elems data ;;
  elems' <- retry_elements elems ;;
  acc <- get ;;
  (if acc_modified acc
   then in_world (dump_json file_path (rebuild data elems'))
   else ret tt) ;;;
  ret (mkRetryResult file_path (acc_retried acc) (acc_fixed acc)
                     (acc_modified acc)).

Definition _retry_file (file_path : str) : M world FileRetryResult :=
  fun w =>
    let (r, acc) := retry_file_body file_path (mkRetryAcc 0 0 false w) in
    (r, acc_world acc).

End WithProvider.

End TranslationRetrier.

(** ** NonTranslatableFixer (fix_non_translatable.py) *)

Module NonTranslatableFixer.

(** {'true', 'false', 'null', 'yes', 'no', '0', ..., '9'} *)
Definition NON_TRANSLATABLE_VALUES : list str :=
  [ [116; 114; 117; 101]; [102; 97; 108; 115; 101]; [110; 117; 108; 108];
    [121; 101; 115]; [110; 111];
    [48]; [49]; [50]; [51]; [52]; [53]; [54]; [55]; [56]; [57] ]%N.

Definition str_in (x : str) (l : list str) : bool := existsb (str_eqb x) l.

Section WithLower.

(** [str.lower]: Python's Unicode lower-casing is a table of the run time
    and is taken as given; [ascii_lower] is its restriction to ASCII. *)
Variable lower : str -> str.

Variable PState : Type.
Local Abbreviation world := (world PState).

(** The locals of [_fix_file] while one record is visited. *)
Record fix_state := mkFixState {
  fx_item : dict;
  fx_modified : bool;
  fixed_count : Z
}.

Definition fix_set (en_key : str) (v : str) (st : fix_state) : fix_state :=
  mkFixState (dict_set en_key (JStr v) (fx_item st)) true (fixed_count st + 1).

(** Body of [for key, value in list(item.items())]. *)
Definition fix_field (key : str) (value : json) (st : fix_state) : fix_state :=
  if endswith key config.TRANSLATION_SUFFIX then st
  else
    match value with
    | JStr v =>
        let en_key := key ++ config.TRANSLATION_SUFFIX in
        if str_in (strip (lower v)) NON_TRANSLATABLE_VALUES then
          match dict_get en_key (fx_item st) with
          | Some j => if negb (json_eq_str j v) then fix_set en_key v st else st
          | None => fix_set en_key v st
          end
        else st
    | _ => st
    end.

Definition fix_item (d : dict) (modified : bool) (count : Z) : fix_state :=
  fold_left (fun st kv => fix_field (fst kv) (snd kv) st) d
            (mkFixState d modified count).

(** [for item in data] over a list; an element that is not a dictionary
    has no [.items()]. *)
Fixpoint fix_elements (es : list json) (modified : bool) (count : Z)
  : result (list json * bool * Z) :=
  match es with
  | [] => Ok ([], modified, count)
  | JObj d :: es' =>
      let st := fix_item d modified count in
      match fix_elements es' (fx_modified st) (fixed_count st) with
      | Ok (es'', m, c) => Ok (JObj (fx_item st) :: es'', m, c)
      | Exc x => Exc x
      | OutOfFuel => OutOfFuel
      end
  | _ :: _ => Exc AttributeError
  end.

Definition in_world {A} (m : M world A) : M (Z * world) A :=
  lift snd (fun w' tw => (fst tw, w')) m.

(** [_fix_file]; the state pairs [self.total_fixed] with the world. *)
Definition _fix_file (file_path : str) : M (Z * world) bool :=
  data <- in_world (load_json file_path) ;;
  match data with
  | JArr elems =>
      match fix_elements elems false 0 with
      | Ok (elems', modified, count) =>
          (if modified then
             in_world (dump_json file_path (JArr elems')) ;;;
             modify (fun tw => (fst tw + count, snd tw))
           else ret tt) ;;;
          ret modified
      | Exc x => raise x
      | OutOfFuel => out_of_fuel
      end
  | _ => ret false
  end.

End WithLower.

End NonTranslatableFixer.

(** ** Vocabulary of the statements *)

Module Vocab.

(** What one pass through the loop body of [chunk_text] takes from
    [remaining]: the whole of it when the loop ends there, the cut prefix
    otherwise. *)
Definition consumed (remaining : str) (max_size : Z) : Z :=
  match chunk_step remaining [] max_size with
  | inl _ => len remaining
  | inr (remaining', _) => len remaining - len remaining'
  end.

(** The values of [remaining] at the start of each pass through the loop
    body, in order. *)
Fixpoint iterations (fuel : nat) (remaining : str) (max_size : Z) : list str :=
  match fuel with
  | O => []
  | S fuel' =>
      if truthy remaining then
        remaining ::
        match chunk_step remaining [] max_size with
        | inl _ => []
        | inr (remaining', _) => iterations fuel' remaining' max_size
        end
      else []
  end.

(** "Each loop iteration consumes at least [minRatio * maxSize]
    characters", read over every pass through the loop body. *)
Definition every_iteration_consumes_ratio : Prop :=
  forall (text : str) (max_size : Z) (fuel : nat),
    1 <= max_size -> max_size < len text ->
    Forall (fun remaining => max_size <= 2 * consumed remaining max_size)
           (iterations fuel text max_size).

(** No delimiter passes the test [pos > min_position] in the window. *)
Definition no_delimiter_qualifies (remaining : str) (max_size : Z) : Prop :=
  Forall (fun d => rfind (slice_to remaining max_size) d
                   <= config.min_position_of max_size)
         config.SENTENCE_DELIMITERS.

Section ProviderRuns.

Variable PState : Type.
Variable provider : PState -> str -> PState * outcome.

(** The provider's state after [n] calls on [text]. *)
Fixpoint after_calls (n : nat) (p : PState) (text : str) : PState :=
  match n with
  | O => p
  | S n' => after_calls n' (fst (provider p text)) text
  end.

(** The call number [i] (from 0) on [text] raises / returns [r]. *)
Definition raises_at (i : nat) (p : PState) (text : str) : Prop :=
  snd (provider (after_calls i p text) text) = Raised.

Definition returns_at (i : nat) (p : PState) (text : str) (r : str) : Prop :=
  snd (provider (after_calls i p text) text) = Returned r.

(** The provider always returns its input unchanged. *)
Definition echoes : Prop :=
  forall (p : PState) (t : str), snd (provider p t) = Returned t.

(** A later world that has the same files and no further write. *)
Definition quiet (w w' : world PState) : Prop :=
  fs w' = fs w /\ writes (trace w') = writes (trace w).

(** The world after a call that raised / returned, with the sleep that
    follows it. *)
Definition after_raise (attempt : nat) (text : str) (w : world PState) : world PState :=
  mkWorld (fst (provider (prov w) text))
          (trace w ++ EvCall text ::
             if last_attempt attempt then [] else [EvSleep config.RETRY_DELAY])
          (fs w).

Definition after_return (d : config.delay) (text : str) (w : world PState) : world PState :=
  mkWorld (fst (provider (prov w) text))
          (trace w ++ [EvCall text; EvSleep d]) (fs w).

End ProviderRuns.

Arguments quiet {PState} w w'.

(** [f"{key}{config.TRANSLATION_SUFFIX}"] *)
Definition en (key : str) : str := key ++ config.TRANSLATION_SUFFIX.

(** The guards of the record loops: the key does not carry the suffix
    and the value is a string that is not blank. *)
Definition source_field (key : str) (v : str) : Prop :=
  endswith key config.TRANSLATION_SUFFIX = false /\ truthy (strip v) = true.

Definition is_source (key : str) (value : json) : bool :=
  negb (endswith key config.TRANSLATION_SUFFIX) &&
  match value with JStr v => truthy (strip v) | _ => false end.


Definition count_fields (p : str -> json -> bool) (d : dict) : Z :=
  Z.of_nat (length (filter (fun kv => p (fst kv) (snd kv)) d)).

(** Source fields of [d] whose derived key is not in [d]. *)
Definition is_untranslated (d : dict) (key : str) (value : json) : bool :=
  is_source key value && negb (dict_mem (key ++ config.TRANSLATION_SUFFIX) d).

(** What [translate] makes of a non-blank value when the provider echoes:
    the value itself if it fits one chunk, its chunks joined by single
    spaces otherwise. *)
Definition echo_result (v : str) : str :=
  if len v <=? config.MAX_CHUNK_SIZE then v
  else
    match chunk_text (S (length v)) v config.MAX_CHUNK_SIZE with
    | Some chunks => join [32%N] chunks
    | None => v
    end.

(** Untranslated source fields of [d] by the size of their value. *)
Definition fits_one_chunk (value : json) : bool :=
  match value with
  | JStr v => len v <=? config.MAX_CHUNK_SIZE
  | _ => false
  end.

Definition is_untranslated_short (d : dict) (key : str) (value : json) : bool :=
  is_untranslated d key value && fits_one_chunk value.

Definition is_untranslated_long (d : dict) (key : str) (value : json) : bool :=
  is_untranslated d key value && negb (fits_one_chunk value).

(** The records of a list are dictionaries in Python's sense. *)
Definition records_wf (es : list json) : Prop :=
  forall d, In (JObj d) es -> wf_dict d.

Definition add_skipped (n : Z) (s : TranslationStats) : TranslationStats :=
  mkStats (total_items s) (translated_fields s) (skipped_fields s + n)
          (failed_fields s).

End Vocab.

Import Vocab.

(** ** Some providers *)

Module Providers.

(** Returns its input. *)
Definition echo (p : unit) (t : str) : unit * outcome := (p, Returned t).

(** Raises on every call. *)
Definition down (p : unit) (t : str) : unit * outcome := (p, Raised).

(** Raises on its first [k] calls, then answers [answer]. *)
Definition flaky (k : nat) (answer : str) (p : nat) (t : str) : nat * outcome :=
  (S p, if (p <? k)%nat then Raised else Returned answer).

(** Answers [answer] whatever the input. *)
Definition constant (answer : str) (p : unit) (t : str) : unit * outcome :=
  (p, Returned answer).

Definition world0 {PState} (p : PState) : world PState := mkWorld p [] [].

End Providers.

Import Providers.

(** ** Statements that are tested against the code

    Each of these is a sentence of the specification read literally; the
    section on properties settles it. *)

Module Claims.


(** "If the provider always returns its input unchanged, every field the
    translation pass processes ends with its derived value equal to the
    source value and is never counted as translated." *)
Definition echo_marks_every_field_failed : Prop :=
  forall (PState : Type) (provider : PState -> str -> PState * outcome)
         (d : dict) (stats : TranslationStats) (w : world PState),
    echoes PState provider -> wf_dict d ->
    exists st',
      _process_item PState provider (mkItemState PState d stats w)
      = (Ok tt, st') /\
      (forall key v,
          In (key, JStr v) d -> source_field key v ->
          dict_mem (en key) d = false ->
          dict_get (en key) (st_item PState st') = Some (JStr v)) /\
      translated_fields (st_stats PState st') = translated_fields stats.



End Claims.

Import Claims.

(** ** TranslationVerifier (verify_translations.py) *)

Module TranslationVerifier.

(** [FileStats] *)
Record FileStats := mkFileStats {
  filename : str;
  total_items : Z;
  total_fields : Z;
  translated_fields : Z;
  failed_fields : Z
}.

(** [FileStats.is_complete] *)
Definition is_complete (s : FileStats) : bool :=
  (translated_fields s =? total_fields s) && (failed_fields s =? 0).

(** The three counters of [_verify_file]. *)
Record counts := mkCounts {
  c_total : Z;
  c_translated : Z;
  c_failed : Z
}.

(** Body of [for key, value in item.items()]. *)
Definition verify_field (item : dict) (key : str) (value : json) (c : counts)
  : counts :=
  if endswith key config.TRANSLATION_SUFFIX then c
  else
    match value with
    | JStr v =>
        if negb (truthy (strip v)) then c
        else
          let en_key := key ++ config.TRANSLATION_SUFFIX in
          if dict_mem en_key item then
            match dict_get en_key item with
            | Some j =>
                if json_eq_str j v
                then mkCounts (c_total c + 1) (c_translated c + 1) (c_failed c + 1)
                else mkCounts (c_total c + 1) (c_translated c + 1) (c_failed c)
            | None => mkCounts (c_total c + 1) (c_translated c + 1) (c_failed c)
            end
          else mkCounts (c_total c + 1) (c_translated c) (c_failed c)
    | _ => c
    end.

Definition verify_item (item : dict) (c : counts) : counts :=
  fold_left (fun c kv => verify_field item (fst kv) (snd kv) c) item c.

(** [for item in data]; [None] is the [AttributeError] of an element
    without [.items()]. *)
Fixpoint verify_elements (es : list json) (c : counts) : option counts :=
  match es with
  | [] => Some c
  | JObj d :: es' => verify_elements es' (verify_item d c)
  | _ :: _ => None
  end.

(** How [_verify_file] ends: with statistics, with its own [ValueError]
    ("Expected list"), or with another exception. *)
Inductive verify_result :=
| Verified (s : FileStats)
| VerifyValueError
| VerifyRaised (e : exn).

(** [_verify_file] only reads: it maps the world to its result. *)
Definition _verify_file {PState : Type} (file_path : str) (w : world PState)
  : verify_result :=
  match fs_get file_path (fs w) with
  | None => VerifyRaised OSError
  | Some None => VerifyRaised JSONDecodeError
  | Some (Some (JArr elems)) =>
      match verify_elements elems (mkCounts 0 0 0) with
      | Some c =>
          Verified (mkFileStats file_path (Z.of_nat (length elems))
                                (c_total c) (c_translated c) (c_failed c))
      | None => VerifyRaised AttributeError
      end
  | Some (Some _) => VerifyValueError
  end.

(** [AggregateStats] *)
Record AggregateStats := mkAggregate {
  agg_total_files : Z;
  agg_total_items : Z;
  agg_total_fields : Z;
  agg_translated_fields : Z;
  agg_failed_fields : Z;
  file_stats : list FileStats
}.

(** 'filename_mapping.json' *)
Definition MAPPING_NAME : str :=
  [102; 105; 108; 101; 110; 97; 109; 101; 95; 109; 97; 112; 112; 105; 110;
   103; 46; 106; 115; 111; 110]%N.

(** The loop of [verify_all_files] over [json_files], the sorted result of
    the directory listing; the accumulator holds the four totals and
    [file_stats]. *)
Fixpoint verify_loop {PState : Type} (json_files : list str) (w : world PState)
         (acc : AggregateStats) : AggregateStats :=
  match json_files with
  | [] => acc
  | json_file :: rest =>
      if str_eqb json_file MAPPING_NAME then verify_loop rest w acc
      else
        match _verify_file json_file w with
        | Verified stats =>
            verify_loop rest w
              (mkAggregate
                 (agg_total_files acc)
                 (agg_total_items acc + total_items stats)
                 (agg_total_fields acc + total_fields stats)
                 (agg_translated_fields acc + translated_fields stats)
                 (agg_failed_fields acc + failed_fields stats)
                 (file_stats acc ++ [stats]))
        | _ => verify_loop rest w acc
        end
  end.

Definition verify_all_files {PState : Type} (json_files : list str)
           (w : world PState) : AggregateStats :=
  let acc := verify_loop json_files w (mkAggregate 0 0 0 0 0 []) in
  mkAggregate (Z.of_nat (length (file_stats acc)))
              (agg_total_items acc) (agg_total_fields acc)
              (agg_translated_fields acc) (agg_failed_fields acc)
              (file_stats acc).

End TranslationVerifier.

(** ** The loops over the files of the directory

    [json_files] stands for [sorted(json_dir.glob('*.json'))]: the listing
    of the directory belongs to the run time and is taken as given. *)

Module Runs.

Import TranslationRetrier.

(** [RetryStats] *)
Record RetryStats := mkRetryStats {
  files_processed : Z;
  fields_retried : Z;
  fields_fixed : Z;
  fields_still_failed : Z
}.

Section WithProvider.

Variable PState : Type.
Variable provider : PState -> str -> PState * outcome.

Local Abbreviation world := (world PState).

(** [TranslationRetrier.retry_all_files] *)
Fixpoint retry_loop (json_files : list str) (stats : RetryStats)
  : M world RetryStats :=
  match json_files with
  | [] => ret stats
  | json_file :: rest =>
      fun w =>
        match _retry_file PState provider json_file w with
        | (Ok result, w') =>
            if rr_fields_retried result >? 0 then
              retry_loop rest
                (mkRetryStats
                   (files_processed stats + 1)
                   (fields_retried stats + rr_fields_retried result)
                   (fields_fixed stats + rr_fields_fixed result)
                   (fields_still_failed stats
                    + (rr_fields_retried result - rr_fields_fixed result)))
                w'
            else retry_loop rest stats w'
        | (Exc _, w') => retry_loop rest stats w'
        | (OutOfFuel, w') => (OutOfFuel, w')
        end
  end.

Definition retry_all_files (json_files : list str) : M world RetryStats :=
  retry_loop json_files (mkRetryStats 0 0 0 0).

(** [process_files]: the list [results] handed to [print_summary]. *)
Fixpoint process_loop (json_files : list str) (results : list FileResult)
  : M world (list FileResult) :=
  match json_files with
  | [] => ret results
  | json_file :: rest =>
      result <- process_file PState provider json_file ;;
      process_loop rest (results ++ [result])
  end.

Definition process_files (json_files : list str) : M world (list FileResult) :=
  process_loop json_files [].

End WithProvider.

(** The totals [print_summary] computes from [results]. *)
Definition sum_over (f : TranslationStats -> Z) (results : list FileResult) : Z :=
  fold_right (fun r acc => f (stats r) + acc) 0 results.

Definition successful_files (results : list FileResult) : Z :=
  Z.of_nat (length (filter success results)).

Section Fixer.

Variable lower : str -> str.
Variable PState : Type.

(** The fixer object: [total_fixed], [files_modified]. *)
Record fixer := mkFixer {
  total_fixed : Z;
  files_modified : Z
}.

(** [NonTranslatableFixer.fix_all_files], after the metadata file has been
    taken out of the listing. *)
Fixpoint fix_loop (json_files : list str) (fx : fixer) (w : world PState)
  : fixer * world PState :=
  match json_files with
  | [] => (fx, w)
  | json_file :: rest =>
      match NonTranslatableFixer._fix_file lower PState json_file
              (total_fixed fx, w) with
      | (Ok true, (t, w')) => fix_loop rest (mkFixer t (files_modified fx + 1)) w'
      | (_, (t, w')) => fix_loop rest (mkFixer t (files_modified fx)) w'
      end
  end.

Definition fix_all_files (json_files : list str) (fx : fixer)
           (w : world PState) : fixer * world PState :=
  fix_loop
    (filter (fun f => negb (str_eqb f TranslationVerifier.MAPPING_NAME))
            json_files)
    fx w.

End Fixer.

End Runs.

(** ** FileNumberer (number_files.py)

    The mapping [number_files] builds and returns.  The listing of the
    directory is taken as given; the copies to the backup directory, the
    renames and the dump of the mapping are file operations of the run
    time and are not modelled. *)

Module FileNumberer.

(** [str(n)] for a natural number: its decimal digits, most significant
    first.  The fuel [S n] is more than the number of digits. *)
Fixpoint digits_fuel (fuel n : nat) : str :=
  match fuel with
  | O => []
  | S fuel' =>
      if (n <? 10)%nat then [N.of_nat (48 + n)]
      else digits_fuel fuel' (n / 10) ++ [N.of_nat (48 + n mod 10)]
  end.

Definition str_of_nat (n : nat) : str := digits_fuel (S n) n.

(** [s.zfill(width)]: zeros on the left, after a leading sign if there is
    one. *)
Definition zfill (s : str) (width : nat) : str :=
  let pad := repeat 48%N (width - length s) in
  match s with
  | c :: rest =>
      if (c =? 43)%N || (c =? 45)%N then c :: pad ++ rest else pad ++ s
  | [] => pad
  end.

(** [f"{number_prefix}_{old_name}"] *)
Definition new_name_of (idx total_digits : nat) (old_name : str) : str :=
  zfill (str_of_nat idx) total_digits ++ [95%N] ++ old_name.

(** [for idx, file_path in enumerate(json_files, 1): mapping[old_name] =
    new_name], started at [idx]. *)
Fixpoint build_mapping (json_files : list str) (idx total_digits : nat)
         (mapping : dict) : dict :=
  match json_files with
  | [] => mapping
  | old_name :: rest =>
      build_mapping rest (S idx) total_digits
        (dict_set old_name (JStr (new_name_of idx total_digits old_name)) mapping)
  end.

(** The value [number_files] returns when its file operations succeed;
    the empty listing returns the empty mapping at once. *)
Definition number_files_mapping (json_files : list str) : dict :=
  match json_files with
  | [] => []
  | _ :: _ =>
      let total_digits := length (str_of_nat (length json_files)) in
      build_mapping json_files 1 total_digits []
  end.

End FileNumberer.

(** ** More vocabulary *)

Module MoreVocab.

(** Source fields of [d] whose derived key is in [d]. *)
Definition is_translated_already (d : dict) (key : str) (value : json) : bool :=
  is_source key value && dict_mem (en key) d.

(** The provider raises on every call. *)
Definition always_raises {PState : Type}
           (provider : PState -> str -> PState * outcome) : Prop :=
  forall (p : PState) (t : str), snd (provider p t) = Raised.

Definition is_obj (e : json) : bool :=
  match e with JObj _ => true | _ => false end.

(** The documents [process_file] gets through: a list of objects, or an
    empty object or string (nothing to visit). *)
Definition processable (data : json) : bool :=
  match data with
  | JArr es => forallb is_obj es
  | JObj [] => true
  | JStr [] => true
  | _ => false
  end.

(** [e'] is the record [e] with fields appended. *)
Definition extends_record (e e' : json) : Prop :=
  exists d added, e = JObj d /\ e' = JObj (d ++ added).

(** A record in which every source field has its derived key. *)
Definition complete_record (e : json) : Prop :=
  exists d, e = JObj d /\
            forall key v, In (key, JStr v) d -> source_field key v ->
                          dict_mem (en key) d = true.

(** A source field whose derived value is present and equal to its own
    value: what the retry run and the verifier take for a failed
    translation. *)
Definition is_failed (d : dict) (key : str) (value : json) : bool :=
  is_source key value &&
  match value with
  | JStr v => TranslationRetrier.failed_signature (en key) v d
  | _ => false
  end.

(** A count summed over the records of a list. *)
Fixpoint count_in_records (p : dict -> str -> json -> bool) (es : list json) : Z :=
  match es with
  | [] => 0
  | JObj d :: es' => count_fields (p d) d + count_in_records p es'
  | _ :: es' => count_in_records p es'
  end.

(** Two records with the same keys in the same order. *)
Definition same_keys (e e' : json) : Prop :=
  exists d d', e = JObj d /\ e' = JObj d' /\ keys d' = keys d.

(** From [w] to [w'] nothing was written, or [path] was written once. *)
Definition prefix_writes {PState : Type} (w w' : world PState) (path : str)
  : Prop :=
  writes (trace w') = writes (trace w) \/
  writes (trace w') = writes (trace w) ++ [path].

(** The order of Python strings: lexicographic on code points. *)
Fixpoint str_lt (a b : str) : Prop :=
  match a, b with
  | _, [] => False
  | [], _ :: _ => True
  | x :: a', y :: b' => (x < y)%N \/ (x = y /\ str_lt a' b')
  end.

Definition is_digit (c : char) : Prop := (48 <= c <= 57)%N.

(** The number a string of decimal digits stands for. *)
Fixpoint digits_value (s : str) : nat :=
  match s with
  | [] => 0
  | c :: s' => (N.to_nat c - 48) * 10 ^ length s' + digits_value s'
  end.

(** The new names of [json_files], numbered from [idx]. *)
Fixpoint numbered (json_files : list str) (idx total_digits : nat) : list str :=
  match json_files with
  | [] => []
  | old_name :: rest =>
      FileNumberer.new_name_of idx total_digits old_name
      :: numbered rest (S idx) total_digits
  end.

(** The world [dump_json path data] leaves: the file was opened for
    writing, and holds [data] if the encoder got through, no valid JSON
    otherwise. *)
Definition after_dump {PState : Type} (path : str) (data : json)
           (w : world PState) : world PState :=
  mkWorld (prov w) (trace w ++ [EvWrite path data])
          (fs_put path (if encodable data then Some data else None) (fs w)).


End MoreVocab.

Import MoreVocab.

(** * Properties *)

(** ** Strings *)

Lemma str_eqb_eq (a b : str) : str_eqb a b = true <-> a = b.
Proof.
  revert b; induction a as [|x a IH]; intros [|y b]; simpl;
    try (split; [discriminate | discriminate]); try tauto.
  unfold char_eqb. rewrite andb_true_iff, N.eqb_eq, IH.
  split; [intros [-> ->]; reflexivity | intros H; inversion H; auto].
Qed.

Lemma str_eqb_refl (a : str) : str_eqb a a = true.
Proof. apply str_eqb_eq; reflexivity. Qed.

Lemma str_eqb_neq (a b : str) : str_eqb a b = false <-> a <> b.
Proof.
  rewrite <- str_eqb_eq. destruct (str_eqb a b); split; congruence.
Qed.

Lemma startswith_length (s d : str) :
  startswith s d = true -> (length d <= length s)%nat.
Proof.
  revert s; induction d as [|x d IH]; intros [|y s]; simpl; try lia;
    try discriminate.
  rewrite andb_true_iff. intros [_ H]. apply IH in H. lia.
Qed.

Lemma startswith_app (s d : str) : startswith (d ++ s) d = true.
Proof.
  induction d as [|x d IH]; simpl; [destruct s; reflexivity|].
  unfold char_eqb. rewrite N.eqb_refl. exact IH.
Qed.

Lemma startswith_inv (s d : str) :
  startswith s d = true -> exists t, s = d ++ t.
Proof.
  revert s; induction d as [|x d IH]; intros s.
  - exists s; reflexivity.
  - destruct s as [|y s]; simpl; [discriminate|].
    unfold char_eqb. rewrite andb_true_iff, N.eqb_eq. intros [-> H].
    destruct (IH _ H) as [t ->]. exists t; reflexivity.
Qed.

(** A found position leaves room for the whole delimiter. *)
Lemma rfind_aux_bound (s d : str) : forall (i : nat) (last p : Z),
  rfind_aux s d i last = p ->
  p = last \/ (Z.of_nat i <= p /\ p + len d <= Z.of_nat i + len s).
Proof.
  unfold len.
  induction s as [|c s IH]; intros i last p; cbn [rfind_aux].
  - destruct d; simpl; intros Hp; [right; lia | left; congruence].
  - intros H. apply IH in H. cbn [length] in *.
    destruct (startswith (c :: s) d) eqn:E.
    + apply startswith_length in E. cbn [length] in E.
      destruct H as [-> | H]; right; lia.
    + destruct H as [-> | H]; [left; reflexivity | right; lia].
Qed.

Lemma rfind_bound (s d : str) :
  rfind s d = -1 \/ (0 <= rfind s d /\ rfind s d + len d <= len s).
Proof.
  destruct (rfind_aux_bound s d 0 (-1) _ eq_refl) as [H | H]; [left | right];
    simpl in H; auto; lia.
Qed.

Lemma len_nonneg (s : str) : 0 <= len s.
Proof. unfold len; lia. Qed.

Lemma slice_to_nonneg (s : str) (n : Z) :
  0 <= n -> slice_to s n = firstn (Z.to_nat n) s.
Proof. intros H. unfold slice_to. destruct (Z.leb_spec 0 n); [reflexivity | lia]. Qed.

Lemma slice_from_nonneg (s : str) (n : Z) :
  0 <= n -> slice_from s n = skipn (Z.to_nat n) s.
Proof. intros H. unfold slice_from. destruct (Z.leb_spec 0 n); [reflexivity | lia]. Qed.

Lemma slice_split (s : str) (n : Z) : slice_to s n ++ slice_from s n = s.
Proof.
  unfold slice_to, slice_from. destruct (0 <=? n); apply firstn_skipn.
Qed.

Lemma len_slice_to (s : str) (n : Z) :
  0 <= n <= len s -> len (slice_to s n) = n.
Proof.
  unfold len. intros H. rewrite slice_to_nonneg by lia.
  rewrite length_firstn. lia.
Qed.

Lemma len_slice_from (s : str) (n : Z) :
  0 <= n <= len s -> len (slice_from s n) = len s - n.
Proof.
  unfold len. intros H. rewrite slice_from_nonneg by lia.
  rewrite length_skipn. lia.
Qed.

(** ** TextChunker *)

Section Chunker.

Variable max_size : Z.
Hypothesis max_size_pos : 0 < max_size.

Lemma min_position_bounds :
  0 <= config.min_position_of max_size /\
  2 * config.min_position_of max_size <= max_size
  < 2 * (config.min_position_of max_size + 1).
Proof.
  unfold config.min_position_of.
  rewrite Z.quot_div_nonneg by lia.
  pose proof (Z.div_mod max_size 2 ltac:(lia)).
  pose proof (Z.mod_pos_bound max_size 2 ltac:(lia)).
  pose proof (Z.div_pos max_size 2 ltac:(lia) ltac:(lia)). lia.
Qed.

(** The break point is the hard break, or lies past [min_position] and
    inside the window. *)
Lemma find_break_in_bound (delims : list str) (chunk : str) (minp : Z) :
  0 <= minp ->
  find_break_in delims chunk minp max_size = max_size \/
  (minp < find_break_in delims chunk minp max_size <= len chunk).
Proof.
  intros Hm. induction delims as [|d ds IH]; simpl; [left; reflexivity|].
  destruct (Z.gtb_spec (rfind chunk d) minp) as [Hgt | Hle]; [|exact IH].
  right. pose proof (len_nonneg d).
  destruct (rfind_bound chunk d) as [E | [H0 H1]]; lia.
Qed.

Lemma find_break_in_hard (delims : list str) (chunk : str) (minp : Z) :
  Forall (fun d => rfind chunk d <= minp) delims ->
  find_break_in delims chunk minp max_size = max_size.
Proof.
  induction 1 as [|d ds Hd _ IH]; simpl; [reflexivity|].
  destruct (Z.gtb_spec (rfind chunk d) minp); [lia | exact IH].
Qed.

Lemma break_point_bounds (remaining : str) :
  max_size < len remaining ->
  let bp := _find_break_point (slice_to remaining max_size) max_size in
  config.min_position_of max_size < bp <= max_size.
Proof.
  intros Hlen bp. subst bp. unfold _find_break_point. cbv zeta.
  pose proof min_position_bounds as [H0 H1].
  pose proof (len_slice_to remaining max_size ltac:(lia)) as Hc.
  destruct (find_break_in_bound config.SENTENCE_DELIMITERS
              (slice_to remaining max_size) _ H0) as [-> | H]; lia.
Qed.

(** The three ways through the loop body. *)
Lemma chunk_step_empty (chunks : list str) :
  chunk_step [] chunks max_size = inl chunks.
Proof. reflexivity. Qed.

Lemma chunk_step_last (remaining : str) (chunks : list str) :
  remaining <> [] -> len remaining <= max_size ->
  chunk_step remaining chunks max_size = inl (chunks ++ [remaining]).
Proof.
  intros Hne Hle. unfold chunk_step.
  destruct remaining; [congruence|]. simpl negb. cbv iota.
  destruct (Z.leb_spec (len (c :: remaining)) max_size); [reflexivity | lia].
Qed.

Lemma chunk_step_cut (remaining : str) (chunks : list str) :
  max_size < len remaining ->
  let bp := _find_break_point (slice_to remaining max_size) max_size in
  chunk_step remaining chunks max_size
  = inr (slice_from remaining bp, chunks ++ [slice_to remaining bp]).
Proof.
  intros Hlen bp. unfold chunk_step.
  destruct remaining as [|c r]; [unfold len in Hlen; simpl in Hlen; lia|].
  simpl negb. cbv iota.
  destruct (Z.leb_spec (len (c :: r)) max_size); [lia | reflexivity].
Qed.

Lemma chunk_step_inr (remaining remaining' : str) (chunks chunks' : list str) :
  chunk_step remaining chunks max_size = inr (remaining', chunks') ->
  let bp := _find_break_point (slice_to remaining max_size) max_size in
  max_size < len remaining /\
  config.min_position_of max_size < bp <= max_size /\
  remaining' = slice_from remaining bp /\
  chunks' = chunks ++ [slice_to remaining bp].
Proof.
  intros H bp.
  destruct (Z.leb_spec (len remaining) max_size) as [Hle | Hgt].
  - destruct remaining; [rewrite chunk_step_empty in H; discriminate|].
    rewrite chunk_step_last in H by (congruence || assumption). discriminate.
  - rewrite (chunk_step_cut remaining chunks Hgt) in H. fold bp in H.
    inversion H; subst remaining' chunks'.
    repeat split; try reflexivity; try assumption;
      apply (break_point_bounds remaining Hgt).
Qed.

Lemma chunk_step_inl (remaining : str) (chunks done : list str) :
  remaining <> [] ->
  chunk_step remaining chunks max_size = inl done ->
  done = chunks ++ [remaining] /\ len remaining <= max_size.
Proof.
  intros Hne H.
  destruct (Z.leb_spec (len remaining) max_size) as [Hle | Hgt].
  - rewrite chunk_step_last in H by assumption. split; congruence.
  - rewrite (chunk_step_cut remaining chunks Hgt) in H. discriminate.
Qed.

(** The loop on [remaining] appends to [chunks] a list [cs] that depends
    neither on the fuel nor on [chunks]. *)
Lemma chunk_loop_spec : forall (n : nat) (remaining : str),
  (length remaining <= n)%nat ->
  exists cs : list str,
    concat cs = remaining /\
    Forall (fun c => len c <= max_size) cs /\
    forall (fuel : nat) (chunks : list str),
      (length remaining < fuel)%nat ->
      chunk_loop fuel remaining chunks max_size = Some (chunks ++ cs).
Proof.
  induction n as [|n IH]; intros remaining Hn.
  - destruct remaining; [|simpl in Hn; lia].
    exists []. repeat split; [constructor|].
    intros [|fuel] chunks Hf; [lia|]. simpl. now rewrite app_nil_r.
  - destruct remaining as [|c r].
    { exists []. repeat split; [constructor|].
      intros [|fuel] chunks Hf; [simpl in Hf; lia|]. simpl. now rewrite app_nil_r. }
    destruct (Z.leb_spec (len (c :: r)) max_size) as [Hle | Hgt].
    + exists [c :: r]. split; [simpl; now rewrite app_nil_r|].
      split; [repeat constructor; exact Hle|].
      intros [|fuel] chunks Hf; [lia|]. cbn [chunk_loop].
      rewrite chunk_step_last by (congruence || exact Hle). reflexivity.
    + pose proof (break_point_bounds (c :: r) Hgt) as Hbp.
      pose proof min_position_bounds as [Hmp Hmp'].
      set (bp := _find_break_point (slice_to (c :: r) max_size) max_size) in *.
      cbv zeta in Hbp.
      assert (Hfrom : len (slice_from (c :: r) bp) = len (c :: r) - bp)
        by (apply len_slice_from; lia).
      destruct (IH (slice_from (c :: r) bp)) as (cs & Hcat & Hall & Hloop).
      { unfold len in Hfrom. simpl length in *. lia. }
      exists (slice_to (c :: r) bp :: cs). split; [|split].
      * simpl. rewrite Hcat. apply slice_split.
      * constructor; [|exact Hall]. rewrite len_slice_to; lia.
      * intros [|fuel] chunks Hf; [lia|]. cbn [chunk_loop].
        rewrite (chunk_step_cut (c :: r) chunks Hgt). fold bp.
        rewrite Hloop by (unfold len in Hfrom; simpl length in *; lia).
        now rewrite <- app_assoc.
Qed.

(** With a positive [max_size], fuel beyond the length of the text is
    enough, and the result does not depend on it. *)
Lemma chunk_text_spec (text : str) :
  exists chunks : list str,
    concat chunks = text /\
    Forall (fun c => len c <= max_size) chunks /\
    forall fuel : nat,
      (length text < fuel)%nat -> chunk_text fuel text max_size = Some chunks.
Proof.
  unfold chunk_text.
  destruct (Z.leb_spec (len text) max_size) as [Hle | Hgt].
  - exists [text]. split; [simpl; now rewrite app_nil_r|].
    split; [repeat constructor; exact Hle | reflexivity].
  - destruct (chunk_loop_spec (length text) text (le_n _)) as (cs & H1 & H2 & H3).
    exists cs. repeat split; auto.
Qed.

End Chunker.

(** ** Claims on the chunker *)

(** C1. For every string [s] and every [max_size > 0], [chunk_text]
    returns (any fuel beyond the length of [s] is enough) and
    concatenating the returned chunks in order gives back [s]. *)
Theorem chunk_text_reconstructs (s : str) (max_size : Z) :
  0 < max_size ->
  exists chunks : list str,
    (forall fuel : nat,
        (length s < fuel)%nat -> chunk_text fuel s max_size = Some chunks) /\
    concat chunks = s.
Proof.
  intros Hpos.
  destruct (chunk_text_spec max_size Hpos s) as (chunks & Hcat & _ & Hrun).
  exists chunks. split; assumption.
Qed.

Lemma chunk_text_reconstructs_witness :
  exists chunks : list str,
    (forall fuel : nat,
        (length [97; 98; 99; 100; 101]%N < fuel)%nat ->
        chunk_text fuel [97; 98; 99; 100; 101]%N 4 = Some chunks) /\
    concat chunks = [97; 98; 99; 100; 101]%N.
Proof. apply (chunk_text_reconstructs [97; 98; 99; 100; 101]%N 4). lia. Defined.

(** C2. For every string [s] and every [max_size > 0], every chunk that
    [chunk_text] returns has length at most [max_size]; and when no
    delimiter qualifies in the window, [_find_break_point] answers
    [max_size] and the loop cuts off exactly the first [max_size]
    characters. *)
Theorem chunk_text_size_bound (s : str) (max_size : Z) :
  0 < max_size ->
  (exists chunks : list str,
      (forall fuel : nat,
          (length s < fuel)%nat -> chunk_text fuel s max_size = Some chunks) /\
      Forall (fun c => len c <= max_size) chunks) /\
  (forall (remaining : str) (chunks : list str),
      max_size < len remaining ->
      no_delimiter_qualifies remaining max_size ->
      _find_break_point (slice_to remaining max_size) max_size = max_size /\
      chunk_step remaining chunks max_size
      = inr (skipn (Z.to_nat max_size) remaining,
             chunks ++ [firstn (Z.to_nat max_size) remaining]) /\
      len (firstn (Z.to_nat max_size) remaining) = max_size).
Proof.
  intros Hpos. split.
  - destruct (chunk_text_spec max_size Hpos s) as (chunks & _ & Hall & Hrun).
    exists chunks. split; assumption.
  - intros remaining chunks Hlen Hno.
    assert (Hbp : _find_break_point (slice_to remaining max_size) max_size
                  = max_size)
      by (apply find_break_in_hard; exact Hno).
    split; [exact Hbp|]. split.
    + rewrite (chunk_step_cut max_size Hpos remaining chunks Hlen).
      rewrite Hbp, slice_from_nonneg, slice_to_nonneg by lia. reflexivity.
    + rewrite <- slice_to_nonneg by lia. apply len_slice_to. lia.
Qed.

Lemma chunk_text_size_bound_witness :
  (exists chunks : list str,
      (forall fuel : nat,
          (length [97; 98; 99; 100; 101]%N < fuel)%nat ->
          chunk_text fuel [97; 98; 99; 100; 101]%N 4 = Some chunks) /\
      Forall (fun c => len c <= 4) chunks) /\
  (forall (remaining : str) (chunks : list str),
      4 < len remaining ->
      no_delimiter_qualifies remaining 4 ->
      _find_break_point (slice_to remaining 4) 4 = 4 /\
      chunk_step remaining chunks 4
      = inr (skipn (Z.to_nat 4) remaining,
             chunks ++ [firstn (Z.to_nat 4) remaining]) /\
      len (firstn (Z.to_nat 4) remaining) = 4).
Proof. apply (chunk_text_size_bound [97; 98; 99; 100; 101]%N 4). lia. Defined.

(** The hard-break premise of C2 is met by a text without delimiters. *)
Example hard_break_abcde :
  4 < len [97; 98; 99; 100; 101]%N /\
  no_delimiter_qualifies [97; 98; 99; 100; 101]%N 4.
Proof.
  split; [reflexivity|].
  unfold no_delimiter_qualifies. repeat constructor; vm_compute; discriminate.
Qed.

(** C8, as stated, fails: on ["abcde"] with [max_size = 4] the second pass
    through the loop starts with ["e"] and takes that one character, fewer
    than [0.5 * 4]. *)
Lemma every_iteration_consumes_ratio_fails : ~ every_iteration_consumes_ratio.
Proof.
  intros H.
  specialize (H [97; 98; 99; 100; 101]%N 4 10%nat ltac:(lia) ltac:(reflexivity)).
  vm_compute in H.
  inversion H as [|x l _ H2]; subst.
  inversion H2 as [|y l' H3 _]; subst.
  apply H3. reflexivity.
Qed.

(** C8, amended. For every text and every [max_size >= 1], [chunk_text]
    returns.  A pass through the loop body that does not end the loop
    takes more than [0.5 * max_size] characters (at least one) off
    [remaining]; the pass that ends the loop takes all of [remaining],
    which is then at most [max_size] long; and the hard break takes exactly
    [max_size] characters. *)
Theorem chunk_text_terminates (text : str) (max_size : Z) :
  1 <= max_size ->
  (exists chunks : list str,
      forall fuel : nat,
        (length text < fuel)%nat -> chunk_text fuel text max_size = Some chunks) /\
  (forall (remaining remaining' : str) (chunks chunks' : list str),
      chunk_step remaining chunks max_size = inr (remaining', chunks') ->
      max_size < 2 * (len remaining - len remaining') /\
      1 <= len remaining - len remaining' <= max_size /\
      consumed remaining max_size = len remaining - len remaining') /\
  (forall (remaining : str) (chunks done : list str),
      remaining <> [] ->
      chunk_step remaining chunks max_size = inl done ->
      done = chunks ++ [remaining] /\ len remaining <= max_size /\
      consumed remaining max_size = len remaining) /\
  (forall (remaining : str) (chunks : list str),
      max_size < len remaining ->
      no_delimiter_qualifies remaining max_size ->
      exists remaining' chunks',
        chunk_step remaining chunks max_size = inr (remaining', chunks') /\
        len remaining - len remaining' = max_size).
Proof.
  intros Hpos'. assert (Hpos : 0 < max_size) by lia.
  pose proof (min_position_bounds max_size Hpos) as (Hm0 & Hm1 & Hm2).
  split; [|split; [|split]].
  - destruct (chunk_text_spec max_size Hpos text) as (chunks & _ & _ & Hrun).
    exists chunks. exact Hrun.
  - intros remaining remaining' chunks chunks' H.
    pose proof (chunk_step_inr max_size Hpos _ _ _ _ H) as (Hgt & Hb & -> & _).
    assert (Hc : consumed remaining max_size
                 = len remaining
                   - len (slice_from remaining
                            (_find_break_point (slice_to remaining max_size)
                                               max_size))).
    { unfold consumed.
      rewrite (chunk_step_cut max_size Hpos remaining [] Hgt). reflexivity. }
    rewrite Hc, len_slice_from by lia. lia.
  - intros remaining chunks done Hne H.
    pose proof (chunk_step_inl max_size Hpos _ _ _ Hne H) as (-> & Hle).
    repeat split; [assumption|].
    unfold consumed. now rewrite chunk_step_last.
  - intros remaining chunks Hlen Hno.
    rewrite (chunk_step_cut max_size Hpos remaining chunks Hlen).
    do 2 eexists. split; [reflexivity|].
    replace (_find_break_point (slice_to remaining max_size) max_size)
      with max_size by (symmetry; apply find_break_in_hard; exact Hno).
    rewrite len_slice_from by lia. lia.
Qed.

Lemma chunk_text_terminates_witness :
  exists chunks : list str,
    forall fuel : nat,
      (length [97; 98; 99; 100; 101]%N < fuel)%nat ->
      chunk_text fuel [97; 98; 99; 100; 101]%N 4 = Some chunks.
Proof.
  exact (proj1 (chunk_text_terminates [97; 98; 99; 100; 101]%N 4 ltac:(lia))).
Defined.

(** ** Translator *)

Lemma calls_app (a b : list event) : calls (a ++ b) = (calls a + calls b)%nat.
Proof.
  induction a as [|[t|d|q j] a IH]; simpl; congruence.
Qed.

Lemma writes_app (a b : list event) : writes (a ++ b) = writes a ++ writes b.
Proof.
  induction a as [|[t|d|q j] a IH]; simpl; congruence.
Qed.

Lemma quiet_refl {PState} (w : world PState) : quiet w w.
Proof. split; reflexivity. Qed.

Lemma quiet_trans {PState} (w1 w2 w3 : world PState) :
  quiet w1 w2 -> quiet w2 w3 -> quiet w1 w3.
Proof. intros [A B] [C D]. split; congruence. Qed.

Section TranslatorFacts.

Variable PState : Type.
Variable provider : PState -> str -> PState * outcome.

Local Abbreviation world := (world PState).
Local Abbreviation single_attempt := (single_attempt PState provider).
Local Abbreviation single_loop := (single_loop PState provider).
Local Abbreviation _translate_single := (_translate_single PState provider).
Local Abbreviation chunk_attempt := (chunk_attempt PState provider).
Local Abbreviation chunk_attempts := (chunk_attempts PState provider).
Local Abbreviation chunks_loop := (chunks_loop PState provider).
Local Abbreviation _translate_chunks := (_translate_chunks PState provider).
Local Abbreviation translate := (translate PState provider).
Local Abbreviation after_calls := (after_calls PState provider).
Local Abbreviation raises_at := (raises_at PState provider).
Local Abbreviation returns_at := (returns_at PState provider).
Local Abbreviation after_raise := (after_raise PState provider).
Local Abbreviation after_return := (after_return PState provider).

Lemma single_attempt_raised (text : str) (attempt : nat) (w : world) :
  snd (provider (prov w) text) = Raised ->
  single_attempt text attempt w
  = (Ok (if last_attempt attempt then Some text else None),
     after_raise attempt text w).
Proof.
  unfold Translator.single_attempt, after_raise, try_except, bind,
    Vocab.after_raise, Vocab.after_return, provider_call, sleep, ret, log.
  destruct (provider (prov w) text) as [p' o]. simpl. intros ->.
  destruct (last_attempt attempt); simpl; [reflexivity|].
  now rewrite <- app_assoc.
Qed.

Lemma single_attempt_returned (text r : str) (attempt : nat) (w : world) :
  snd (provider (prov w) text) = Returned r ->
  single_attempt text attempt w
  = (Ok (Some r), after_return config.BASE_DELAY text w).
Proof.
  unfold Translator.single_attempt, after_return, try_except, bind,
    Vocab.after_raise, Vocab.after_return, provider_call, sleep, ret, log.
  destruct (provider (prov w) text) as [p' o]. simpl. intros ->. simpl.
  now rewrite <- app_assoc.
Qed.

Lemma chunk_attempt_raised (chunk : str) (tc : list str) (attempt : nat)
      (w : world) :
  snd (provider (prov w) chunk) = Raised ->
  chunk_attempt chunk tc attempt w
  = (Ok (if last_attempt attempt then Some (tc ++ [chunk]) else None),
     after_raise attempt chunk w).
Proof.
  unfold Translator.chunk_attempt, after_raise, try_except, bind,
    Vocab.after_raise, Vocab.after_return, provider_call, sleep, ret, log.
  destruct (provider (prov w) chunk) as [p' o]. simpl. intros ->.
  destruct (last_attempt attempt); simpl; [reflexivity|].
  now rewrite <- app_assoc.
Qed.

Lemma chunk_attempt_returned (chunk r : str) (tc : list str) (attempt : nat)
      (w : world) :
  snd (provider (prov w) chunk) = Returned r ->
  chunk_attempt chunk tc attempt w
  = (Ok (Some (tc ++ [r])), after_return config.CHUNK_DELAY chunk w).
Proof.
  unfold Translator.chunk_attempt, after_return, try_except, bind,
    Vocab.after_raise, Vocab.after_return, provider_call, sleep, ret, log.
  destruct (provider (prov w) chunk) as [p' o]. simpl. intros ->. simpl.
  now rewrite <- app_assoc.
Qed.

Lemma quiet_after_raise (attempt : nat) (text : str) (w : world) :
  quiet w (after_raise attempt text w).
Proof.
  split; [reflexivity|]. unfold Vocab.after_raise. simpl.
  rewrite writes_app. destruct (last_attempt attempt); simpl;
    now rewrite app_nil_r.
Qed.

Lemma quiet_after_return (d : config.delay) (text : str) (w : world) :
  quiet w (after_return d text w).
Proof.
  split; [reflexivity|]. unfold Vocab.after_return. simpl.
  rewrite writes_app. simpl. now rewrite app_nil_r.
Qed.

Lemma outcome_cases (p : PState) (t : str) :
  snd (provider p t) = Raised \/ exists r, snd (provider p t) = Returned r.
Proof. destruct (snd (provider p t)); [right; eauto | left; reflexivity]. Qed.

(** No path through the retry loops raises. *)
Lemma single_loop_ok (text : str) (attempts : list nat) : forall w : world,
  exists r w', single_loop text attempts w = (Ok r, w') /\ quiet w w'.
Proof.
  induction attempts as [|a rest IH]; intros w; cbn [Translator.single_loop].
  - exists text, w. split; [reflexivity | apply quiet_refl].
  - unfold bind.
    destruct (outcome_cases (prov w) text) as [E | [r E]].
    + rewrite (single_attempt_raised text a w E).
      destruct (last_attempt a).
      * do 2 eexists. split; [reflexivity | apply quiet_after_raise].
      * destruct (IH (after_raise a text w)) as (r & w' & -> & Hq).
        exists r, w'. split; [reflexivity|].
        eapply quiet_trans; [apply quiet_after_raise | exact Hq].
    + rewrite (single_attempt_returned text r a w E).
      do 2 eexists. split; [reflexivity | apply quiet_after_return].
Qed.

Lemma chunk_attempts_ok (chunk : str) (tc : list str) (attempts : list nat) :
  forall w : world,
  exists l w', chunk_attempts chunk tc attempts w = (Ok l, w') /\ quiet w w'.
Proof.
  induction attempts as [|a rest IH]; intros w; cbn [Translator.chunk_attempts].
  - exists tc, w. split; [reflexivity | apply quiet_refl].
  - unfold bind.
    destruct (outcome_cases (prov w) chunk) as [E | [r E]].
    + rewrite (chunk_attempt_raised chunk tc a w E).
      destruct (last_attempt a).
      * do 2 eexists. split; [reflexivity | apply quiet_after_raise].
      * destruct (IH (after_raise a chunk w)) as (l & w' & -> & Hq).
        exists l, w'. split; [reflexivity|].
        eapply quiet_trans; [apply quiet_after_raise | exact Hq].
    + rewrite (chunk_attempt_returned chunk r tc a w E).
      do 2 eexists. split; [reflexivity | apply quiet_after_return].
Qed.

Lemma chunks_loop_ok (chunks : list str) : forall (tc : list str) (w : world),
  exists l w', chunks_loop chunks tc w = (Ok l, w') /\ quiet w w'.
Proof.
  induction chunks as [|c rest IH]; intros tc w; cbn [Translator.chunks_loop].
  - exists tc, w. split; [reflexivity | apply quiet_refl].
  - unfold bind.
    destruct (chunk_attempts_ok c tc (seq 0 config.MAX_RETRIES) w)
      as (l & w1 & -> & Hq1).
    destruct (IH l w1) as (l' & w' & -> & Hq2).
    exists l', w'. split; [reflexivity | eapply quiet_trans; eassumption].
Qed.

Lemma chunk_text_default_fuel (text : str) :
  exists chunks,
    chunk_text (S (length text)) text config.MAX_CHUNK_SIZE = Some chunks.
Proof.
  destruct (chunk_text_spec config.MAX_CHUNK_SIZE eq_refl text)
    as (chunks & _ & _ & H).
  exists chunks. apply H. lia.
Qed.

Lemma translate_ok (text : str) (w : world) :
  exists r w', translate text w = (Ok r, w') /\ quiet w w'.
Proof.
  unfold Translator.translate.
  destruct (negb (truthy text) || negb (truthy (strip text))).
  - exists text, w. split; [reflexivity | apply quiet_refl].
  - destruct (chunk_text_default_fuel text) as (chunks & ->).
    destruct (length chunks =? 1)%nat.
    + apply single_loop_ok.
    + unfold Translator._translate_chunks, bind.
      destruct (chunks_loop_ok chunks [] w) as (l & w' & -> & Hq).
      do 2 eexists. split; [reflexivity | exact Hq].
Qed.

Lemma calls_after_raise (attempt : nat) (text : str) (w : world) :
  calls (trace (after_raise attempt text w)) = S (calls (trace w)).
Proof.
  unfold Vocab.after_raise. simpl. rewrite calls_app. simpl.
  destruct (last_attempt attempt); simpl; lia.
Qed.

Lemma calls_after_return (d : config.delay) (text : str) (w : world) :
  calls (trace (after_return d text w)) = S (calls (trace w)).
Proof.
  unfold Vocab.after_return. simpl. rewrite calls_app. simpl. lia.
Qed.

Lemma last_attempt_spec (attempt : nat) :
  last_attempt attempt = true <-> (config.MAX_RETRIES <= S attempt)%nat.
Proof.
  unfold last_attempt. rewrite negb_true_iff, Z.ltb_ge. lia.
Qed.

Lemma last_attempt_false (attempt : nat) :
  (S attempt < config.MAX_RETRIES)%nat -> last_attempt attempt = false.
Proof.
  intros H. destruct (last_attempt attempt) eqn:E; [|reflexivity].
  apply last_attempt_spec in E. lia.
Qed.

(** The attempts [a, a+1, ...] up to [MAX_RETRIES - 1], of which the
    first [k] raise and the next one returns [r]. *)
Lemma single_loop_converges (text r : str) : forall (k a n : nat) (w : world),
  (k < n)%nat -> (a + n = config.MAX_RETRIES)%nat ->
  (forall i, (i < k)%nat -> raises_at i (prov w) text) ->
  returns_at k (prov w) text r ->
  exists w',
    single_loop text (seq a n) w = (Ok r, w') /\
    calls (trace w') = (calls (trace w) + k + 1)%nat /\
    prov w' = after_calls (S k) (prov w) text.
Proof.
  induction k as [|k IH]; intros a n w Hk Han Hr Hs;
    (destruct n as [|n]; [lia|]); cbn [seq Translator.single_loop]; unfold bind.
  - rewrite (single_attempt_returned text r a w Hs).
    eexists. split; [reflexivity|]. split.
    + rewrite calls_after_return. lia.
    + reflexivity.
  - rewrite (single_attempt_raised text a w (Hr 0%nat ltac:(lia))).
    rewrite last_attempt_false by lia.
    destruct (IH (S a) n (after_raise a text w)) as (w' & E & Hc & Hp);
      try lia.
    + intros i Hi. apply (Hr (S i)). lia.
    + exact Hs.
    + exists w'. split; [exact E|]. split.
      * rewrite Hc, calls_after_raise. lia.
      * exact Hp.
Qed.

(** The attempts [a, ...] up to [MAX_RETRIES - 1], all of which raise. *)
Lemma single_loop_exhausted (text : str) : forall (n a : nat) (w : world),
  (a + n = config.MAX_RETRIES)%nat ->
  (forall i, (i < n)%nat -> raises_at i (prov w) text) ->
  exists w',
    single_loop text (seq a n) w = (Ok text, w') /\
    calls (trace w') = (calls (trace w) + n)%nat.
Proof.
  induction n as [|n IH]; intros a w Han Hr; cbn [seq Translator.single_loop].
  - exists w. split; [reflexivity | lia].
  - unfold bind.
    rewrite (single_attempt_raised text a w (Hr 0%nat ltac:(lia))).
    destruct (last_attempt a) eqn:El.
    + apply last_attempt_spec in El.
      eexists. split; [reflexivity|]. rewrite calls_after_raise. lia.
    + destruct (IH (S a) (after_raise a text w)) as (w' & E & Hc); try lia.
      * intros i Hi. apply (Hr (S i)). lia.
      * exists w'. split; [exact E|]. rewrite Hc, calls_after_raise. lia.
Qed.

(** A non-blank text that fits one chunk goes to [_translate_single]. *)
Lemma translate_single_chunk (text : str) (w : world) :
  len text <= config.MAX_CHUNK_SIZE ->
  translate text w
  = if negb (truthy text) || negb (truthy (strip text)) then (Ok text, w)
    else _translate_single text w.
Proof.
  intros Hle. unfold Translator.translate, chunk_text.
  destruct (negb (truthy text) || negb (truthy (strip text))); [reflexivity|].
  destruct (Z.leb_spec (len text) config.MAX_CHUNK_SIZE); [reflexivity | lia].
Qed.

(** C5. If the provider raises on the first [k] calls for [text], with
    [k < MAX_RETRIES], and returns [r] on the next one, then
    [_translate_single] returns [r] and makes exactly [k + 1] provider
    calls. *)
Theorem translate_single_retry_converges (text r : str) (k : nat) (w : world) :
  (k < config.MAX_RETRIES)%nat ->
  (forall i, (i < k)%nat -> raises_at i (prov w) text) ->
  returns_at k (prov w) text r ->
  exists w',
    _translate_single text w = (Ok r, w') /\
    calls (trace w') = (calls (trace w) + (k + 1))%nat.
Proof.
  intros Hk Hr Hs.
  destruct (single_loop_converges text r k 0 config.MAX_RETRIES w)
    as (w' & E & Hc & _); auto.
  exists w'. split; [exact E | lia].
Qed.

(** C4. [translate] never raises, whatever the text and the provider: it
    ends with a plain result.  When every one of the [MAX_RETRIES]
    attempts for a unit raises, [_translate_single] returns the unit's text
    itself after exactly [MAX_RETRIES] calls, and so does [translate] on a
    text that fits one chunk. *)
Theorem translate_never_raises :
  (forall (text : str) (w : world),
      exists r w', translate text w = (Ok r, w')) /\
  (forall (text : str) (w : world),
      (forall i, (i < config.MAX_RETRIES)%nat -> raises_at i (prov w) text) ->
      (exists w',
          _translate_single text w = (Ok text, w') /\
          calls (trace w') = (calls (trace w) + config.MAX_RETRIES)%nat) /\
      (len text <= config.MAX_CHUNK_SIZE ->
       exists w', translate text w = (Ok text, w'))).
Proof.
  split.
  - intros text w. destruct (translate_ok text w) as (r & w' & E & _).
    exists r, w'. exact E.
  - intros text w Hr.
    destruct (single_loop_exhausted text config.MAX_RETRIES 0 w eq_refl Hr)
      as (w' & E & Hc).
    split; [exists w'; split; assumption|].
    intros Hle. rewrite translate_single_chunk by exact Hle.
    destruct (negb (truthy text) || negb (truthy (strip text)));
      [exists w; reflexivity | exists w'; exact E].
Qed.

End TranslatorFacts.

Lemma translate_single_retry_converges_witness :
  exists w',
    _translate_single nat (flaky 2 [72; 105]%N) [1605; 1585]%N (world0 0%nat)
    = (Ok [72; 105]%N, w') /\
    calls (trace w') = (calls (trace (world0 0%nat)) + (2 + 1))%nat.
Proof.
  apply (translate_single_retry_converges nat (flaky 2 [72; 105]%N)
           [1605; 1585]%N [72; 105]%N 2 (world0 0%nat)).
  - unfold config.MAX_RETRIES. lia.
  - intros i Hi. unfold raises_at.
    destruct i as [|[|i]]; [reflexivity | reflexivity | lia].
  - reflexivity.
Defined.

Lemma translate_never_raises_witness :
  (exists w',
      _translate_single unit down [1605; 1585]%N (world0 tt)
      = (Ok [1605; 1585]%N, w') /\
      calls (trace w') = (calls (trace (world0 tt)) + config.MAX_RETRIES)%nat) /\
  (len [1605; 1585]%N <= config.MAX_CHUNK_SIZE ->
   exists w', translate unit down [1605; 1585]%N (world0 tt)
              = (Ok [1605; 1585]%N, w')).
Proof.
  apply (proj2 (translate_never_raises unit down) [1605; 1585]%N (world0 tt)).
  intros i _. unfold raises_at. reflexivity.
Defined.

(** ** Dictionaries *)

Lemma dict_get_set_same (k : str) (v : json) (d : dict) :
  dict_get k (dict_set k v d) = Some v.
Proof.
  induction d as [|[k' x] d IH]; simpl.
  - now rewrite str_eqb_refl.
  - destruct (str_eqb k' k) eqn:E; simpl; rewrite E; [reflexivity | exact IH].
Qed.

Lemma dict_get_set_other (k k' : str) (v : json) (d : dict) :
  k <> k' -> dict_get k (dict_set k' v d) = dict_get k d.
Proof.
  intros Hne. induction d as [|[k0 x] d IH]; simpl.
  - destruct (str_eqb k' k) eqn:E; [apply str_eqb_eq in E; congruence | reflexivity].
  - destruct (str_eqb k0 k') eqn:E; simpl.
    + apply str_eqb_eq in E. subst k0.
      destruct (str_eqb k' k) eqn:E'; [apply str_eqb_eq in E'; congruence | reflexivity].
    + destruct (str_eqb k0 k); [reflexivity | exact IH].
Qed.

Lemma dict_set_absent (k : str) (v : json) (d : dict) :
  dict_get k d = None -> dict_set k v d = d ++ [(k, v)].
Proof.
  induction d as [|[k0 x] d IH]; simpl; [reflexivity|].
  destruct (str_eqb k0 k); [discriminate|]. intros H. now rewrite IH.
Qed.

Lemma dict_get_app (k : str) (d e : dict) :
  dict_get k (d ++ e)
  = match dict_get k d with Some v => Some v | None => dict_get k e end.
Proof.
  induction d as [|[k0 x] d IH]; simpl; [reflexivity|].
  destruct (str_eqb k0 k); [reflexivity | exact IH].
Qed.

Lemma dict_mem_false (k : str) (d : dict) :
  dict_mem k d = false <-> dict_get k d = None.
Proof. unfold dict_mem. destruct (dict_get k d); split; congruence. Qed.

Lemma dict_mem_true (k : str) (d : dict) :
  dict_mem k d = true <-> exists v, dict_get k d = Some v.
Proof.
  unfold dict_mem. destruct (dict_get k d); split; try congruence; eauto.
  intros [v H]; discriminate.
Qed.

Lemma dict_get_In (k : str) (v : json) (d : dict) :
  dict_get k d = Some v -> In (k, v) d.
Proof.
  induction d as [|[k0 x] d IH]; simpl; [discriminate|].
  destruct (str_eqb k0 k) eqn:E.
  - apply str_eqb_eq in E. intros H; inversion H; subst. now left.
  - intros H. right. auto.
Qed.

Lemma dict_get_not_key (k : str) (d : dict) :
  ~ In k (keys d) -> dict_get k d = None.
Proof.
  induction d as [|[k0 x] d IH]; simpl; [reflexivity|].
  intros H. destruct (str_eqb k0 k) eqn:E.
  - apply str_eqb_eq in E. tauto.
  - apply IH. tauto.
Qed.

Lemma In_dict_get (k : str) (v : json) (d : dict) :
  wf_dict d -> In (k, v) d -> dict_get k d = Some v.
Proof.
  unfold wf_dict. induction d as [|[k0 x] d IH]; simpl; [tauto|].
  intros Hnd [H | H]; inversion Hnd as [|? ? Hnotin Hnd']; subst.
  - inversion H; subst. now rewrite str_eqb_refl.
  - destruct (str_eqb k0 k) eqn:E; [|auto].
    apply str_eqb_eq in E. subst k0. exfalso. apply Hnotin.
    change k with (fst (k, v)). now apply in_map.
Qed.

Lemma endswith_suffix (k : str) :
  endswith (k ++ config.TRANSLATION_SUFFIX) config.TRANSLATION_SUFFIX = true.
Proof. unfold endswith. rewrite rev_app_distr. apply startswith_app. Qed.

Lemma suffix_inj (k k' : str) :
  k ++ config.TRANSLATION_SUFFIX = k' ++ config.TRANSLATION_SUFFIX -> k = k'.
Proof. apply app_inv_tail. Qed.

(** ** JSONTranslator: one record *)

Lemma is_source_iff (key v : str) :
  is_source key (JStr v) = true <-> source_field key v.
Proof.
  unfold is_source, source_field.
  rewrite andb_true_iff, negb_true_iff. tauto.
Qed.

Lemma is_source_str (key : str) (value : json) :
  is_source key value = true -> exists v, value = JStr v /\ source_field key v.
Proof.
  intros H. destruct value;
    try (unfold is_source in H; rewrite andb_false_r in H; discriminate).
  eexists; split; [reflexivity | now apply is_source_iff].
Qed.

Section RecordFacts.

Variable PState : Type.
Variable provider : PState -> str -> PState * outcome.

Local Abbreviation world := (world PState).
Local Abbreviation translate := (translate PState provider).
Local Abbreviation item_state := (item_state PState).
Local Abbreviation process_field := (process_field PState provider).
Local Abbreviation _process_item := (_process_item PState provider).
Local Abbreviation fields_loop :=
  (fun l : dict => for_each l (fun kv => process_field (fst kv) (snd kv))).

Lemma process_field_not_source (key : str) (value : json) (st : item_state) :
  is_source key value = false -> process_field key value st = (Ok tt, st).
Proof.
  unfold JSONTranslator.process_field, is_source.
  destruct (endswith key config.TRANSLATION_SUFFIX); simpl; [reflexivity|].
  destruct value; try reflexivity.
  destruct (truthy (strip s)); [discriminate | reflexivity].
Qed.

Lemma process_field_present (key v : str) (st : item_state) :
  source_field key v ->
  dict_mem (en key) (st_item PState st) = true ->
  process_field key (JStr v) st
  = (Ok tt, mkItemState PState (st_item PState st)
                        (incr_skipped (st_stats PState st))
                        (st_world PState st)).
Proof.
  intros [H1 H2] Hm. unfold JSONTranslator.process_field.
  rewrite H1, H2. simpl. unfold bind, get. fold (en key). rewrite Hm.
  reflexivity.
Qed.

Lemma process_field_absent (key v t : str) (st : item_state) (w' : world) :
  source_field key v ->
  dict_mem (en key) (st_item PState st) = false ->
  translate v (st_world PState st) = (Ok t, w') ->
  process_field key (JStr v) st
  = (Ok tt, mkItemState PState (dict_set (en key) (JStr t) (st_item PState st))
                        ((if negb (str_eqb t v) then incr_translated
                          else incr_failed) (st_stats PState st))
                        w').
Proof.
  intros [H1 H2] Hm Ht. unfold JSONTranslator.process_field.
  rewrite H1, H2. simpl. unfold bind at 1. unfold get. fold (en key).
  rewrite Hm. unfold bind, with_world, lift, set_item, modify, upd_stats.
  rewrite Ht. simpl. destruct (negb (str_eqb t v)); reflexivity.
Qed.

(** What the loop over a list of fields does to the record: it appends
    derived fields of source fields, and leaves every source field of the
    list with its derived key present. *)
Lemma fields_loop_spec : forall (l : dict) (st : item_state),
  exists (added : dict) (st' : item_state),
    fields_loop l st = (Ok tt, st') /\
    st_item PState st' = st_item PState st ++ added /\
    quiet (st_world PState st) (st_world PState st') /\
    Forall (fun kv =>
              exists key v t,
                In (key, JStr v) l /\ source_field key v /\
                kv = (en key, JStr t) /\
                dict_mem (en key) (st_item PState st) = false) added /\
    (forall key v, In (key, JStr v) l -> source_field key v ->
                   dict_mem (en key) (st_item PState st') = true).
Proof.
  induction l as [|[key value] l IH]; intros st.
  - exists [], st. simpl. rewrite app_nil_r.
    split; [reflexivity|]. split; [reflexivity|].
    split; [apply quiet_refl|]. split; [constructor|]. intros ? ? [].
  - cbn [for_each fst snd]. unfold bind.
    destruct (is_source key value) eqn:Es.
    + apply is_source_str in Es. destruct Es as (v & -> & Hsrc).
      destruct (dict_mem (en key) (st_item PState st)) eqn:Em.
      * rewrite (process_field_present key v st Hsrc Em).
        destruct (IH (mkItemState PState (st_item PState st)
                        (incr_skipped (st_stats PState st))
                        (st_world PState st)))
          as (added & st' & E & Hi & Hq & Hall & Hpres).
        exists added, st'. simpl in Hi, Hq, Hall.
        split; [exact E|]. split; [exact Hi|]. split; [exact Hq|]. split.
        -- eapply Forall_impl; [|exact Hall].
           intros kv (k0 & v0 & t0 & Hin & Hs & Hk & Hm).
           exists k0, v0, t0. simpl. auto.
        -- intros k0 v0 [Heq | Hin] Hs; [|eauto].
           inversion Heq; subst. rewrite Hi.
           apply dict_mem_true. apply dict_mem_true in Em.
           destruct Em as [x Hx]. exists x. rewrite dict_get_app, Hx. reflexivity.
      * destruct (translate_ok PState provider v (st_world PState st))
          as (t & w' & Et & Hqt).
        rewrite (process_field_absent key v t st w' Hsrc Em Et).
        match goal with
        | |- context [for_each l _ ?s] =>
            destruct (IH s) as (added & st' & E & Hi & Hq & Hall & Hpres)
        end.
        simpl in Hi, Hq, Hall.
        rewrite dict_set_absent in Hi, Hall by (now apply dict_mem_false).
        rewrite <- app_assoc in Hi. simpl in Hi.
        exists ((en key, JStr t) :: added), st'.
        split; [exact E|]. split; [exact Hi|].
        split; [apply (quiet_trans _ _ _ Hqt Hq)|]. split.
        -- constructor.
           ++ exists key, v, t. simpl. auto.
           ++ eapply Forall_impl; [|exact Hall].
              intros kv (k0 & v0 & t0 & Hin & Hs & Hk & Hm).
              exists k0, v0, t0. simpl.
              split; [auto|]. split; [exact Hs|]. split; [exact Hk|].
              apply dict_mem_false. apply dict_mem_false in Hm.
              rewrite dict_get_app in Hm.
              destruct (dict_get (en k0) (st_item PState st)); congruence.
        -- intros k0 v0 [Heq | Hin] Hs; [|eauto].
           inversion Heq; subst. rewrite Hi.
           apply dict_mem_true. exists (JStr t).
           rewrite dict_get_app.
           apply dict_mem_false in Em. rewrite Em. simpl.
           now rewrite str_eqb_refl.
    + rewrite (process_field_not_source key value st Es).
      destruct (IH st) as (added & st' & E & Hi & Hq & Hall & Hpres).
      exists added, st'.
      split; [exact E|]. split; [exact Hi|]. split; [exact Hq|]. split.
      * eapply Forall_impl; [|exact Hall].
        intros kv (k0 & v0 & t0 & Hin & Hs & Hk & Hm).
        exists k0, v0, t0. simpl. auto.
      * intros k0 v0 [Heq | Hin] Hs; [|eauto].
        inversion Heq; subst. apply is_source_iff in Hs. congruence.
Qed.

Lemma process_item_unfold (d : dict) (stats : TranslationStats) (w : world) :
  _process_item (mkItemState PState d stats w)
  = fields_loop d (mkItemState PState d stats w).
Proof. reflexivity. Qed.

(** C10. For every record and every provider, [_process_item] ends
    normally and leaves the record as it was with new fields appended:
    no key is deleted, no key already present changes its value, and each
    new key is [key + suffix] for a source field [key] of the record whose
    derived key was absent. *)
Theorem process_item_only_adds (d : dict) (stats : TranslationStats)
        (w : world) :
  exists (added : dict) (st' : item_state),
    _process_item (mkItemState PState d stats w) = (Ok tt, st') /\
    st_item PState st' = d ++ added /\
    (forall k v, dict_get k d = Some v ->
                 dict_get k (st_item PState st') = Some v) /\
    Forall (fun kv =>
              exists key v t,
                In (key, JStr v) d /\ source_field key v /\
                kv = (key ++ config.TRANSLATION_SUFFIX, JStr t) /\
                dict_mem (key ++ config.TRANSLATION_SUFFIX) d = false) added.
Proof.
  rewrite process_item_unfold.
  destruct (fields_loop_spec d (mkItemState PState d stats w))
    as (added & st' & E & Hi & _ & Hall & _).
  simpl in Hi, Hall.
  exists added, st'. split; [exact E|]. split; [exact Hi|]. split.
  - intros k v Hk. rewrite Hi, dict_get_app, Hk. reflexivity.
  - exact Hall.
Qed.

Lemma add_skipped_incr (n : Z) (s : TranslationStats) :
  add_skipped n (incr_skipped s) = add_skipped (n + 1) s.
Proof. unfold add_skipped, incr_skipped. simpl. f_equal. lia. Qed.

Lemma add_skipped_zero (s : TranslationStats) : add_skipped 0 s = s.
Proof. destruct s. unfold add_skipped. simpl. f_equal. lia. Qed.

Lemma count_fields_cons (p : str -> json -> bool) (kv : str * json) (d : dict) :
  count_fields p (kv :: d)
  = count_fields p d + (if p (fst kv) (snd kv) then 1 else 0).
Proof.
  unfold count_fields. simpl. destruct (p (fst kv) (snd kv)); simpl length; lia.
Qed.

(** When every source field of the list has its derived key in the
    record, the loop only counts. *)
Lemma fields_loop_all_present : forall (l : dict) (st : item_state),
  (forall key v, In (key, JStr v) l -> source_field key v ->
                 dict_mem (en key) (st_item PState st) = true) ->
  fields_loop l st
  = (Ok tt, mkItemState PState (st_item PState st)
                        (add_skipped (count_fields is_source l)
                                     (st_stats PState st))
                        (st_world PState st)).
Proof.
  induction l as [|[key value] l IH]; intros st Hall.
  - simpl. unfold ret. rewrite add_skipped_zero. now destruct st.
  - cbn [for_each fst snd]. unfold bind. rewrite count_fields_cons. simpl fst.
    simpl snd. destruct (is_source key value) eqn:Es.
    + destruct (is_source_str _ _ Es) as (v & -> & Hsrc).
      rewrite (process_field_present key v st Hsrc)
        by (apply (Hall key v); [now left | exact Hsrc]).
      rewrite IH by (intros k0 v0 Hin Hs; simpl; apply (Hall k0 v0); [now right | exact Hs]).
      simpl. now rewrite add_skipped_incr.
    + rewrite (process_field_not_source key value st Es).
      rewrite IH by (intros k0 v0 Hin Hs; apply (Hall k0 v0); [now right | exact Hs]).
      now rewrite Z.add_0_r.
Qed.


End RecordFacts.



(** ** The echoing provider *)

Lemma len_join_space (l : list str) :
  l <> [] ->
  len (join [32%N] l) = len (concat l) + Z.of_nat (length l) - 1.
Proof.
  unfold len. induction l as [|p [|q rest] IH]; intros Hne; [congruence| |].
  - simpl. rewrite app_nil_r. lia.
  - specialize (IH ltac:(discriminate)).
    change (join [32%N] (p :: q :: rest))
      with (p ++ [32%N] ++ join [32%N] (q :: rest)).
    change (concat (p :: q :: rest)) with (p ++ concat (q :: rest)).
    rewrite !length_app. cbn [length] in *. unfold str, char in *. lia.
Qed.

Section EchoFacts.

Variable PState : Type.
Variable provider : PState -> str -> PState * outcome.
Hypothesis provider_echoes : echoes PState provider.

Local Abbreviation world := (world PState).
Local Abbreviation translate := (translate PState provider).
Local Abbreviation item_state := (item_state PState).
Local Abbreviation process_field := (process_field PState provider).
Local Abbreviation _process_item := (_process_item PState provider).
Local Abbreviation fields_loop :=
  (fun l : dict => for_each l (fun kv => process_field (fst kv) (snd kv))).

Lemma translate_echo_single (v : str) (w : world) :
  len v <= config.MAX_CHUNK_SIZE ->
  exists w', translate v w = (Ok v, w').
Proof.
  intros Hle. rewrite translate_single_chunk by exact Hle.
  destruct (negb (truthy v) || negb (truthy (strip v))); [eauto|].
  destruct (single_loop_converges PState provider v v 0 0 config.MAX_RETRIES w)
    as (w' & E & _); try (unfold config.MAX_RETRIES; lia).
  - apply provider_echoes.
  - exists w'. exact E.
Qed.

Lemma chunk_attempts_first_returns (c r : str) (tc : list str) (a : nat)
      (rest : list nat) (w : world) :
  snd (provider (prov w) c) = Returned r ->
  chunk_attempts PState provider c tc (a :: rest) w
  = (Ok (tc ++ [r]), after_return PState provider config.CHUNK_DELAY c w).
Proof.
  intros H. cbn [chunk_attempts]. unfold bind.
  now rewrite (chunk_attempt_returned PState provider c r tc a w H).
Qed.

Lemma chunks_loop_echo (chunks : list str) : forall (tc : list str) (w : world),
  exists w', chunks_loop PState provider chunks tc w = (Ok (tc ++ chunks), w').
Proof.
  induction chunks as [|c rest IH]; intros tc w; cbn [chunks_loop].
  - exists w. now rewrite app_nil_r.
  - unfold bind. change (seq 0 config.MAX_RETRIES) with (0%nat :: seq 1 4).
    rewrite (chunk_attempts_first_returns c c tc 0 (seq 1 4) w
               (provider_echoes _ _)).
    destruct (IH (tc ++ [c]) (after_return PState provider config.CHUNK_DELAY c w))
      as (w' & ->).
    exists w'. now rewrite <- app_assoc.
Qed.

Lemma translate_echo_chunks (v : str) (w : world) :
  config.MAX_CHUNK_SIZE < len v -> truthy (strip v) = true ->
  exists chunks w',
    chunk_text (S (length v)) v config.MAX_CHUNK_SIZE = Some chunks /\
    (2 <= length chunks)%nat /\
    translate v w = (Ok (join [32%N] chunks), w') /\
    len (join [32%N] chunks) = len v + Z.of_nat (length chunks) - 1.
Proof.
  intros Hgt Hs.
  destruct (chunk_text_spec config.MAX_CHUNK_SIZE eq_refl v)
    as (chunks & Hcat & Hall & Hrun).
  specialize (Hrun (S (length v)) ltac:(lia)).
  assert (Hlen : (2 <= length chunks)%nat).
  { destruct chunks as [|c [|c' rest]]; [| |simpl; lia].
    - simpl in Hcat. subst v. unfold len in Hgt. simpl in Hgt.
      unfold config.MAX_CHUNK_SIZE in Hgt. lia.
    - simpl in Hcat. rewrite app_nil_r in Hcat. subst c.
      inversion Hall; subst. lia. }
  destruct (chunks_loop_echo chunks [] w) as (w' & E).
  exists chunks, w'. split; [exact Hrun|]. split; [exact Hlen|]. split.
  - unfold Translator.translate. rewrite Hs.
    assert (Ht : truthy v = true).
    { destruct v; [|reflexivity]. unfold len in Hgt. simpl in Hgt.
      unfold config.MAX_CHUNK_SIZE in Hgt. lia. }
    rewrite Ht, Hrun.
    destruct (Nat.eqb_spec (length chunks) 1); [lia|].
    unfold _translate_chunks, bind. simpl. rewrite E. reflexivity.
  - rewrite len_join_space by (destruct chunks; [simpl in Hlen; lia | discriminate]).
    now rewrite Hcat.
Qed.

Lemma translate_echo (v : str) (w : world) :
  truthy (strip v) = true ->
  exists w', translate v w = (Ok (echo_result v), w').
Proof.
  intros Hs. unfold echo_result.
  destruct (Z.leb_spec (len v) config.MAX_CHUNK_SIZE) as [Hle | Hgt].
  - now apply translate_echo_single.
  - destruct (translate_echo_chunks v w Hgt Hs) as (chunks & w' & -> & _ & E & _).
    exists w'. exact E.
Qed.

Lemma echo_result_eqb (v : str) :
  str_eqb (echo_result v) v = (len v <=? config.MAX_CHUNK_SIZE).
Proof.
  unfold echo_result.
  destruct (Z.leb_spec (len v) config.MAX_CHUNK_SIZE) as [Hle | Hgt];
    [apply str_eqb_refl|].
  destruct (chunk_text_spec config.MAX_CHUNK_SIZE eq_refl v)
    as (chunks & Hcat & Hall & Hrun).
  rewrite (Hrun (S (length v)) ltac:(lia)).
  apply str_eqb_neq. intros Heq. apply (f_equal len) in Heq.
  destruct chunks as [|c [|c' rest]].
  - simpl in Hcat. subst v. unfold len in Hgt. simpl in Hgt.
    unfold config.MAX_CHUNK_SIZE in Hgt. lia.
  - simpl in Hcat. rewrite app_nil_r in Hcat. subst c.
    inversion Hall; subst. lia.
  - rewrite len_join_space in Heq by discriminate.
    rewrite Hcat in Heq. cbn [length] in Heq. lia.
Qed.

Lemma count_untranslated_ext (q : json -> bool) (item item' l : dict) :
  (forall k x, In (k, x) l -> dict_mem (en k) item' = dict_mem (en k) item) ->
  count_fields (fun k x => is_untranslated item' k x && q x) l
  = count_fields (fun k x => is_untranslated item k x && q x) l.
Proof.
  intros H. unfold count_fields. do 2 f_equal.
  apply filter_ext_in. intros [k x] Hin. unfold is_untranslated. simpl.
  fold (en k). now rewrite (H k x Hin).
Qed.

(** The loop over a list of fields with an echoing provider: a field it
    translates is counted as failed when its value fits one chunk and as
    translated otherwise, and its derived value is [echo_result] of its
    value. *)
Lemma fields_loop_echo : forall (l : dict) (st : item_state),
  NoDup (keys l) ->
  exists st',
    fields_loop l st = (Ok tt, st') /\
    translated_fields (st_stats PState st')
    = translated_fields (st_stats PState st)
      + count_fields (is_untranslated_long (st_item PState st)) l /\
    failed_fields (st_stats PState st')
    = failed_fields (st_stats PState st)
      + count_fields (is_untranslated_short (st_item PState st)) l /\
    (forall key v, In (key, JStr v) l -> source_field key v ->
                   dict_mem (en key) (st_item PState st) = false ->
                   dict_get (en key) (st_item PState st')
                   = Some (JStr (echo_result v))) /\
    (forall k x, dict_get k (st_item PState st) = Some x ->
                 dict_get k (st_item PState st') = Some x).
Proof.
  induction l as [|[key value] l IH]; intros st Hnd.
  - exists st. simpl. unfold count_fields. simpl.
    split; [reflexivity|]. split; [lia|]. split; [lia|].
    split; [intros ? ? [] | auto].
  - inversion Hnd as [|? ? Hnotin Hnd']; subst.
    assert (Hother : forall k0 x, In (k0, x) l -> en k0 <> en key).
    { intros k0 x Hin Heq. apply suffix_inj in Heq. subst k0.
      apply Hnotin. change key with (fst (key, x)). now apply in_map. }
    cbn [for_each fst snd]. unfold bind. rewrite !count_fields_cons.
    unfold is_untranslated_long at 2, is_untranslated_short at 2,
      is_untranslated. cbn [fst snd]. fold (en key).
    destruct (is_source key value) eqn:Es.
    + destruct (is_source_str _ _ Es) as (v & -> & Hsrc).
      destruct (dict_mem (en key) (st_item PState st)) eqn:Em.
      * rewrite (process_field_present PState provider key v st Hsrc Em).
        destruct (IH (mkItemState PState (st_item PState st)
                        (incr_skipped (st_stats PState st))
                        (st_world PState st)) Hnd')
          as (st' & E & Ht & Hf & Hd & Hmono).
        simpl in Ht, Hf, Hd, Hmono.
        exists st'. split; [exact E|]. split; [simpl; lia|].
        split; [simpl; lia|]. split; [|exact Hmono].
        intros k0 v0 [Heq | Hin] Hs Hm; [|eauto].
        inversion Heq; subst. congruence.
      * destruct (translate_echo v (st_world PState st) (proj2 Hsrc))
          as (w' & Et).
        rewrite (process_field_absent PState provider key v (echo_result v)
                   st w' Hsrc Em Et).
        rewrite echo_result_eqb.
        match goal with
        | |- context [for_each l _ ?s] =>
            destruct (IH s Hnd') as (st' & E & Ht & Hf & Hd & Hmono)
        end.
        simpl in Ht, Hf, Hd, Hmono.
        assert (Hmem : forall k0 x, In (k0, x) l ->
                  dict_mem (en k0)
                    (dict_set (en key) (JStr (echo_result v)) (st_item PState st))
                  = dict_mem (en k0) (st_item PState st)).
        { intros k0 x Hin. unfold dict_mem.
          rewrite dict_get_set_other by (apply (Hother k0 x Hin)).
          reflexivity. }
        unfold is_untranslated_long in Ht. unfold is_untranslated_short in Hf.
        rewrite (count_untranslated_ext _ (st_item PState st) _ l Hmem) in Ht.
        rewrite (count_untranslated_ext _ (st_item PState st) _ l Hmem) in Hf.
        fold (is_untranslated_long (st_item PState st)) in Ht.
        fold (is_untranslated_short (st_item PState st)) in Hf.
        exists st'. split; [exact E|]. cbn [fits_one_chunk negb andb].
        split; [|split; [|split]].
        -- rewrite Ht.
           destruct (len v <=? config.MAX_CHUNK_SIZE); simpl; lia.
        -- rewrite Hf.
           destruct (len v <=? config.MAX_CHUNK_SIZE); simpl; lia.
        -- intros k0 v0 [Heq | Hin] Hs Hm.
           ++ inversion Heq; subst. apply Hmono. apply dict_get_set_same.
           ++ apply (Hd k0 v0 Hin Hs). rewrite (Hmem k0 _ Hin). exact Hm.
        -- intros k x Hk. apply Hmono.
           rewrite dict_get_set_other; [exact Hk|].
           intros ->. apply dict_mem_false in Em. congruence.
    + rewrite (process_field_not_source PState provider key value st Es).
      destruct (IH st Hnd') as (st' & E & Ht & Hf & Hd & Hmono).
      exists st'. split; [exact E|]. split; [simpl; lia|].
      split; [simpl; lia|]. split; [|exact Hmono].
      intros k0 v0 [Heq | Hin] Hs Hm; [|eauto].
      inversion Heq; subst. apply is_source_iff in Hs. congruence.
Qed.

(** C3, amended. With a provider that always returns its input unchanged,
    the translation pass gives every field it translates the derived value
    [echo_result] of the source value.  For a value that fits one chunk (at
    most [MAX_CHUNK_SIZE] characters) this is the source value itself, and
    the field is counted as failed, not as translated.  For a longer
    (non-blank) value it is the chunks joined by single spaces, longer than
    the source by the number of chunks minus one, and the field is counted
    as translated. *)
Theorem echo_provider_failure_signature :
  (forall (d : dict) (stats : TranslationStats) (w : world),
      wf_dict d ->
      exists st',
        _process_item (mkItemState PState d stats w) = (Ok tt, st') /\
        (forall key v,
            In (key, JStr v) d -> source_field key v ->
            dict_mem (key ++ config.TRANSLATION_SUFFIX) d = false ->
            dict_get (key ++ config.TRANSLATION_SUFFIX) (st_item PState st')
            = Some (JStr (echo_result v))) /\
        translated_fields (st_stats PState st')
        = translated_fields stats + count_fields (is_untranslated_long d) d /\
        failed_fields (st_stats PState st')
        = failed_fields stats + count_fields (is_untranslated_short d) d) /\
  (forall v : str, len v <= config.MAX_CHUNK_SIZE -> echo_result v = v) /\
  (forall v : str,
      config.MAX_CHUNK_SIZE < len v ->
      exists chunks,
        chunk_text (S (length v)) v config.MAX_CHUNK_SIZE = Some chunks /\
        (2 <= length chunks)%nat /\
        echo_result v = join [32%N] chunks /\
        len (echo_result v) = len v + Z.of_nat (length chunks) - 1).
Proof.
  split; [|split].
  - intros d stats w Hwf.
    destruct (fields_loop_echo d (mkItemState PState d stats w) Hwf)
      as (st' & E & Ht & Hf & Hd & _).
    exists st'. split; [exact E|]. split; [exact Hd|]. split; assumption.
  - intros v Hle. unfold echo_result.
    destruct (Z.leb_spec (len v) config.MAX_CHUNK_SIZE); [reflexivity | lia].
  - intros v Hgt. unfold echo_result.
    destruct (Z.leb_spec (len v) config.MAX_CHUNK_SIZE); [lia|].
    destruct (chunk_text_spec config.MAX_CHUNK_SIZE eq_refl v)
      as (chunks & Hcat & Hall & Hrun).
    rewrite (Hrun (S (length v)) ltac:(lia)).
    assert (Hlen : (2 <= length chunks)%nat).
    { destruct chunks as [|c [|c' rest]]; [| |simpl; lia].
      - simpl in Hcat. subst v. unfold len in Hgt. simpl in Hgt.
        unfold config.MAX_CHUNK_SIZE in Hgt. lia.
      - simpl in Hcat. rewrite app_nil_r in Hcat. subst c.
        inversion Hall; subst. lia. }
    exists chunks. split; [reflexivity|]. split; [exact Hlen|].
    split; [reflexivity|].
    rewrite len_join_space by (destruct chunks; [simpl in Hlen; lia | discriminate]).
    now rewrite Hcat.
Qed.

End EchoFacts.

Lemma echo_provider_failure_signature_witness :
  let d := [([97]%N, JStr [1605; 1585]%N)] in
  exists st',
    _process_item unit echo (mkItemState unit d Stats.empty (world0 tt))
    = (Ok tt, st') /\
    (forall key v,
        In (key, JStr v) d -> source_field key v ->
        dict_mem (key ++ config.TRANSLATION_SUFFIX) d = false ->
        dict_get (key ++ config.TRANSLATION_SUFFIX) (st_item unit st')
        = Some (JStr (echo_result v))) /\
    translated_fields (st_stats unit st')
    = translated_fields Stats.empty + count_fields (is_untranslated_long d) d /\
    failed_fields (st_stats unit st')
    = failed_fields Stats.empty + count_fields (is_untranslated_short d) d.
Proof.
  intros d.
  apply (proj1 (echo_provider_failure_signature unit echo
                  (fun _ _ => eq_refl))).
  repeat constructor. simpl. tauto.
Defined.

(** C3, as stated, fails on a value that is split: with the echoing
    provider, the 501 characters of ["a" * 501] come back as 500 of them, a
    space, and the last one, and the field is counted as translated. *)
Lemma echo_marks_every_field_failed_fails : ~ echo_marks_every_field_failed.
Proof.
  intros H.
  destruct (H unit echo [([107]%N, JStr (repeat 97%N 501))]
              Stats.empty (world0 tt) (fun _ _ => eq_refl))
    as (st' & E & _ & Ht).
  - repeat constructor. simpl. tauto.
  - vm_compute in E. inversion E; subst. vm_compute in Ht. discriminate.
Qed.

(** ** NonTranslatableFixer *)

Lemma json_eq_str_true (j : json) (v : str) :
  json_eq_str j v = true -> j = JStr v.
Proof.
  destruct j; simpl; try discriminate. intros H.
  apply str_eqb_eq in H. now subst.
Qed.

Section FixerFacts.

Import NonTranslatableFixer.

Variable lower : str -> str.

Local Abbreviation fix_field := (fix_field lower).
Local Abbreviation fix_item := (fix_item lower).
Local Abbreviation fix_loop :=
  (fold_left (fun st kv => fix_field (fst kv) (snd kv) st)).

(** A step of the fixer either leaves the record or sets the derived key
    of the field it visits. *)
Lemma fix_field_cases (key : str) (value : json) (st : fix_state) :
  fix_field key value st = st \/
  exists v, value = JStr v /\ fix_field key value st = fix_set (en key) v st.
Proof.
  unfold NonTranslatableFixer.fix_field. fold (en key).
  destruct (endswith key config.TRANSLATION_SUFFIX); [now left|].
  destruct value; try (now left).
  destruct (str_in (strip (lower s)) NON_TRANSLATABLE_VALUES); [|now left].
  destruct (dict_get (en key) (fx_item st)) as [j|].
  - destruct (negb (json_eq_str j s)); [right; eauto | now left].
  - right; eauto.
Qed.

Lemma fix_field_other (key k : str) (value : json) (st : fix_state) :
  en key <> k ->
  dict_get k (fx_item (fix_field key value st)) = dict_get k (fx_item st).
Proof.
  intros Hne. destruct (fix_field_cases key value st) as [-> | (v & _ & ->)];
    [reflexivity|].
  simpl. apply dict_get_set_other. congruence.
Qed.

Lemma fix_loop_other (k : str) : forall (l : dict) (st : fix_state),
  (forall k0 x, In (k0, x) l -> en k0 <> k) ->
  dict_get k (fx_item (fix_loop l st)) = dict_get k (fx_item st).
Proof.
  induction l as [|[k0 x] l IH]; intros st Hne; simpl; [reflexivity|].
  rewrite IH by (intros k1 y Hin; apply (Hne k1 y); now right).
  apply fix_field_other. apply (Hne k0 x). now left.
Qed.

Lemma fix_field_sets (key v : str) (st : fix_state) :
  endswith key config.TRANSLATION_SUFFIX = false ->
  str_in (strip (lower v)) NON_TRANSLATABLE_VALUES = true ->
  dict_get (en key) (fx_item (fix_field key (JStr v) st)) = Some (JStr v).
Proof.
  intros He Hs. unfold NonTranslatableFixer.fix_field. fold (en key).
  rewrite He, Hs.
  destruct (dict_get (en key) (fx_item st)) as [j|] eqn:Eg.
  - destruct (json_eq_str j v) eqn:Ej; simpl.
    + apply json_eq_str_true in Ej. now subst.
    + apply dict_get_set_same.
  - simpl. apply dict_get_set_same.
Qed.

Lemma fix_loop_sets (key v : str) : forall (l : dict) (st : fix_state),
  NoDup (keys l) -> In (key, JStr v) l ->
  endswith key config.TRANSLATION_SUFFIX = false ->
  str_in (strip (lower v)) NON_TRANSLATABLE_VALUES = true ->
  dict_get (en key) (fx_item (fix_loop l st)) = Some (JStr v).
Proof.
  induction l as [|[k0 x] l IH]; intros st Hnd Hin He Hs; [destruct Hin|].
  inversion Hnd as [|? ? Hnotin Hnd']; subst. simpl.
  destruct Hin as [Heq | Hin].
  - inversion Heq; subst. rewrite fix_loop_other.
    + now apply fix_field_sets.
    + intros k1 y Hin Hk. apply suffix_inj in Hk. subst k1.
      apply Hnotin. change key with (fst (key, y)). now apply in_map.
  - now apply IH.
Qed.


End FixerFacts.

(** ** TranslationRetrier *)

Section RetryFacts.

Import TranslationRetrier.

Variable PState : Type.
Variable provider : PState -> str -> PState * outcome.

Local Abbreviation world := (world PState).
Local Abbreviation translate := (translate PState provider).
Local Abbreviation retry_state := (retry_state PState).
Local Abbreviation retry_acc := (retry_acc PState).
Local Abbreviation retry_field := (retry_field PState provider).
Local Abbreviation retry_element := (retry_element PState provider).
Local Abbreviation retry_elements := (retry_elements PState provider).
Local Abbreviation _retry_file := (_retry_file PState provider).
Local Abbreviation retry_loop :=
  (fun l : dict => for_each l (fun kv => retry_field (fst kv) (snd kv))).

Lemma failed_signature_true (k v : str) (item : dict) :
  failed_signature k v item = true -> dict_get k item = Some (JStr v).
Proof.
  unfold failed_signature. rewrite andb_true_iff. intros [_ H].
  destruct (dict_get k item) as [j|]; [|discriminate].
  now rewrite (json_eq_str_true j v H).
Qed.

(** A step of the retry loop ends normally; it leaves the record and the
    flag, or it replaces a derived value that was equal to the source by a
    different one and raises the flag. *)
Lemma retry_field_spec (key : str) (value : json) (st : retry_state) :
  exists st',
    retry_field key value st = (Ok tt, st') /\
    quiet (rs_world PState st) (rs_world PState st') /\
    ((rs_item PState st' = rs_item PState st /\
      modified PState st' = modified PState st) \/
     (exists v t,
         dict_get (en key) (rs_item PState st) = Some (JStr v) /\
         t <> v /\
         rs_item PState st' = dict_set (en key) (JStr t) (rs_item PState st) /\
         modified PState st' = true)).
Proof.
  assert (Hsame : exists st',
             (Ok tt, st) = (Ok tt, st') /\
             quiet (rs_world PState st) (rs_world PState st') /\
             ((rs_item PState st' = rs_item PState st /\
               modified PState st' = modified PState st) \/
              (exists v t,
                  dict_get (en key) (rs_item PState st) = Some (JStr v) /\
                  t <> v /\
                  rs_item PState st'
                  = dict_set (en key) (JStr t) (rs_item PState st) /\
                  modified PState st' = true)))
    by (exists st; split; [reflexivity|]; split; [apply quiet_refl | left; auto]).
  unfold TranslationRetrier.retry_field. fold (en key).
  destruct (endswith key config.TRANSLATION_SUFFIX); [exact Hsame|].
  destruct value; try exact Hsame.
  destruct (negb (truthy (strip s))); [exact Hsame|].
  unfold bind at 1. unfold get.
  destruct (failed_signature (en key) s (rs_item PState st)) eqn:Ef;
    [|exact Hsame].
  apply failed_signature_true in Ef.
  destruct (translate_ok PState provider s (rs_world PState st))
    as (t & w' & Et & Hq).
  unfold bind, modify, TranslationRetrier.with_world, lift. simpl.
  rewrite Et. destruct (str_eqb t s) eqn:Es; simpl.
  - eexists. split; [reflexivity|]. simpl. split; [exact Hq | left; auto].
  - eexists. split; [reflexivity|]. simpl. split; [exact Hq|]. right.
    exists s, t. apply str_eqb_neq in Es. auto.
Qed.

Lemma retry_loop_spec : forall (l : dict) (st : retry_state),
  NoDup (keys l) ->
  exists st',
    retry_loop l st = (Ok tt, st') /\
    quiet (rs_world PState st) (rs_world PState st') /\
    (forall k, (forall k0 x, In (k0, x) l -> en k0 <> k) ->
               dict_get k (rs_item PState st') = dict_get k (rs_item PState st)) /\
    ((rs_item PState st' = rs_item PState st /\
      modified PState st' = modified PState st) \/
     (rs_item PState st' <> rs_item PState st /\ modified PState st' = true)).
Proof.
  induction l as [|[key value] l IH]; intros st Hnd.
  - exists st. split; [reflexivity|]. split; [apply quiet_refl|].
    split; [reflexivity | left; auto].
  - inversion Hnd as [|? ? Hnotin Hnd']; subst.
    assert (Hother : forall k0 x, In (k0, x) l -> en k0 <> en key).
    { intros k0 x Hin Heq. apply suffix_inj in Heq. subst k0.
      apply Hnotin. change key with (fst (key, x)). now apply in_map. }
    cbn [for_each fst snd]. unfold bind.
    destruct (retry_field_spec key value st) as (st1 & -> & Hq1 & Hstep).
    destruct (IH st1 Hnd') as (st' & E & Hq & Hframe & Hcases).
    exists st'. split; [exact E|]. split; [eapply quiet_trans; eassumption|].
    destruct Hstep as [[Hi Hm] | (v & t & Hg & Hne & Hi & Hm)].
    + split.
      * intros k Hk. rewrite Hframe, Hi; [reflexivity|].
        intros k0 x Hin. apply (Hk k0 x). now right.
      * rewrite <- Hi, <- Hm. exact Hcases.
    + split.
      * intros k Hk. rewrite Hframe, Hi.
        -- apply dict_get_set_other. intros Heq.
           apply (Hk key value (or_introl eq_refl)). now symmetry.
        -- intros k0 x Hin. apply (Hk k0 x). now right.
      * right. split.
        -- intros Heq.
           assert (Hk : dict_get (en key) (rs_item PState st') = Some (JStr t)).
           { rewrite Hframe by exact Hother. rewrite Hi. apply dict_get_set_same. }
           rewrite Heq, Hg in Hk. congruence.
        -- destruct Hcases as [[_ Hm'] | [_ Hm']]; congruence.
Qed.

Lemma retry_element_spec (d : dict) (acc : retry_acc) :
  wf_dict d ->
  exists d' acc',
    retry_element (JObj d) acc = (Ok (JObj d'), acc') /\
    quiet (acc_world PState acc) (acc_world PState acc') /\
    ((d' = d /\ acc_modified PState acc' = acc_modified PState acc) \/
     (d' <> d /\ acc_modified PState acc' = true)).
Proof.
  intros Hwf. unfold TranslationRetrier.retry_element.
  destruct (retry_loop_spec d
              (mkRetryState PState d (acc_retried PState acc)
                            (acc_fixed PState acc) (acc_modified PState acc)
                            (acc_world PState acc)) Hwf)
    as (st' & E & Hq & _ & Hcases).
  cbv zeta. rewrite E.
  exists (rs_item PState st'). eexists. split; [reflexivity|].
  simpl in *. split; [exact Hq | exact Hcases].
Qed.

Lemma retry_elements_spec : forall (es : list json) (acc : retry_acc),
  records_wf es ->
  exists r acc',
    retry_elements es acc = (r, acc') /\
    quiet (acc_world PState acc) (acc_world PState acc') /\
    match r with
    | Ok es' =>
        (es' = es /\ acc_modified PState acc' = acc_modified PState acc) \/
        (es' <> es /\ acc_modified PState acc' = true)
    | _ => True
    end.
Proof.
  induction es as [|e es IH]; intros acc Hwf.
  - exists (Ok []), acc. split; [reflexivity|]. split; [apply quiet_refl|].
    left; auto.
  - cbn [TranslationRetrier.retry_elements]. unfold bind.
    assert (Hwf' : records_wf es) by (intros d Hin; apply Hwf; now right).
    destruct e as [ | b | z | lx | sx | elems | d ];
      try (exists (Exc AttributeError), acc; split; [reflexivity|];
           split; [apply quiet_refl | exact I]).
    destruct (retry_element_spec d acc (Hwf d (or_introl eq_refl)))
      as (d' & acc1 & -> & Hq1 & Hc1).
    destruct (IH acc1 Hwf') as (r & acc' & -> & Hq & Hc).
    destruct r as [es' | x | ].
    + exists (Ok (JObj d' :: es')), acc'. split; [reflexivity|].
      split; [eapply quiet_trans; eassumption|].
      destruct Hc1 as [[-> Hm1] | [Hne1 Hm1]];
        destruct Hc as [[-> Hm] | [Hne Hm]].
      * left. split; congruence.
      * right. split; congruence.
      * right. split; congruence.
      * right. split; congruence.
    + exists (Exc x), acc'. split; [reflexivity|].
      split; [eapply quiet_trans; eassumption | exact I].
    + exists OutOfFuel, acc'. split; [reflexivity|].
      split; [eapply quiet_trans; eassumption | exact I].
Qed.


Lemma dump_json_effect (file_path : str) (data : json) (w : world) :
  dump_json file_path data w
  = (if encodable data then Ok tt else Exc UnicodeEncodeError,
     after_dump file_path data w).
Proof.
  unfold dump_json, after_dump. destruct (encodable data); reflexivity.
Qed.

Lemma retry_file_not_loaded (file_path : str) (w : world) :
  (forall data, fs_get file_path (fs w) <> Some (Some data)) ->
  exists e, _retry_file file_path w = (Exc e, w).
Proof.
  intros H.
  unfold TranslationRetrier._retry_file, retry_file_body, bind,
    TranslationRetrier.in_world, lift, load_json. simpl.
  destruct (fs_get file_path (fs w)) as [[data|]|]; simpl; eauto.
  exfalso. now apply (H data).
Qed.

(** [_retry_file] once the document is loaded. *)
Lemma retry_file_loaded (file_path : str) (w : world) (data : json) :
  fs_get file_path (fs w) = Some (Some data) ->
  _retry_file file_path w
  = match iter_elems data (mkRetryAcc PState 0 0 false w) with
    | (Ok es, acc0) =>
        match retry_elements es acc0 with
        | (Ok es', acc) =>
            if acc_modified PState acc
            then (if encodable (rebuild data es')
                  then Ok (mkRetryResult file_path (acc_retried PState acc)
                                         (acc_fixed PState acc) true)
                  else Exc UnicodeEncodeError,
                  after_dump file_path (rebuild data es') (acc_world PState acc))
            else (Ok (mkRetryResult file_path (acc_retried PState acc)
                                    (acc_fixed PState acc) false),
                  acc_world PState acc)
        | (Exc e, acc) => (Exc e, acc_world PState acc)
        | (OutOfFuel, acc) => (OutOfFuel, acc_world PState acc)
        end
    | (Exc e, _) => (Exc e, w)
    | (OutOfFuel, _) => (OutOfFuel, w)
    end.
Proof.
  intros H.
  unfold TranslationRetrier._retry_file, retry_file_body, bind,
    TranslationRetrier.in_world, lift, load_json, get. simpl.
  rewrite H.
  destruct data; simpl; try reflexivity;
    (match goal with
     | |- context [retry_elements ?es ?a] =>
         destruct (retry_elements es a) as [[es'|e|] acc]
     end; simpl; try reflexivity;
     destruct (acc_modified PState acc) eqn:Em; simpl; try reflexivity;
     rewrite dump_json_effect;
     match goal with
     | |- context [encodable ?d] => destruct (encodable d) eqn:Ee
     end; simpl in *; rewrite ?Ee; reflexivity).
Qed.


End RetryFacts.

(** ** JSONTranslator: one file *)

Section FileFacts.

Variable PState : Type.
Variable provider : PState -> str -> PState * outcome.

Local Abbreviation world := (world PState).
Local Abbreviation process_element := (process_element PState provider).
Local Abbreviation process_elements := (process_elements PState provider).
Local Abbreviation process_file := (process_file PState provider).

Lemma process_element_spec (e : json) (sw : TranslationStats * world) :
  exists r sw',
    process_element e sw = (r, sw') /\
    quiet (snd sw) (snd sw') /\ r <> OutOfFuel.
Proof.
  unfold JSONTranslator.process_element.
  destruct e as [ | b | z | lx | sx | elems | d ];
    try (do 2 eexists; split; [reflexivity|];
         split; [apply quiet_refl | discriminate]).
  rewrite process_item_unfold.
  destruct (fields_loop_spec PState provider d
              (mkItemState PState d (fst sw) (snd sw)))
    as (added & st' & -> & _ & Hq & _).
  do 2 eexists. split; [reflexivity|]. split; [exact Hq | discriminate].
Qed.

Lemma process_elements_spec : forall (es : list json)
                                     (sw : TranslationStats * world),
  exists r sw',
    process_elements es sw = (r, sw') /\
    quiet (snd sw) (snd sw') /\ r <> OutOfFuel.
Proof.
  induction es as [|e es IH]; intros sw.
  - exists (Ok []), sw. split; [reflexivity|].
    split; [apply quiet_refl | discriminate].
  - cbn [JSONTranslator.process_elements]. unfold bind.
    destruct (process_element_spec e sw) as (r1 & sw1 & -> & Hq1 & Hne1).
    destruct r1 as [e' | x | ]; [| |congruence].
    + destruct (IH sw1) as (r & sw' & -> & Hq & Hne).
      destruct r as [es' | x | ]; [| |congruence];
        (do 2 eexists; split; [reflexivity|];
         split; [eapply quiet_trans; eassumption | discriminate]).
    + do 2 eexists. split; [reflexivity|]. split; [exact Hq1 | discriminate].
Qed.

End FileFacts.

(** ** The scenarios of the specification, run on the embedding *)

Example rfind_last_occurrence :
  rfind [97; 46; 32; 98; 46; 32; 99]%N [46; 32]%N = 4
  /\ rfind [97; 98; 99]%N [46; 32]%N = -1.
Proof. split; reflexivity. Qed.

Example chunk_text_hard_break :
  chunk_text 6 [97; 98; 99; 100; 101]%N 4
  = Some [[97; 98; 99; 100]; [101]]%N.
Proof. reflexivity. Qed.

(** ["abcde. fgh"] with [max_size = 8]: the cut falls after [". "]. *)
Example chunk_text_at_delimiter :
  chunk_text 11 [97; 98; 99; 100; 101; 46; 32; 102; 103; 104]%N 8
  = Some [[97; 98; 99; 100; 101; 46; 32]; [102; 103; 104]]%N.
Proof. reflexivity. Qed.

(** With [max_size = 0] the loop never ends: the fuel runs out however
    much there is. *)
Example chunk_text_zero_diverges (fuel : nat) :
  chunk_text fuel [97]%N 0 = None.
Proof.
  unfold chunk_text. simpl. generalize (@nil str).
  induction fuel as [|fuel IH]; intros chunks; [reflexivity | apply IH].
Qed.

(** ["X" * 1200] with the default size gives chunks of 500, 500 and 200. *)
Example chunk_text_1200 :
  option_map (map (@length char))
             (chunk_text 1201 (repeat 88%N 1200) config.MAX_CHUNK_SIZE)
  = Some [500; 500; 200]%nat.
Proof. vm_compute. reflexivity. Qed.

(** [{"title": "مرحبا"}] with a provider that answers ["Hello"]. *)
Example scenario_title :
  let title := [116; 105; 116; 108; 101]%N in
  let hello := [72; 101; 108; 108; 111]%N in
  let value := [1605; 1585; 1581; 1576; 1575]%N in
  exists w',
    _process_item unit (constant hello)
      (mkItemState unit [(title, JStr value)] Stats.empty (world0 tt))
    = (Ok tt,
       mkItemState unit
         [(title, JStr value); (title ++ config.TRANSLATION_SUFFIX, JStr hello)]
         (mkStats 0 1 0 0) w')
    /\ calls (trace w') = 1%nat.
Proof. eexists. split; vm_compute; reflexivity. Qed.

(** [{"flag": "true"}] through the fixer: ["flag-en": "true"] is added. *)
Example scenario_flag :
  let flag := [102; 108; 97; 103]%N in
  let true_ := [116; 114; 117; 101]%N in
  NonTranslatableFixer.fx_item
    (NonTranslatableFixer.fix_item ascii_lower [(flag, JStr true_)] false 0)
  = [(flag, JStr true_); (flag ++ config.TRANSLATION_SUFFIX, JStr true_)].
Proof. reflexivity. Qed.

(** * Further properties of the code *)

(** ** Where the chunker cuts *)

Lemma rfind_aux_occurs (d : str) : forall (s : str) (i : nat) (last p : Z),
  rfind_aux s d i last = p ->
  p = last \/
  exists k : nat,
    p = Z.of_nat (i + k) /\ (k <= length s)%nat /\
    startswith (skipn k s) d = true.
Proof.
  induction s as [|c s IH]; intros i last p; cbn [rfind_aux].
  - destruct (startswith [] d) eqn:E; intros <-; [right | now left].
    exists 0%nat. rewrite Nat.add_0_r. auto.
  - intros H. apply IH in H.
    destruct H as [-> | (k & -> & Hk & Hs)].
    + destruct (startswith (c :: s) d) eqn:E; [right | now left].
      exists 0%nat. rewrite Nat.add_0_r. simpl. split; [reflexivity|].
      split; [lia | exact E].
    + right. exists (S k). split; [f_equal; lia|]. split; [simpl; lia | exact Hs].
Qed.

Lemma rfind_occurs (s d : str) :
  0 <= rfind s d -> startswith (skipn (Z.to_nat (rfind s d)) s) d = true.
Proof.
  intros Hp. destruct (rfind_aux_occurs d s 0 (-1) _ eq_refl) as [E | (k & E & _ & Hs)].
  - unfold rfind in Hp. lia.
  - unfold rfind. rewrite E. simpl. now rewrite Nat2Z.id.
Qed.

Lemma endswith_app (a d : str) : endswith (a ++ d) d = true.
Proof. unfold endswith. rewrite rev_app_distr. apply startswith_app. Qed.

Lemma firstn_occurrence (s d : str) (p : nat) :
  (p + length d <= length s)%nat ->
  startswith (skipn p s) d = true ->
  firstn (p + length d) s = firstn p s ++ d.
Proof.
  intros Hlen Hs. destruct (startswith_inv _ _ Hs) as [t Ht].
  rewrite <- (firstn_skipn p s) at 1. rewrite Ht.
  assert (Hp : length (firstn p s) = p) by (rewrite length_firstn; lia).
  rewrite <- Hp at 1. rewrite firstn_app_2.
  f_equal. rewrite <- (Nat.add_0_r (length d)). rewrite firstn_app_2.
  simpl. apply app_nil_r.
Qed.

Lemma find_break_in_first (chunk : str) (minp max_size : Z) :
  forall delims : list str,
    Exists (fun d => rfind chunk d > minp) delims ->
    exists pre d post,
      delims = pre ++ d :: post /\
      Forall (fun d' => rfind chunk d' <= minp) pre /\
      rfind chunk d > minp /\
      find_break_in delims chunk minp max_size = rfind chunk d + len d.
Proof.
  induction delims as [|d0 ds IH]; intros Hex; [inversion Hex|].
  cbn [find_break_in].
  destruct (Z.gtb_spec (rfind chunk d0) minp) as [Hq | Hnq].
  - exists [], d0, ds. repeat split; [constructor | lia].
  - assert (Hex' : Exists (fun d => rfind chunk d > minp) ds)
      by (inversion Hex; subst; [lia | assumption]).
    destruct (IH Hex') as (pre & d & post & -> & Hpre & Hq & E).
    exists (d0 :: pre), d, post. repeat split; auto.
Qed.

(** X1. When some delimiter qualifies in the window, the cut falls right
    after the last occurrence of the first delimiter, in the order of
    [SENTENCE_DELIMITERS], that qualifies: the chunk cut off ends with
    that delimiter. *)
Theorem soft_cut_ends_with_delimiter
        (remaining : str) (chunks : list str) (max_size : Z) :
  0 < max_size -> max_size < len remaining ->
  Exists (fun d => rfind (slice_to remaining max_size) d
                   > config.min_position_of max_size)
         config.SENTENCE_DELIMITERS ->
  exists pre d post,
    config.SENTENCE_DELIMITERS = pre ++ d :: post /\
    Forall (fun d' => rfind (slice_to remaining max_size) d'
                      <= config.min_position_of max_size) pre /\
    rfind (slice_to remaining max_size) d > config.min_position_of max_size /\
    chunk_step remaining chunks max_size
    = inr (slice_from remaining (rfind (slice_to remaining max_size) d + len d),
           chunks ++ [slice_to remaining
                        (rfind (slice_to remaining max_size) d + len d)]) /\
    endswith (slice_to remaining (rfind (slice_to remaining max_size) d + len d))
             d = true.
Proof.
  intros Hpos Hlen Hex.
  destruct (find_break_in_first _ _ max_size _ Hex)
    as (pre & d & post & Hsplit & Hpre & Hq & E).
  exists pre, d, post. split; [exact Hsplit|]. split; [exact Hpre|].
  split; [exact Hq|].
  pose proof (min_position_bounds max_size Hpos) as (Hm0 & _ & _).
  set (window := slice_to remaining max_size) in *.
  assert (Hw : len window = max_size) by (apply len_slice_to; lia).
  destruct (rfind_bound window d) as [Hneg | [Hp0 Hp1]]; [lia|].
  pose proof (len_nonneg d) as Hd.
  split.
  - rewrite (chunk_step_cut max_size Hpos remaining chunks Hlen).
    fold window. unfold _find_break_point. cbv zeta. now rewrite E.
  - set (p := rfind window d) in *.
    assert (Hfirst : slice_to remaining (p + len d) = slice_to window (p + len d)).
    { unfold window. rewrite !slice_to_nonneg by lia.
      rewrite firstn_firstn. f_equal. lia. }
    rewrite Hfirst, slice_to_nonneg by lia.
    replace (Z.to_nat (p + len d)) with (Z.to_nat p + length d)%nat
      by (unfold len; lia).
    rewrite firstn_occurrence.
    + apply endswith_app.
    + unfold len in *. lia.
    + apply rfind_occurs. exact Hp0.
Qed.

Lemma soft_cut_ends_with_delimiter_witness :
  let remaining := [97; 98; 99; 100; 101; 46; 32; 102; 103; 104]%N in
  exists pre d post,
    config.SENTENCE_DELIMITERS = pre ++ d :: post /\
    Forall (fun d' => rfind (slice_to remaining 8) d'
                      <= config.min_position_of 8) pre /\
    rfind (slice_to remaining 8) d > config.min_position_of 8 /\
    chunk_step remaining [] 8
    = inr (slice_from remaining (rfind (slice_to remaining 8) d + len d),
           [] ++ [slice_to remaining (rfind (slice_to remaining 8) d + len d)]) /\
    endswith (slice_to remaining (rfind (slice_to remaining 8) d + len d))
             d = true.
Proof.
  intros remaining.
  apply (soft_cut_ends_with_delimiter remaining [] 8).
  - lia.
  - reflexivity.
  - apply Exists_cons_hd. reflexivity.
Defined.

(** ** How many chunks, and none of them empty *)

Lemma chunk_loop_shape (max_size : Z) (Hpos : 0 < max_size) :
  forall (n : nat) (remaining : str),
    (length remaining <= n)%nat -> remaining <> [] ->
    exists cs : list str,
      cs <> [] /\
      Forall (fun c => c <> []) cs /\
      max_size * (Z.of_nat (length cs) - 1) < 2 * len remaining /\
      forall (fuel : nat) (chunks : list str),
        (length remaining < fuel)%nat ->
        chunk_loop fuel remaining chunks max_size = Some (chunks ++ cs).
Proof.
  induction n as [|n IH]; intros remaining Hn Hne.
  - destruct remaining; [congruence | simpl in Hn; lia].
  - destruct (Z.leb_spec (len remaining) max_size) as [Hle | Hgt].
    + exists [remaining]. split; [discriminate|].
      split; [repeat constructor; exact Hne|]. split.
      * cbn [length]. change (Z.of_nat 1 - 1) with 0.
        destruct remaining; [congruence|]. unfold len. cbn [length]. lia.
      * intros [|fuel] chunks Hf; [lia|]. cbn [chunk_loop].
        now rewrite chunk_step_last.
    + pose proof (break_point_bounds max_size Hpos remaining Hgt) as Hbp.
      pose proof (min_position_bounds max_size Hpos) as (Hm0 & Hm1 & Hm2).
      set (bp := _find_break_point (slice_to remaining max_size) max_size) in *.
      cbv zeta in Hbp.
      assert (Hfrom : len (slice_from remaining bp) = len remaining - bp)
        by (apply len_slice_from; lia).
      assert (Hto : len (slice_to remaining bp) = bp)
        by (apply len_slice_to; lia).
      destruct (IH (slice_from remaining bp)) as (cs & Hcs & Hall & Hcount & Hloop).
      { unfold len in Hfrom. lia. }
      { intros E. rewrite E in Hfrom. unfold len in Hfrom at 1. simpl in Hfrom. lia. }
      exists (slice_to remaining bp :: cs). split; [discriminate|]. split; [|split].
      * constructor; [|exact Hall]. intros E. rewrite E in Hto.
        unfold len in Hto. simpl in Hto. lia.
      * cbn [length]. rewrite Nat2Z.inj_succ. rewrite Hfrom in Hcount.
        replace (Z.succ (Z.of_nat (length cs)) - 1)
          with ((Z.of_nat (length cs) - 1) + 1) by lia.
        rewrite Z.mul_add_distr_l. lia.
      * intros [|fuel] chunks Hf; [lia|]. cbn [chunk_loop].
        rewrite (chunk_step_cut max_size Hpos remaining chunks Hgt). fold bp.
        rewrite Hloop by (unfold len in Hfrom; lia).
        now rewrite <- app_assoc.
Qed.

Lemma chunk_text_shape (text : str) (max_size : Z) :
  0 < max_size -> text <> [] ->
  exists chunks : list str,
    (forall fuel : nat,
        (length text < fuel)%nat -> chunk_text fuel text max_size = Some chunks) /\
    chunks <> [] /\
    Forall (fun c => c <> []) chunks /\
    max_size * (Z.of_nat (length chunks) - 1) < 2 * len text.
Proof.
  intros Hpos Hne. unfold chunk_text.
  destruct (Z.leb_spec (len text) max_size) as [Hle | Hgt].
  - exists [text]. split; [reflexivity|]. split; [discriminate|].
    split; [repeat constructor; exact Hne|].
    cbn [length]. change (Z.of_nat 1 - 1) with 0.
    destruct text; [congruence|]. unfold len. cbn [length]. lia.
  - destruct (chunk_loop_shape max_size Hpos (length text) text (le_n _) Hne)
      as (cs & H1 & H2 & H3 & H4).
    exists cs. repeat split; auto.
Qed.

(** X2. For a non-empty text and [max_size > 0], [chunk_text] returns at
    least one chunk, no chunk is empty, and the number [n] of chunks obeys
    [max_size * (n - 1) < 2 * len(text)]: every chunk but the last is
    longer than half of [max_size]. *)
Theorem chunk_text_count (text : str) (max_size : Z) :
  0 < max_size -> text <> [] ->
  exists chunks : list str,
    (forall fuel : nat,
        (length text < fuel)%nat -> chunk_text fuel text max_size = Some chunks) /\
    chunks <> [] /\
    Forall (fun c => c <> []) chunks /\
    max_size * (Z.of_nat (length chunks) - 1) < 2 * len text.
Proof. exact (chunk_text_shape text max_size). Qed.

Lemma chunk_text_count_witness :
  exists chunks : list str,
    (forall fuel : nat,
        (length [97; 98; 99; 100; 101]%N < fuel)%nat ->
        chunk_text fuel [97; 98; 99; 100; 101]%N 4 = Some chunks) /\
    chunks <> [] /\
    Forall (fun c => c <> []) chunks /\
    4 * (Z.of_nat (length chunks) - 1) < 2 * len [97; 98; 99; 100; 101]%N.
Proof.
  apply (chunk_text_count [97; 98; 99; 100; 101]%N 4); [lia | discriminate].
Defined.

(** ** A chunk size of zero *)

Lemma chunk_step_zero (remaining : str) (chunks : list str) :
  remaining <> [] ->
  chunk_step remaining chunks 0 = inr (remaining, chunks ++ [[]]).
Proof.
  intros Hne. unfold chunk_step.
  destruct remaining as [|c r]; [congruence|]. simpl negb. cbv iota.
  destruct (Z.leb_spec (len (c :: r)) 0) as [H | _].
  - unfold len in H. simpl length in H. lia.
  - reflexivity.
Qed.

(** X3. With [max_size = 0] and a non-empty text the loop of [chunk_text]
    never ends: the window is empty, the break point is 0, and
    [remaining] stays what it was.  In the embedding the fuel runs out,
    however much there is. *)
Theorem chunk_text_zero_never_returns (text : str) (fuel : nat) :
  text <> [] -> chunk_text fuel text 0 = None.
Proof.
  intros Hne. unfold chunk_text.
  destruct (Z.leb_spec (len text) 0) as [H | _].
  - destruct text; [congruence|]. unfold len in H. simpl length in H. lia.
  - generalize (@nil str).
    induction fuel as [|fuel IH]; intros chunks; [reflexivity|].
    cbn [chunk_loop]. rewrite chunk_step_zero by exact Hne. apply IH.
Qed.

Lemma chunk_text_zero_never_returns_witness :
  chunk_text 1000 [97; 98]%N 0 = None.
Proof. apply (chunk_text_zero_never_returns [97; 98]%N 1000). discriminate. Defined.

(** ** How many provider calls [translate] makes *)

Lemma truthy_strip (text : str) :
  truthy (strip text) = true -> truthy text = true.
Proof. destruct text; [discriminate | reflexivity]. Qed.

Section CallBounds.

Variable PState : Type.
Variable provider : PState -> str -> PState * outcome.

Local Abbreviation world := (world PState).
Local Abbreviation translate := (translate PState provider).
Local Abbreviation after_raise := (after_raise PState provider).
Local Abbreviation after_return := (after_return PState provider).

Lemma single_loop_calls (text : str) (attempts : list nat) : forall w : world,
  exists r w',
    single_loop PState provider text attempts w = (Ok r, w') /\
    (calls (trace w) + Nat.min 1 (length attempts) <= calls (trace w')
     <= calls (trace w) + length attempts)%nat.
Proof.
  induction attempts as [|a rest IH]; intros w; cbn [single_loop].
  - exists text, w. split; [reflexivity | simpl; lia].
  - unfold bind. cbn [length].
    destruct (outcome_cases PState provider (prov w) text) as [E | [r E]].
    + rewrite (single_attempt_raised PState provider text a w E).
      destruct (last_attempt a).
      * do 2 eexists. split; [reflexivity|]. rewrite calls_after_raise. lia.
      * destruct (IH (after_raise a text w)) as (r & w' & -> & Hb).
        rewrite calls_after_raise in Hb.
        exists r, w'. split; [reflexivity | lia].
    + rewrite (single_attempt_returned PState provider text r a w E).
      do 2 eexists. split; [reflexivity|]. rewrite calls_after_return. lia.
Qed.

Lemma chunk_attempts_calls (chunk : str) (tc : list str) (attempts : list nat) :
  forall w : world,
  exists l w',
    chunk_attempts PState provider chunk tc attempts w = (Ok l, w') /\
    (calls (trace w) + Nat.min 1 (length attempts) <= calls (trace w')
     <= calls (trace w) + length attempts)%nat.
Proof.
  induction attempts as [|a rest IH]; intros w; cbn [chunk_attempts].
  - exists tc, w. split; [reflexivity | simpl; lia].
  - unfold bind. cbn [length].
    destruct (outcome_cases PState provider (prov w) chunk) as [E | [r E]].
    + rewrite (chunk_attempt_raised PState provider chunk tc a w E).
      destruct (last_attempt a).
      * do 2 eexists. split; [reflexivity|]. rewrite calls_after_raise. lia.
      * destruct (IH (after_raise a chunk w)) as (l & w' & -> & Hb).
        rewrite calls_after_raise in Hb.
        exists l, w'. split; [reflexivity | lia].
    + rewrite (chunk_attempt_returned PState provider chunk r tc a w E).
      do 2 eexists. split; [reflexivity|]. rewrite calls_after_return. lia.
Qed.

Lemma chunks_loop_calls (chunks : list str) : forall (tc : list str) (w : world),
  exists l w',
    chunks_loop PState provider chunks tc w = (Ok l, w') /\
    (calls (trace w) + length chunks <= calls (trace w')
     <= calls (trace w) + config.MAX_RETRIES * length chunks)%nat.
Proof.
  induction chunks as [|c rest IH]; intros tc w; cbn [chunks_loop].
  - exists tc, w. split; [reflexivity | simpl; lia].
  - unfold bind.
    destruct (chunk_attempts_calls c tc (seq 0 config.MAX_RETRIES) w)
      as (l & w1 & -> & Hb1).
    rewrite length_seq in Hb1.
    destruct (IH l w1) as (l' & w' & -> & Hb).
    exists l', w'. split; [reflexivity|]. cbn [length].
    unfold config.MAX_RETRIES in *. simpl Nat.min in Hb1. lia.
Qed.

Lemma translate_calls_spec (text : str) (w : world) :
  truthy (strip text) = true ->
  exists chunks r w',
    chunk_text (S (length text)) text config.MAX_CHUNK_SIZE = Some chunks /\
    chunks <> [] /\
    translate text w = (Ok r, w') /\
    (calls (trace w) + length chunks <= calls (trace w')
     <= calls (trace w) + config.MAX_RETRIES * length chunks)%nat.
Proof.
  intros Hs. unfold Translator.translate. rewrite Hs.
  rewrite (truthy_strip text Hs). cbn [negb orb].
  destruct (chunk_text_shape text config.MAX_CHUNK_SIZE eq_refl)
    as (chunks & E & Hne & _).
  { intros ->. discriminate. }
  specialize (E (S (length text)) ltac:(lia)). rewrite E.
  destruct (Nat.eqb_spec (length chunks) 1) as [H1 | Hn].
  - destruct (single_loop_calls text (seq 0 config.MAX_RETRIES) w)
      as (r & w' & Er & Hb).
    exists chunks, r, w'. split; [reflexivity|]. split; [exact Hne|].
    split; [exact Er|].
    rewrite length_seq in Hb. rewrite H1.
    unfold config.MAX_RETRIES in *. simpl Nat.min in Hb. lia.
  - destruct (chunks_loop_calls chunks [] w) as (l & w' & El & Hb).
    exists chunks, (join [32%N] l), w'. split; [reflexivity|].
    split; [exact Hne|]. split; [|exact Hb].
    unfold _translate_chunks, bind. now rewrite El.
Qed.

(** X4. A blank (empty or whitespace-only) text comes back from
    [translate] unchanged with the world untouched: no call, no sleep.
    For any other text [translate] makes at least one and at most
    [MAX_RETRIES] provider calls for each chunk [chunk_text] cuts. *)
Theorem translate_call_bounds (text : str) (w : world) :
  (truthy (strip text) = false -> translate text w = (Ok text, w)) /\
  (truthy (strip text) = true ->
   exists chunks r w',
     chunk_text (S (length text)) text config.MAX_CHUNK_SIZE = Some chunks /\
     translate text w = (Ok r, w') /\
     (calls (trace w) + length chunks <= calls (trace w')
      <= calls (trace w) + config.MAX_RETRIES * length chunks)%nat).
Proof.
  split; intros Hs.
  - unfold Translator.translate. rewrite Hs. now rewrite orb_true_r.
  - destruct (translate_calls_spec text w Hs) as (chunks & r & w' & E & _ & Et & Hb).
    exists chunks, r, w'. auto.
Qed.

End CallBounds.

Lemma translate_call_bounds_witness :
  (exists chunks r w',
      chunk_text (S (length [1605; 1585]%N)) [1605; 1585]%N config.MAX_CHUNK_SIZE
      = Some chunks /\
      Translator.translate unit down [1605; 1585]%N (world0 tt) = (Ok r, w') /\
      (calls (trace (world0 tt)) + length chunks <= calls (trace w')
       <= calls (trace (world0 tt)) + config.MAX_RETRIES * length chunks)%nat) /\
  Translator.translate unit down [32; 10]%N (world0 tt)
  = (Ok [32; 10]%N, world0 tt).
Proof.
  split.
  - apply (proj2 (translate_call_bounds unit down [1605; 1585]%N (world0 tt))).
    reflexivity.
  - apply (proj1 (translate_call_bounds unit down [32; 10]%N (world0 tt))).
    reflexivity.
Defined.

(** ** A provider that is down *)

Section EchoResultFacts.

Variable PState : Type.
Variable provider : PState -> str -> PState * outcome.

Local Abbreviation world := (world PState).
Local Abbreviation translate := (translate PState provider).
Local Abbreviation item_state := (item_state PState).
Local Abbreviation process_field := (process_field PState provider).
Local Abbreviation _process_item := (_process_item PState provider).
Local Abbreviation fields_loop :=
  (fun l : dict => for_each l (fun kv => process_field (fst kv) (snd kv))).

(** Whenever [translate] answers [echo_result v] for a non-blank [v]. *)
Hypothesis translate_answers :
  forall (v : str) (w : world),
    truthy (strip v) = true ->
    exists w', translate v w = (Ok (echo_result v), w').


End EchoResultFacts.

Section DownFacts.

Variable PState : Type.
Variable provider : PState -> str -> PState * outcome.
Hypothesis provider_down : always_raises provider.

Local Abbreviation world := (world PState).
Local Abbreviation translate := (translate PState provider).
Local Abbreviation after_raise := (after_raise PState provider).





End DownFacts.


Example provider_down_long_value_counts_as_translated :
  count_fields (is_untranslated_long [([97]%N, JStr (repeat 1605%N 600))])
               [([97]%N, JStr (repeat 1605%N 600))] = 1.
Proof. vm_compute. reflexivity. Qed.

(** ** The counters of the translation pass *)

Lemma count_fields_ext (p q : str -> json -> bool) (l : dict) :
  (forall k x, In (k, x) l -> p k x = q k x) ->
  count_fields p l = count_fields q l.
Proof.
  intros H. unfold count_fields. do 2 f_equal.
  apply filter_ext_in. intros [k x] Hin. simpl. now apply H.
Qed.

Section Accounting.

Variable PState : Type.
Variable provider : PState -> str -> PState * outcome.

Local Abbreviation world := (world PState).
Local Abbreviation item_state := (item_state PState).
Local Abbreviation process_field := (process_field PState provider).
Local Abbreviation fields_loop :=
  (fun l : dict => for_each l (fun kv => process_field (fst kv) (snd kv))).



End Accounting.


(** ** [process_file]: when it succeeds and what it writes *)

Lemma fs_get_put_same (path : str) (c : option json)
      (files : list (str * option json)) :
  fs_get path (fs_put path c files) = Some c.
Proof.
  induction files as [|[p x] files IH]; simpl.
  - now rewrite str_eqb_refl.
  - destruct (str_eqb p path) eqn:E; simpl; rewrite E; [reflexivity | exact IH].
Qed.

Lemma fs_put_put_same (path : str) (c : option json)
      (files : list (str * option json)) :
  fs_put path c (fs_put path c files) = fs_put path c files.
Proof.
  induction files as [|[p x] files IH]; simpl.
  - now rewrite str_eqb_refl.
  - destruct (str_eqb p path) eqn:E; simpl; rewrite E; [reflexivity|].
    now rewrite IH.
Qed.

Section ProcessFileFacts.

Variable PState : Type.
Variable provider : PState -> str -> PState * outcome.

Local Abbreviation world := (world PState).
Local Abbreviation process_element := (process_element PState provider).
Local Abbreviation process_elements := (process_elements PState provider).
Local Abbreviation process_file := (process_file PState provider).

Lemma process_file_not_loaded (file_path : str) (w : world) :
  (forall data, fs_get file_path (fs w) <> Some (Some data)) ->
  process_file file_path w = (Ok (mkFileResult file_path false Stats.empty), w).
Proof.
  intros H.
  unfold JSONTranslator.process_file, process_file_body, bind,
    JSONTranslator.in_world, lift, load_json. simpl.
  destruct (fs_get file_path (fs w)) as [[data|]|]; simpl; try reflexivity.
  exfalso. now apply (H data).
Qed.

(** [process_file] once the document is loaded. *)
Lemma process_file_loaded (file_path : str) (w : world) (data : json) :
  fs_get file_path (fs w) = Some (Some data) ->
  process_file file_path w
  = match py_len data (Stats.empty, w) with
    | (Ok n, _) =>
        match iter_elems data (set_total n Stats.empty, w) with
        | (Ok es, sw0) =>
            match process_elements es sw0 with
            | (Ok es', (s, w')) =>
                (Ok (mkFileResult file_path (encodable (rebuild data es')) s),
                 after_dump file_path (rebuild data es') w')
            | (Exc _, (s, w')) => (Ok (mkFileResult file_path false s), w')
            | (OutOfFuel, (_, w')) => (OutOfFuel, w')
            end
        | (_, _) => (Ok (mkFileResult file_path false Stats.empty), w)
        end
    | (_, _) => (Ok (mkFileResult file_path false Stats.empty), w)
    end.
Proof.
  intros H.
  unfold JSONTranslator.process_file, process_file_body, bind,
    JSONTranslator.in_world, lift, load_json, modify. simpl.
  rewrite H.
  destruct data; simpl; try reflexivity;
    (match goal with
     | |- context [process_elements ?es ?a] =>
         destruct (process_elements es a) as [[es'|x|] [s1 w1]]
     end; try reflexivity;
     cbn [snd fst]; rewrite dump_json_effect;
     match goal with
     | |- context [encodable ?d] => destruct (encodable d) eqn:Ee
     end; simpl in *; rewrite ?Ee; reflexivity).
Qed.

Lemma fields_loop_total_items : forall (l : dict) (st : item_state PState),
  exists st',
    for_each l (fun kv => JSONTranslator.process_field PState provider
                            (fst kv) (snd kv)) st = (Ok tt, st') /\
    total_items (st_stats PState st') = total_items (st_stats PState st).
Proof.
  induction l as [|[key value] l IH]; intros st.
  - exists st. split; reflexivity.
  - cbn [for_each fst snd]. unfold bind.
    destruct (is_source key value) eqn:Es.
    + destruct (is_source_str _ _ Es) as (v & -> & Hsrc).
      destruct (dict_mem (en key) (st_item PState st)) eqn:Em.
      * rewrite (process_field_present PState provider key v st Hsrc Em).
        match goal with
        | |- context [for_each l _ ?s] => destruct (IH s) as (st' & E & Ht)
        end.
        exists st'. split; [exact E | exact Ht].
      * destruct (translate_ok PState provider v (st_world PState st))
          as (t & w' & Et & _).
        rewrite (process_field_absent PState provider key v t st w' Hsrc Em Et).
        match goal with
        | |- context [for_each l _ ?s] => destruct (IH s) as (st' & E & Ht)
        end.
        exists st'. split; [exact E|]. rewrite Ht. simpl.
        destruct (negb (str_eqb t v)); reflexivity.
    + rewrite (process_field_not_source PState provider key value st Es).
      apply IH.
Qed.

(** One record: the result extends it, is complete, and leaves
    [total_items] alone. *)
Lemma process_element_object (d : dict) (sw : TranslationStats * world) :
  exists e' sw',
    process_element (JObj d) sw = (Ok e', sw') /\
    extends_record (JObj d) e' /\ complete_record e' /\
    total_items (fst sw') = total_items (fst sw).
Proof.
  unfold JSONTranslator.process_element. rewrite process_item_unfold.
  destruct (fields_loop_spec PState provider d
              (mkItemState PState d (fst sw) (snd sw)))
    as (added & st' & E & Hi & _ & Hadd & Hpres).
  destruct (fields_loop_total_items d (mkItemState PState d (fst sw) (snd sw)))
    as (st2 & E2 & Hti).
  rewrite E in E2. inversion E2; subst st2. rewrite E.
  simpl in Hi, Hadd, Hti.
  do 2 eexists. split; [reflexivity|]. split; [|split].
  - exists d, added. split; [reflexivity | now rewrite Hi].
  - exists (st_item PState st'). split; [reflexivity|].
    intros key v Hin Hsrc. rewrite Hi in Hin. apply in_app_or in Hin.
    destruct Hin as [Hin | Hin]; [apply (Hpres key v Hin Hsrc)|].
    rewrite Forall_forall in Hadd.
    destruct (Hadd _ Hin) as (k0 & v0 & t0 & _ & _ & Heq & _).
    inversion Heq; subst. destruct Hsrc as [Hend _].
    unfold en in Hend. rewrite endswith_suffix in Hend. discriminate.
  - exact Hti.
Qed.

(** The loop over the records, when all of them are objects. *)
Lemma process_elements_objects : forall (es : list json)
                                        (sw : TranslationStats * world),
  forallb is_obj es = true ->
  exists es' sw',
    process_elements es sw = (Ok es', sw') /\
    Forall2 extends_record es es' /\
    Forall complete_record es' /\
    total_items (fst sw') = total_items (fst sw).
Proof.
  induction es as [|e es IH]; intros sw Hall.
  - exists [], sw. split; [reflexivity|]. repeat split; constructor.
  - cbn [forallb] in Hall. apply andb_true_iff in Hall. destruct Hall as [He Hall].
    destruct e as [ | b | z | lx | sx | elems | d ]; try discriminate.
    cbn [JSONTranslator.process_elements]. unfold bind.
    destruct (process_element_object d sw) as (e' & sw1 & -> & Hx & Hc & Ht).
    destruct (IH sw1 Hall) as (es' & sw' & -> & Hxs & Hcs & Hts).
    exists (e' :: es'), sw'. split; [reflexivity|].
    split; [constructor; assumption|]. split; [constructor; assumption|].
    congruence.
Qed.

(** The loop stops with [AttributeError] at the first element that is not
    an object. *)
Lemma process_elements_not_objects : forall (es : list json)
                                            (sw : TranslationStats * world),
  forallb is_obj es = false ->
  exists sw', process_elements es sw = (Exc AttributeError, sw').
Proof.
  induction es as [|e es IH]; intros sw Hall; [discriminate|].
  cbn [forallb] in Hall. cbn [JSONTranslator.process_elements]. unfold bind.
  destruct e as [ | b | z | lx | sx | elems | d ];
    try (eexists; reflexivity).
  cbn [is_obj andb] in Hall.
  destruct (process_element_object d sw) as (e' & sw1 & -> & _).
  destruct (IH sw1 Hall) as (sw' & ->). eexists; reflexivity.
Qed.

Lemma forallb_is_obj_map {A : Type} (f : A -> str) (l : list A) :
  forallb is_obj (map (fun x => JStr (f x)) l)
  = match l with [] => true | _ :: _ => false end.
Proof. destruct l; reflexivity. Qed.

(** [process_file] always ends with a [FileResult].  It opens the file
    for writing exactly when the [try] block gets to the dump, which is
    when the document loaded is processable; the result is a success when
    the dump gets through. *)
Lemma process_file_spec (file_path : str) (w : world) :
  exists res w',
    process_file file_path w = (Ok res, w') /\
    filename res = file_path /\
    ((success res = false /\
      writes (trace w') = writes (trace w) /\ fs w' = fs w /\
      (forall data, fs_get file_path (fs w) = Some (Some data) ->
                    processable data = false)) \/
     (exists data data',
         fs_get file_path (fs w) = Some (Some data) /\
         processable data = true /\
         writes (trace w') = writes (trace w) ++ [file_path] /\
         fs w' = fs_put file_path
                        (if encodable data' then Some data' else None) (fs w) /\
         success res = encodable data')).
Proof.
  destruct (fs_get file_path (fs w)) as [[data|]|] eqn:Eload.
  2,3: rewrite process_file_not_loaded by (rewrite Eload; congruence);
       do 2 eexists; split; [reflexivity|]; split; [reflexivity|]; left;
       repeat split; discriminate.
  rewrite (process_file_loaded file_path w data Eload).
  assert (Hfail : forall (s : TranslationStats) (w' : world),
             quiet w w' -> processable data = false ->
             exists res w0,
               (Ok (mkFileResult file_path false s), w') = (Ok res, w0) /\
               filename res = file_path /\
               ((success res = false /\
                 writes (trace w0) = writes (trace w) /\ fs w0 = fs w /\
                 (forall data0, Some (Some data) = Some (Some data0) ->
                                processable data0 = false)) \/
                (exists data0 data',
                    Some (Some data) = Some (Some data0) /\
                    processable data0 = true /\
                    writes (trace w0) = writes (trace w) ++ [file_path] /\
                    fs w0 = fs_put file_path
                              (if encodable data' then Some data' else None)
                              (fs w) /\
                    success res = encodable data'))).
  { intros s w' [Hqf Hqw] Hp. do 2 eexists. split; [reflexivity|].
    split; [reflexivity|]. left. cbn [success].
    repeat split; try assumption.
    intros data0 Hd. inversion Hd; subst. exact Hp. }
  assert (Hrun : forall (es : list json) (n : Z),
             forallb is_obj es = processable data ->
             exists res w0,
               match process_elements es (set_total n Stats.empty, w) with
               | (Ok es', (s, w')) =>
                   (Ok (mkFileResult file_path
                                     (encodable (rebuild data es')) s),
                    after_dump file_path (rebuild data es') w')
               | (Exc _, (s, w')) => (Ok (mkFileResult file_path false s), w')
               | (OutOfFuel, (_, w')) => (OutOfFuel, w')
               end = (Ok res, w0) /\
               filename res = file_path /\
               ((success res = false /\
                 writes (trace w0) = writes (trace w) /\ fs w0 = fs w /\
                 (forall data0, Some (Some data) = Some (Some data0) ->
                                processable data0 = false)) \/
                (exists data0 data',
                    Some (Some data) = Some (Some data0) /\
                    processable data0 = true /\
                    writes (trace w0) = writes (trace w) ++ [file_path] /\
                    fs w0 = fs_put file_path
                              (if encodable data' then Some data' else None)
                              (fs w) /\
                    success res = encodable data'))).
  { intros es n Hp.
    destruct (process_elements_spec PState provider es
                (set_total n Stats.empty, w))
      as (r & [s w'] & E & [Hqf Hqw] & _).
    cbn [snd] in Hqf, Hqw.
    destruct (forallb is_obj es) eqn:Hall.
    - destruct (process_elements_objects es (set_total n Stats.empty, w) Hall)
        as (es' & sw2 & E2 & _).
      rewrite E in E2. inversion E2; subst r sw2. rewrite E.
      do 2 eexists. split; [reflexivity|]. split; [reflexivity|]. right.
      exists data, (rebuild data es'). split; [reflexivity|].
      split; [now symmetry|]. unfold after_dump. cbn [trace fs success].
      rewrite writes_app, Hqw, Hqf. cbn [writes]. auto.
    - destruct (process_elements_not_objects es (set_total n Stats.empty, w) Hall)
        as (sw2 & E2).
      rewrite E in E2. inversion E2; subst r sw2. rewrite E.
      apply Hfail; [split; assumption | now symmetry]. }
  destruct data as [ | b | z | lx | sx | elems | fields ];
    cbn [py_len iter_elems]; unfold raise, ret;
    try (apply Hfail; [split; reflexivity | reflexivity]).
  - apply Hrun. rewrite forallb_is_obj_map. destruct sx; reflexivity.
  - apply Hrun. reflexivity.
  - apply Hrun. rewrite forallb_is_obj_map. destruct fields; reflexivity.
Qed.


Lemma process_file_list_run (file_path : str) (w : world) (es : list json) :
  fs_get file_path (fs w) = Some (Some (JArr es)) ->
  forallb is_obj es = true ->
  exists s w' es',
    process_file file_path w
    = (Ok (mkFileResult file_path (encodable (JArr es')) s),
       after_dump file_path (JArr es') w') /\
    quiet w w' /\
    total_items s = Z.of_nat (length es) /\
    Forall2 extends_record es es' /\
    Forall complete_record es'.
Proof.
  intros Eload Hall.
  rewrite (process_file_loaded file_path w _ Eload).
  cbn [py_len iter_elems]. unfold ret.
  destruct (process_elements_objects es
              (set_total (Z.of_nat (length es)) Stats.empty, w) Hall)
    as (es' & [s w'] & E & Hx & Hc & Ht).
  destruct (process_elements_spec PState provider es
              (set_total (Z.of_nat (length es)) Stats.empty, w))
    as (r & sw2 & E2 & Hq & _).
  rewrite E in E2. inversion E2; subst r sw2. rewrite E.
  simpl in Ht, Hq.
  exists s, w', es'. split; [reflexivity|]. auto.
Qed.

(** What a successful run on a list leaves behind. *)
Lemma process_file_success_run (file_path : str) (w w1 : world)
      (es : list json) (res1 : FileResult) :
  fs_get file_path (fs w) = Some (Some (JArr es)) ->
  process_file file_path w = (Ok res1, w1) ->
  success res1 = true ->
  exists es',
    length es' = length es /\
    Forall complete_record es' /\
    encodable (JArr es') = true /\
    fs_get file_path (fs w1) = Some (Some (JArr es')) /\
    fs_put file_path (Some (JArr es')) (fs w1) = fs w1 /\
    total_items (stats res1) = Z.of_nat (length es).
Proof.
  intros Eload E Hs.
  destruct (forallb is_obj es) eqn:Hall.
  - destruct (process_file_list_run file_path w es Eload Hall)
      as (s & w' & es' & E1 & _ & Ht & Hx & Hc).
    rewrite E1 in E. inversion E; subst res1 w1. cbn [success stats] in *.
    change (encodable (JArr es') = true) in Hs.
    exists es'. unfold after_dump. cbn [fs]. rewrite Hs.
    split; [symmetry; apply (Forall2_length Hx)|].
    split; [exact Hc|]. split; [reflexivity|].
    split; [apply fs_get_put_same|]. split; [apply fs_put_put_same | exact Ht].
  - rewrite (process_file_loaded file_path w _ Eload) in E.
    cbn [py_len iter_elems] in E. unfold ret in E.
    destruct (process_elements_not_objects es
                (set_total (Z.of_nat (length es)) Stats.empty, w) Hall)
      as ([s w'] & E2).
    rewrite E2 in E. inversion E; subst res1. discriminate.
Qed.


(** A complete record goes through the pass untouched. *)
Lemma process_elements_complete : forall (es : list json)
                                         (sw : TranslationStats * world),
  Forall complete_record es ->
  exists s',
    process_elements es sw = (Ok es, (s', snd sw)) /\
    total_items s' = total_items (fst sw) /\
    translated_fields s' = translated_fields (fst sw) /\
    failed_fields s' = failed_fields (fst sw).
Proof.
  induction es as [|e es IH]; intros sw Hall.
  - exists (fst sw). destruct sw. split; [reflexivity | auto].
  - inversion Hall as [|? ? (d & -> & Hd) Hall']; subst.
    cbn [JSONTranslator.process_elements]. unfold bind.
    unfold JSONTranslator.process_element. rewrite process_item_unfold.
    rewrite (fields_loop_all_present PState provider d
               (mkItemState PState d (fst sw) (snd sw)) Hd).
    cbn [st_item st_stats st_world].
    destruct (IH (add_skipped (count_fields is_source d) (fst sw), snd sw) Hall')
      as (s' & -> & H1 & H2 & H3).
    exists s'. split; [reflexivity|]. simpl in H1, H2, H3. auto.
Qed.

(** X9. Running [process_file] again on a list file on which it has just
    succeeded makes no provider call and leaves the files as they are:
    the second run succeeds too, the same document is written back,
    nothing is counted as translated or failed, and [total_items] is the
    same. *)
Theorem process_file_second_run (file_path : str) (w w1 : world)
        (es : list json) (res1 : FileResult) :
  fs_get file_path (fs w) = Some (Some (JArr es)) ->
  process_file file_path w = (Ok res1, w1) ->
  success res1 = true ->
  exists s2 w2,
    process_file file_path w1 = (Ok (mkFileResult file_path true s2), w2) /\
    fs w2 = fs w1 /\ prov w2 = prov w1 /\
    calls (trace w2) = calls (trace w1) /\
    translated_fields s2 = 0 /\ failed_fields s2 = 0 /\
    total_items s2 = total_items (stats res1).
Proof.
  intros Eload E1 Hs.
  destruct (process_file_success_run file_path w w1 es res1 Eload E1 Hs)
    as (es' & Hlen & Hc & Henc & Eload1 & Hput & Ht1).
  pose proof (process_file_loaded file_path w1 _ Eload1) as E2.
  cbn [py_len iter_elems rebuild] in E2. unfold ret in E2.
  destruct (process_elements_complete es'
              (set_total (Z.of_nat (length es')) Stats.empty, w1) Hc)
    as (s2 & Epe & H1 & H2 & H3).
  rewrite Epe in E2. cbn [snd fst] in *. rewrite Henc in E2.
  exists s2. eexists. split; [exact E2|].
  unfold after_dump. cbn [fs prov trace]. rewrite Henc.
  split; [exact Hput|]. split; [reflexivity|].
  split; [rewrite calls_app; simpl; lia|].
  split; [exact H2|]. split; [exact H3|].
  rewrite H1, Ht1, Hlen. reflexivity.
Qed.

End ProcessFileFacts.



Lemma process_file_second_run_witness :
  let file := [102]%N in
  let es := [JObj [([116]%N, JStr [1605; 1585]%N)]; JObj [([110]%N, JInt 3)]] in
  let w := mkWorld tt [] [(file, Some (JArr es))] in
  let run1 := process_file unit (constant [72; 105]%N) file w in
  exists s2 w2,
    process_file unit (constant [72; 105]%N) file (snd run1)
    = (Ok (mkFileResult file true s2), w2) /\
    fs w2 = fs (snd run1) /\ prov w2 = prov (snd run1) /\
    calls (trace w2) = calls (trace (snd run1)) /\
    translated_fields s2 = 0 /\ failed_fields s2 = 0 /\
    total_items s2 = 2.
Proof.
  intros file es w run1.
  apply (process_file_second_run unit (constant [72; 105]%N) file w (snd run1)
           es (mkFileResult file true (mkStats 2 1 0 0)));
    reflexivity.
Defined.

(** A run of [process_file] that ends in the encoder: the record holds a
    lone surrogate, the file is opened and left without valid JSON, and
    the result is a failure. *)
Example process_file_lone_surrogate :
  let file := [102]%N in
  let es := [JObj [([97; 45; 101; 110]%N, JStr [55296]%N)]] in
  let w := mkWorld tt [] [(file, Some (JArr es))] in
  process_file unit echo file w
  = (Ok (mkFileResult file false (mkStats 1 0 0 0)),
     mkWorld tt [EvWrite file (JArr es)] [(file, None)]).
Proof. reflexivity. Qed.

(** ** A document the encoder refuses *)





(** ** Persistence *)




(** The retry run and the encoder: the provider answers with a lone
    surrogate, the field is fixed in memory, the file is opened and left
    without valid JSON, and [_retry_file] raises. *)
Example retry_file_lone_surrogate :
  let file := [102]%N in
  let es := [JObj [([97]%N, JStr [1605]%N);
                   ([97; 45; 101; 110]%N, JStr [1605]%N)]] in
  let w := mkWorld tt [] [(file, Some (JArr es))] in
  exists w',
    TranslationRetrier._retry_file unit (constant [55296]%N) file w
    = (Exc UnicodeEncodeError, w') /\
    fs w' = [(file, None)] /\ writes (trace w') = [file].
Proof. eexists. split; [vm_compute; reflexivity | split; reflexivity]. Qed.

(** ** The retry run: what it counts and what it keeps *)

Lemma keys_dict_set_present (k : str) (v : json) (d : dict) :
  dict_mem k d = true -> keys (dict_set k v d) = keys d.
Proof.
  unfold dict_mem, keys. induction d as [|[k0 x] d IH]; simpl; [discriminate|].
  destruct (str_eqb k0 k) eqn:E; simpl; [reflexivity|].
  intros H. now rewrite IH.
Qed.

Section RetryCounts.

Import TranslationRetrier.

Variable PState : Type.
Variable provider : PState -> str -> PState * outcome.

Local Abbreviation world := (world PState).
Local Abbreviation translate := (translate PState provider).
Local Abbreviation retry_state := (retry_state PState).
Local Abbreviation retry_acc := (retry_acc PState).
Local Abbreviation retry_field := (retry_field PState provider).
Local Abbreviation retry_element := (retry_element PState provider).
Local Abbreviation retry_elements := (retry_elements PState provider).
Local Abbreviation _retry_file := (_retry_file PState provider).
Local Abbreviation retry_loop :=
  (fun l : dict => for_each l (fun kv => retry_field (fst kv) (snd kv))).

Lemma retry_field_not_failed (key : str) (value : json) (st : retry_state) :
  is_failed (rs_item PState st) key value = false ->
  retry_field key value st = (Ok tt, st).
Proof.
  unfold is_failed, is_source, TranslationRetrier.retry_field. fold (en key).
  destruct (endswith key config.TRANSLATION_SUFFIX); simpl; [reflexivity|].
  destruct value; try reflexivity.
  destruct (truthy (strip s)); simpl; [|reflexivity].
  intros H. unfold bind, get. rewrite H. reflexivity.
Qed.

Lemma retry_field_failed (key : str) (value : json) (st : retry_state) :
  is_failed (rs_item PState st) key value = true ->
  exists v t w',
    value = JStr v /\
    dict_get (en key) (rs_item PState st) = Some (JStr v) /\
    translate v (rs_world PState st) = (Ok t, w') /\
    (calls (trace (rs_world PState st)) + 1 <= calls (trace w'))%nat /\
    retry_field key value st
    = (Ok tt,
       if str_eqb t v
       then mkRetryState PState (rs_item PState st)
                         (fields_retried PState st + 1)
                         (fields_fixed PState st) (modified PState st) w'
       else mkRetryState PState (dict_set (en key) (JStr t) (rs_item PState st))
                         (fields_retried PState st + 1)
                         (fields_fixed PState st + 1) true w').
Proof.
  unfold is_failed, is_source, TranslationRetrier.retry_field. fold (en key).
  destruct (endswith key config.TRANSLATION_SUFFIX); simpl; [discriminate|].
  destruct value; try discriminate.
  destruct (truthy (strip s)) eqn:Hs; simpl; [|discriminate].
  intros H.
  destruct (translate_calls_spec PState provider s (rs_world PState st) Hs)
    as (chunks & t & w' & _ & Hne & Et & Hb).
  exists s, t, w'. split; [reflexivity|].
  split; [now apply failed_signature_true|]. split; [exact Et|]. split.
  - destruct chunks; [congruence|]. cbn [length] in Hb. lia.
  - unfold bind at 1. unfold get. rewrite H.
    unfold bind, modify, TranslationRetrier.with_world, lift. simpl.
    rewrite Et. destruct (str_eqb t s); reflexivity.
Qed.

Lemma is_failed_frame (d d' : dict) (key : str) (value : json) :
  dict_get (en key) d' = dict_get (en key) d ->
  is_failed d' key value = is_failed d key value.
Proof.
  intros H. unfold is_failed, failed_signature, dict_mem.
  destruct value; try reflexivity. now rewrite H.
Qed.

(** The loop over the fields of one record. *)
Lemma retry_loop_counts : forall (l : dict) (st : retry_state),
  NoDup (keys l) ->
  exists st',
    retry_loop l st = (Ok tt, st') /\
    fields_retried PState st'
    = fields_retried PState st + count_fields (is_failed (rs_item PState st)) l /\
    fields_fixed PState st <= fields_fixed PState st'
    <= fields_fixed PState st
       + count_fields (is_failed (rs_item PState st)) l /\
    modified PState st'
    = modified PState st || (fields_fixed PState st <? fields_fixed PState st') /\
    keys (rs_item PState st') = keys (rs_item PState st) /\
    (forall k, (forall k0 x, In (k0, x) l -> en k0 <> k) ->
               dict_get k (rs_item PState st') = dict_get k (rs_item PState st)) /\
    Z.of_nat (calls (trace (rs_world PState st)))
    + count_fields (is_failed (rs_item PState st)) l
    <= Z.of_nat (calls (trace (rs_world PState st'))).
Proof.
  induction l as [|[key value] l IH]; intros st Hnd.
  - exists st. unfold count_fields. simpl.
    split; [reflexivity|]. split; [lia|]. split; [lia|].
    split; [rewrite Z.ltb_irrefl; now rewrite orb_false_r|].
    split; [reflexivity|]. split; [reflexivity | lia].
  - inversion Hnd as [|? ? Hnotin Hnd']; subst.
    assert (Hother : forall k0 x, In (k0, x) l -> en k0 <> en key).
    { intros k0 x Hin Heq. apply suffix_inj in Heq. subst k0.
      apply Hnotin. change key with (fst (key, x)). now apply in_map. }
    cbn [for_each fst snd]. unfold bind. rewrite count_fields_cons.
    cbn [fst snd].
    destruct (is_failed (rs_item PState st) key value) eqn:Ef.
    + destruct (retry_field_failed key value st Ef)
        as (v & t & w' & -> & Hg & Et & Hcall & ->).
      destruct (str_eqb t v) eqn:Etv.
      * match goal with
        | |- context [for_each l _ ?s] =>
            destruct (IH s Hnd') as (st' & E & Hr & Hf & Hm & Hk & Hfr & Hc)
        end.
        cbn [rs_item fields_retried fields_fixed modified rs_world] in *.
        exists st'. split; [exact E|]. split; [lia|]. split; [lia|].
        split; [exact Hm|]. split; [exact Hk|]. split; [|lia].
        intros k Hk0. apply Hfr. intros k0 x Hin. apply (Hk0 k0 x). now right.
      * match goal with
        | |- context [for_each l _ ?s] =>
            destruct (IH s Hnd') as (st' & E & Hr & Hf & Hm & Hk & Hfr & Hc)
        end.
        cbn [rs_item fields_retried fields_fixed modified rs_world] in *.
        rewrite (count_fields_ext
                   (is_failed (dict_set (en key) (JStr t) (rs_item PState st)))
                   (is_failed (rs_item PState st))) in Hr, Hf, Hc.
        2,3,4: intros k0 x Hin; apply is_failed_frame;
               apply dict_get_set_other; apply (Hother k0 x Hin).
        exists st'. split; [exact E|]. split; [lia|]. split; [lia|].
        split; [|split; [|split]].
        -- rewrite Hm. simpl.
           destruct (Z.ltb_spec (fields_fixed PState st) (fields_fixed PState st'));
             [now rewrite orb_true_r | lia].
        -- rewrite Hk. apply keys_dict_set_present.
           apply dict_mem_true. eauto.
        -- intros k Hk0. rewrite Hfr.
           ++ apply dict_get_set_other. intros Heq.
              apply (Hk0 key (JStr v) (or_introl eq_refl)). now symmetry.
           ++ intros k0 x Hin. apply (Hk0 k0 x). now right.
        -- lia.
    + rewrite (retry_field_not_failed key value st Ef).
      destruct (IH st Hnd') as (st' & E & Hr & Hf & Hm & Hk & Hfr & Hc).
      exists st'. split; [exact E|]. split; [lia|]. split; [lia|].
      split; [exact Hm|]. split; [exact Hk|]. split; [|lia].
      intros k Hk0. apply Hfr. intros k0 x Hin. apply (Hk0 k0 x). now right.
Qed.

(** The loop over the records of a list of objects. *)
Lemma retry_elements_counts : forall (es : list json) (acc : retry_acc),
  records_wf es -> forallb is_obj es = true ->
  exists es' acc',
    retry_elements es acc = (Ok es', acc') /\
    acc_retried PState acc'
    = acc_retried PState acc + count_in_records is_failed es /\
    acc_fixed PState acc <= acc_fixed PState acc'
    <= acc_fixed PState acc + count_in_records is_failed es /\
    acc_modified PState acc'
    = acc_modified PState acc
      || (acc_fixed PState acc <? acc_fixed PState acc') /\
    Forall2 same_keys es es' /\
    Z.of_nat (calls (trace (acc_world PState acc)))
    + count_in_records is_failed es
    <= Z.of_nat (calls (trace (acc_world PState acc'))).
Proof.
  induction es as [|e es IH]; intros acc Hwf Hall.
  - exists [], acc. simpl. split; [reflexivity|]. split; [lia|]. split; [lia|].
    split; [rewrite Z.ltb_irrefl; now rewrite orb_false_r|].
    split; [constructor | lia].
  - cbn [forallb] in Hall. apply andb_true_iff in Hall. destruct Hall as [He Hall].
    destruct e as [ | b | z | lx | sx | elems | d ]; try discriminate.
    assert (Hwf' : records_wf es) by (intros d0 Hin; apply Hwf; now right).
    cbn [TranslationRetrier.retry_elements count_in_records]. unfold bind.
    unfold TranslationRetrier.retry_element.
    destruct (retry_loop_counts d
                (mkRetryState PState d (acc_retried PState acc)
                              (acc_fixed PState acc) (acc_modified PState acc)
                              (acc_world PState acc))
                (Hwf d (or_introl eq_refl)))
      as (st' & E & Hr & Hf & Hm & Hk & _ & Hc).
    cbv zeta. rewrite E.
    cbn [rs_item fields_retried fields_fixed modified rs_world] in *.
    match goal with
    | |- context [retry_elements es ?a] =>
        destruct (IH a Hwf' Hall) as (es' & acc' & -> & Hr' & Hf' & Hm' & Hk' & Hc')
    end.
    cbn [acc_retried acc_fixed acc_modified acc_world] in *.
    exists (JObj (rs_item PState st') :: es'), acc'.
    split; [reflexivity|]. split; [lia|]. split; [lia|].
    split; [|split; [|lia]].
    + rewrite Hm', Hm.
      destruct (acc_modified PState acc); [reflexivity|]. simpl.
      destruct (Z.ltb_spec (acc_fixed PState acc) (fields_fixed PState st'));
        destruct (Z.ltb_spec (fields_fixed PState st') (acc_fixed PState acc'));
        destruct (Z.ltb_spec (acc_fixed PState acc) (acc_fixed PState acc'));
        try reflexivity; lia.
    + constructor; [|exact Hk'].
      exists d, (rs_item PState st'). auto.
Qed.

(** [_retry_file] on a file that holds a list of objects: [w0] is the
    world when the loops are over, [fixed] the number of fields fixed. *)
Lemma retry_file_counts (file_path : str) (w : world) (es : list json) :
  fs_get file_path (fs w) = Some (Some (JArr es)) ->
  records_wf es -> forallb is_obj es = true ->
  exists fixed w0 es',
    0 <= fixed <= count_in_records is_failed es /\
    Forall2 same_keys es es' /\
    quiet w w0 /\
    Z.of_nat (calls (trace w)) + count_in_records is_failed es
    <= Z.of_nat (calls (trace w0)) /\
    _retry_file file_path w
    = if 0 <? fixed
      then (if encodable (JArr es')
            then Ok (mkRetryResult file_path (count_in_records is_failed es)
                                   fixed true)
            else Exc UnicodeEncodeError,
            after_dump file_path (JArr es') w0)
      else (Ok (mkRetryResult file_path (count_in_records is_failed es)
                              fixed false), w0).
Proof.
  intros Eload Hwf Hall.
  rewrite (retry_file_loaded PState provider file_path w _ Eload).
  cbn [iter_elems]. unfold ret.
  destruct (retry_elements_counts es (mkRetryAcc PState 0 0 false w) Hwf Hall)
    as (es' & acc' & E & Hr & Hf & Hm & Hk & Hc).
  destruct (retry_elements_spec PState provider es
              (mkRetryAcc PState 0 0 false w) Hwf)
    as (r2 & acc2 & E2 & Hq & _).
  rewrite E in E2. inversion E2; subst r2 acc2. rewrite E.
  cbn [acc_retried acc_fixed acc_modified acc_world orb rebuild] in *.
  exists (acc_fixed PState acc'), (acc_world PState acc'), es'.
  split; [lia|]. split; [exact Hk|]. split; [exact Hq|]. split; [exact Hc|].
  rewrite Hm, Hr. reflexivity.
Qed.


End RetryCounts.

(** ** The verifier *)

Section VerifyFacts.

Import TranslationVerifier.

Lemma verify_field_counts (d : dict) (key : str) (value : json) (c : counts) :
  verify_field d key value c
  = mkCounts (c_total c + (if is_source key value then 1 else 0))
             (c_translated c + (if is_translated_already d key value then 1 else 0))
             (c_failed c + (if is_failed d key value then 1 else 0)).
Proof.
  unfold verify_field, is_failed, is_translated_already, is_source,
    TranslationRetrier.failed_signature.
  fold (en key). destruct c as [t tr f]. cbn [c_total c_translated c_failed].
  destruct (endswith key config.TRANSLATION_SUFFIX); cbn [negb andb];
    [f_equal; lia|].
  destruct value as [ | b | z | lx | v | elems | fields ]; cbn [negb andb];
    try (f_equal; lia).
  destruct (truthy (strip v)); cbn [negb andb]; [|f_equal; lia].
  destruct (dict_mem (en key) d) eqn:Em; cbn [andb].
  - destruct (dict_get (en key) d) as [j|]; [|f_equal; lia].
    destruct (json_eq_str j v); f_equal; lia.
  - f_equal; lia.
Qed.

Lemma verify_fold_counts (d : dict) : forall (l : dict) (c : counts),
  fold_left (fun c kv => verify_field d (fst kv) (snd kv) c) l c
  = mkCounts (c_total c + count_fields is_source l)
             (c_translated c + count_fields (is_translated_already d) l)
             (c_failed c + count_fields (is_failed d) l).
Proof.
  induction l as [|[key value] l IH]; intros c.
  - destruct c. unfold count_fields. simpl. f_equal; lia.
  - cbn [fold_left fst snd]. rewrite IH, verify_field_counts.
    rewrite !count_fields_cons. cbn [fst snd c_total c_translated c_failed].
    f_equal; lia.
Qed.

Lemma verify_elements_counts : forall (es : list json) (c : counts),
  forallb is_obj es = true ->
  verify_elements es c
  = Some (mkCounts
            (c_total c + count_in_records (fun _ => is_source) es)
            (c_translated c + count_in_records is_translated_already es)
            (c_failed c + count_in_records is_failed es)).
Proof.
  induction es as [|e es IH]; intros c Hall.
  - destruct c. simpl. do 2 f_equal; lia.
  - cbn [forallb] in Hall. apply andb_true_iff in Hall. destruct Hall as [He Hall].
    destruct e; try discriminate.
    cbn [verify_elements count_in_records]. unfold verify_item.
    rewrite verify_fold_counts, (IH _ Hall).
    cbn [c_total c_translated c_failed]. do 2 f_equal; lia.
Qed.

Lemma verify_elements_not_objects : forall (es : list json) (c : counts),
  forallb is_obj es = false -> verify_elements es c = None.
Proof.
  induction es as [|e es IH]; intros c Hall; [discriminate|].
  cbn [forallb] in Hall. destruct e; try reflexivity.
  cbn [verify_elements]. apply IH. exact Hall.
Qed.

Lemma count_fields_nonneg (p : str -> json -> bool) (l : dict) :
  0 <= count_fields p l.
Proof. unfold count_fields. lia. Qed.

Lemma count_fields_le (p q : str -> json -> bool) (l : dict) :
  (forall k x, p k x = true -> q k x = true) ->
  count_fields p l <= count_fields q l.
Proof.
  intros H. induction l as [|[k x] l IH].
  - unfold count_fields. simpl. lia.
  - rewrite !count_fields_cons. cbn [fst snd].
    destruct (p k x) eqn:Ep; [rewrite (H _ _ Ep); lia|].
    destruct (q k x); lia.
Qed.

Lemma count_in_records_bounds (es : list json) :
  0 <= count_in_records is_failed es
  <= count_in_records is_translated_already es /\
  count_in_records is_translated_already es
  <= count_in_records (fun _ => is_source) es.
Proof.
  induction es as [|e es IH]; [simpl; lia|].
  destruct e; cbn [count_in_records]; try exact IH.
  pose proof (count_fields_nonneg (is_failed fields) fields).
  assert (count_fields (is_failed fields) fields
          <= count_fields (is_translated_already fields) fields).
  { apply count_fields_le. intros k x. unfold is_failed, is_translated_already.
    rewrite !andb_true_iff. intros [Hs Hf]. split; [exact Hs|].
    destruct x; try discriminate.
    unfold TranslationRetrier.failed_signature in Hf.
    apply andb_true_iff in Hf. tauto. }
  assert (count_fields (is_translated_already fields) fields
          <= count_fields is_source fields).
  { apply count_fields_le. intros k x. unfold is_translated_already.
    rewrite andb_true_iff. tauto. }
  lia.
Qed.

Lemma verify_file_spec {PState : Type} (file_path : str)
        (w : world PState) :
  ((exists s, _verify_file file_path w = Verified s) <->
   (exists es, fs_get file_path (fs w) = Some (Some (JArr es)) /\
               forallb is_obj es = true)) /\
  (forall data, fs_get file_path (fs w) = Some (Some data) ->
                (forall es, data <> JArr es) ->
                _verify_file file_path w = VerifyValueError) /\
  (forall s, _verify_file file_path w = Verified s ->
             filename s = file_path /\
             (exists es, fs_get file_path (fs w) = Some (Some (JArr es)) /\
                         total_items s = Z.of_nat (length es)) /\
             0 <= failed_fields s <= translated_fields s /\
             translated_fields s <= total_fields s).
Proof.
  unfold _verify_file.
  destruct (fs_get file_path (fs w)) as [[data|]|] eqn:Eload.
  2,3: split; [split; [intros [s H]; discriminate
                      | intros (es & H & _); discriminate]|];
       split; [intros data H; discriminate | intros s H; discriminate].
  destruct data as [ | b | z | lx | sx | elems | fields ];
    try (split; [split; [intros [s H]; discriminate
                        | intros (es & H & _); discriminate]|];
         split; [reflexivity | intros s H; discriminate]).
  destruct (forallb is_obj elems) eqn:Hall.
  - rewrite (verify_elements_counts elems _ Hall).
    split; [split; [intros _; exists elems; auto | intros _; eexists; reflexivity]|].
    split; [intros data H Hn; inversion H; subst; exfalso; now apply (Hn elems)|].
    intros s H. inversion H; subst s. cbn.
    pose proof (count_in_records_bounds elems).
    split; [reflexivity|]. split; [exists elems; auto | lia].
  - rewrite (verify_elements_not_objects elems _ Hall).
    split; [split; [intros [s H]; discriminate
                   | intros (es & H & Ho); inversion H; subst; congruence]|].
    split; [intros data H Hn; inversion H; subst; exfalso; now apply (Hn elems)|].
    intros s H. discriminate.
Qed.

(** X11. [_verify_file] returns statistics exactly when the file holds
    valid JSON whose top level is a list of objects; a top level that is
    not a list gives its [ValueError].  In the statistics [total_items]
    is the number of records and
    [0 <= failed_fields <= translated_fields <= total_fields]. *)
Theorem verify_file_report {PState : Type} (file_path : str)
        (w : world PState) :
  ((exists s, _verify_file file_path w = Verified s) <->
   (exists es, fs_get file_path (fs w) = Some (Some (JArr es)) /\
               forallb is_obj es = true)) /\
  (forall data, fs_get file_path (fs w) = Some (Some data) ->
                (forall es, data <> JArr es) ->
                _verify_file file_path w = VerifyValueError) /\
  (forall s, _verify_file file_path w = Verified s ->
             filename s = file_path /\
             (exists es, fs_get file_path (fs w) = Some (Some (JArr es)) /\
                         total_items s = Z.of_nat (length es)) /\
             0 <= failed_fields s <= translated_fields s /\
             translated_fields s <= total_fields s).
Proof. exact (verify_file_spec file_path w). Qed.

(** X12. On a file that holds a list of objects with distinct keys,
    whenever [_retry_file] returns a report, the number of fields it
    reports as retried is the number [_verify_file] reports as failed for
    the file as it was before the retry. *)
Theorem retry_agrees_with_verify
        (PState : Type) (provider : PState -> str -> PState * outcome)
        (file_path : str) (w w' : world PState) (es : list json)
        (res : TranslationRetrier.FileRetryResult) :
  fs_get file_path (fs w) = Some (Some (JArr es)) ->
  records_wf es -> forallb is_obj es = true ->
  TranslationRetrier._retry_file PState provider file_path w = (Ok res, w') ->
  exists s,
    _verify_file file_path w = Verified s /\
    TranslationRetrier.rr_fields_retried res = failed_fields s.
Proof.
  intros Eload Hwf Hall E.
  destruct (retry_file_counts PState provider file_path w es Eload Hwf Hall)
    as (fixed & w0 & es' & _ & _ & _ & _ & E0).
  rewrite E0 in E.
  unfold _verify_file. rewrite Eload, (verify_elements_counts es _ Hall).
  eexists. split; [reflexivity|]. cbn [failed_fields c_failed].
  destruct (0 <? fixed); [destruct (encodable (JArr es'))|];
    inversion E; subst res; cbn; lia.
Qed.

Lemma complete_record_counts (es : list json) :
  Forall complete_record es ->
  count_in_records is_translated_already es
  = count_in_records (fun _ => is_source) es.
Proof.
  induction 1 as [|e es (d & -> & Hd) _ IH]; [reflexivity|].
  cbn [count_in_records]. rewrite IH. f_equal.
  apply count_fields_ext. intros k x Hin. unfold is_translated_already.
  destruct (is_source k x) eqn:Es; [|reflexivity].
  destruct (is_source_str _ _ Es) as (v & -> & Hsrc).
  now rewrite (Hd k v Hin Hsrc).
Qed.

(** X13. After [process_file] has succeeded on a file that held a list,
    the verifier accepts the rewritten file and finds every candidate
    field translated: [translated_fields = total_fields], the number of
    records is the [total_items] the translation run reported, and
    [is_complete] holds exactly when no field is counted as failed. *)
Theorem verify_after_process
        (PState : Type) (provider : PState -> str -> PState * outcome)
        (file_path : str) (w w1 : world PState) (es : list json)
        (res1 : FileResult) :
  fs_get file_path (fs w) = Some (Some (JArr es)) ->
  process_file PState provider file_path w = (Ok res1, w1) ->
  success res1 = true ->
  exists s,
    _verify_file file_path w1 = Verified s /\
    translated_fields s = total_fields s /\
    total_items s = Stats.total_items (stats res1) /\
    is_complete s = (failed_fields s =? 0).
Proof.
  intros Eload E Hs.
  destruct (process_file_success_run PState provider file_path w w1 es res1
              Eload E Hs)
    as (es' & Hlen & Hc & _ & Eload1 & _ & Ht).
  assert (Hall' : forallb is_obj es' = true).
  { apply forallb_forall. intros e He. rewrite Forall_forall in Hc.
    destruct (Hc e He) as (d & -> & _). reflexivity. }
  exists
    (mkFileStats file_path (Z.of_nat (length es'))
       (0 + count_in_records (fun _ => is_source) es')
       (0 + count_in_records is_translated_already es')
       (0 + count_in_records is_failed es')).
  split; [|split; [|split]].
  - unfold _verify_file. rewrite Eload1.
    now rewrite (verify_elements_counts es' _ Hall').
  - cbn. now rewrite (complete_record_counts es' Hc).
  - cbn. rewrite Ht, Hlen. reflexivity.
  - unfold is_complete. cbn [translated_fields total_fields failed_fields].
    rewrite (complete_record_counts es' Hc), Z.eqb_refl. reflexivity.
Qed.

End VerifyFacts.

(** ** The fixer: what it leaves alone, and running it twice *)

Lemma In_dict_set (k k' : str) (x v : json) (d : dict) :
  In (k, x) (dict_set k' v d) -> (k, x) = (k', v) \/ In (k, x) d.
Proof.
  induction d as [|[k0 y] d IH]; simpl.
  - intros [H | []]. left. now symmetry.
  - destruct (str_eqb k0 k') eqn:E; simpl.
    + apply str_eqb_eq in E. subst k0. intros [H | H]; [left; now symmetry | auto].
    + intros [H | H]; [auto|]. destruct (IH H); auto.
Qed.

Lemma In_dict_set_other (k k' : str) (x v : json) (d : dict) :
  k <> k' -> In (k, x) d -> In (k, x) (dict_set k' v d).
Proof.
  intros Hne. induction d as [|[k0 y] d IH]; simpl; [tauto|].
  destruct (str_eqb k0 k') eqn:E; simpl.
  - apply str_eqb_eq in E. subst k0.
    intros [H | H]; [inversion H; congruence | auto].
  - intros [H | H]; auto.
Qed.

Lemma dict_mem_set (k k' : str) (v : json) (d : dict) :
  dict_mem k d = true -> dict_mem k (dict_set k' v d) = true.
Proof.
  intros H. apply dict_mem_true. apply dict_mem_true in H. destruct H as [x Hx].
  destruct (str_eqb k k') eqn:E.
  - apply str_eqb_eq in E. subst. exists v. apply dict_get_set_same.
  - apply str_eqb_neq in E. exists x. now rewrite dict_get_set_other.
Qed.

Lemma en_not_source (k k0 : str) :
  endswith k config.TRANSLATION_SUFFIX = false -> en k0 <> k.
Proof.
  intros He Heq. subst k. unfold en in He.
  rewrite endswith_suffix in He. discriminate.
Qed.

Section FixerMore.

Import NonTranslatableFixer.

Variable lower : str -> str.

Local Abbreviation fix_field := (fix_field lower).
Local Abbreviation fix_item := (fix_item lower).
Local Abbreviation fix_loop :=
  (fold_left (fun st kv => fix_field (fst kv) (snd kv) st)).

Lemma fix_field_keeps (key : str) (value : json) (st : fix_state) :
  (forall k x, In (k, x) (fx_item (fix_field key value st)) ->
               endswith k config.TRANSLATION_SUFFIX = false ->
               In (k, x) (fx_item st)) /\
  (forall k x, In (k, x) (fx_item st) ->
               endswith k config.TRANSLATION_SUFFIX = false ->
               In (k, x) (fx_item (fix_field key value st))) /\
  (forall k, dict_mem k (fx_item st) = true ->
             dict_mem k (fx_item (fix_field key value st)) = true) /\
  fixed_count st <= fixed_count (fix_field key value st) /\
  fx_modified (fix_field key value st)
  = fx_modified st || (fixed_count st <? fixed_count (fix_field key value st)).
Proof.
  destruct (fix_field_cases lower key value st) as [-> | (v & _ & ->)].
  - repeat split; auto; try lia.
    rewrite Z.ltb_irrefl. now rewrite orb_false_r.
  - cbn [fix_set fx_item fixed_count fx_modified]. split; [|split; [|split; [|split]]].
    + intros k x Hin He. destruct (In_dict_set _ _ _ _ _ Hin) as [Heq | H]; [|exact H].
      inversion Heq; subst. exfalso. now apply (en_not_source (en key) key).
    + intros k x Hin He. apply In_dict_set_other; [|exact Hin].
      intros ->. now apply (en_not_source (en key) key).
    + intros k Hk. now apply dict_mem_set.
    + lia.
    + destruct (Z.ltb_spec (fixed_count st) (fixed_count st + 1)); [|lia].
      now rewrite orb_true_r.
Qed.

Lemma fix_loop_keeps : forall (l : dict) (st : fix_state),
  (forall k x, In (k, x) (fx_item (fix_loop l st)) ->
               endswith k config.TRANSLATION_SUFFIX = false ->
               In (k, x) (fx_item st)) /\
  (forall k x, In (k, x) (fx_item st) ->
               endswith k config.TRANSLATION_SUFFIX = false ->
               In (k, x) (fx_item (fix_loop l st))) /\
  (forall k, dict_mem k (fx_item st) = true ->
             dict_mem k (fx_item (fix_loop l st)) = true) /\
  fixed_count st <= fixed_count (fix_loop l st) /\
  fx_modified (fix_loop l st)
  = fx_modified st || (fixed_count st <? fixed_count (fix_loop l st)).
Proof.
  induction l as [|[key value] l IH]; intros st; cbn [fold_left fst snd].
  - repeat split; auto; try lia.
    rewrite Z.ltb_irrefl. now rewrite orb_false_r.
  - destruct (IH (fix_field key value st)) as (A1 & A2 & A3 & A4 & A5).
    destruct (fix_field_keeps key value st) as (B1 & B2 & B3 & B4 & B5).
    split; [|split; [|split; [|split]]].
    + intros k x Hin He. apply B1; [|exact He]. now apply A1.
    + intros k x Hin He. apply A2; [|exact He]. now apply B2.
    + intros k Hk. apply A3. now apply B3.
    + lia.
    + rewrite A5, B5. destruct (fx_modified st); [reflexivity|]. simpl.
      destruct (Z.ltb_spec (fixed_count st) (fixed_count (fix_field key value st)));
        destruct (Z.ltb_spec (fixed_count (fix_field key value st))
                             (fixed_count (fix_loop l (fix_field key value st))));
        destruct (Z.ltb_spec (fixed_count st)
                             (fixed_count (fix_loop l (fix_field key value st))));
        try reflexivity; lia.
Qed.

(** X14. The fixer only writes derived keys.  From the record it is given
    to the record it leaves, every key that was present is still present,
    every key without the suffix has the value it had, the count of fixes
    does not go down, and [modified] is raised exactly when a fix was
    counted. *)
Theorem fixer_only_writes_derived (d : dict) (modified : bool) (count : Z) :
  let st := fix_item d modified count in
  (forall k, dict_mem k d = true -> dict_mem k (fx_item st) = true) /\
  (forall k, endswith k config.TRANSLATION_SUFFIX = false ->
             dict_get k (fx_item st) = dict_get k d) /\
  count <= fixed_count st /\
  fx_modified st = modified || (count <? fixed_count st).
Proof.
  intros st. subst st. unfold NonTranslatableFixer.fix_item.
  destruct (fix_loop_keeps d (mkFixState d modified count)) as (_ & _ & A3 & A4 & A5).
  split; [exact A3|]. split; [|split; [exact A4 | exact A5]].
  intros k He. rewrite (fix_loop_other lower k d).
  - reflexivity.
  - intros k0 x _. now apply en_not_source.
Qed.

Lemma fix_loop_stable : forall (l : dict) (st : fix_state),
  (forall k x, In (k, x) l -> fix_field k x st = st) ->
  fix_loop l st = st.
Proof.
  induction l as [|[key value] l IH]; intros st H; cbn [fold_left fst snd];
    [reflexivity|].
  rewrite (H key value (or_introl eq_refl)).
  apply IH. intros k x Hin. apply H. now right.
Qed.

(** The record the fixer leaves is a fixed point of the fixer. *)
Lemma fix_item_stable (d : dict) (m m2 : bool) (c c2 : Z) :
  wf_dict d ->
  fix_item (fx_item (fix_item d m c)) m2 c2
  = mkFixState (fx_item (fix_item d m c)) m2 c2.
Proof.
  intros Hwf. set (d' := fx_item (fix_item d m c)).
  unfold NonTranslatableFixer.fix_item at 1. apply fix_loop_stable.
  intros k x Hin.
  unfold NonTranslatableFixer.fix_field. fold (en k).
  destruct (endswith k config.TRANSLATION_SUFFIX) eqn:He; [reflexivity|].
  destruct x as [ | b | z | lx | v | elems | fields ]; try reflexivity.
  destruct (str_in (strip (lower v)) NON_TRANSLATABLE_VALUES) eqn:Hs;
    [|reflexivity].
  cbn [fx_item].
  assert (Hind : In (k, JStr v) d).
  { destruct (fix_loop_keeps d (mkFixState d m c)) as (A1 & _).
    apply (A1 k (JStr v) Hin He). }
  assert (Hg : dict_get (en k) d' = Some (JStr v))
    by (apply (fix_loop_sets lower k v d _ Hwf Hind He Hs)).
  rewrite Hg. cbn [json_eq_str]. now rewrite str_eqb_refl.
Qed.

Lemma fix_elements_stable : forall (es : list json) (m : bool) (c : Z),
  records_wf es -> forallb is_obj es = true ->
  exists es' m' c',
    fix_elements lower es m c = Ok (es', m', c') /\
    forall m2 c2, fix_elements lower es' m2 c2 = Ok (es', m2, c2).
Proof.
  induction es as [|e es IH]; intros m c Hwf Hall.
  - exists [], m, c. split; reflexivity.
  - cbn [forallb] in Hall. apply andb_true_iff in Hall. destruct Hall as [He Hall].
    destruct e as [ | b | z | lx | sx | elems | d ]; try discriminate.
    assert (Hwf' : records_wf es) by (intros d0 Hin; apply Hwf; now right).
    cbn [fix_elements].
    destruct (IH (fx_modified (fix_item d m c)) (fixed_count (fix_item d m c))
                 Hwf' Hall) as (es' & m' & c' & -> & Hst).
    do 3 eexists. split; [reflexivity|].
    intros m2 c2. cbn [fix_elements].
    rewrite (fix_item_stable d m m2 c c2 (Hwf d (or_introl eq_refl))).
    cbn [fx_item fx_modified fixed_count]. now rewrite Hst.
Qed.

(** [_fix_file] once the list is loaded and the loops are over. *)
Lemma fix_file_run {PState : Type} (file_path : str) (t : Z)
      (w : world PState) (es es' : list json) (m : bool) (c : Z) :
  fs_get file_path (fs w) = Some (Some (JArr es)) ->
  fix_elements lower es false 0 = Ok (es', m, c) ->
  _fix_file lower PState file_path (t, w)
  = if m
    then if encodable (JArr es')
         then (Ok true, (t + c, after_dump file_path (JArr es') w))
         else (Exc UnicodeEncodeError, (t, after_dump file_path (JArr es') w))
    else (Ok false, (t, w)).
Proof.
  intros H0 H1.
  unfold NonTranslatableFixer._fix_file, bind,
    NonTranslatableFixer.in_world, lift, load_json. cbn [snd fst].
  rewrite H0. cbn [snd fst]. rewrite H1. destruct m; [|reflexivity].
  rewrite dump_json_effect.
  destruct (encodable (JArr es')); reflexivity.
Qed.

Lemma fix_file_not_json {PState : Type} (file_path : str)
      (tw : Z * world PState) :
  fs_get file_path (fs (snd tw)) = Some None ->
  _fix_file lower PState file_path tw = (Exc JSONDecodeError, tw).
Proof.
  intros H. destruct tw as [t w]. cbn [snd] in H.
  unfold NonTranslatableFixer._fix_file, bind,
    NonTranslatableFixer.in_world, lift, load_json. cbn [snd fst].
  now rewrite H.
Qed.



(** X15. Running [_fix_file] a second time on a file that held a list of
    objects with distinct keys changes nothing.  If the first run
    returned, the second returns [False], writes nothing and leaves
    [total_fixed] as the first run left it.  If the first run raised (the
    rewrite met a string it could not encode), the file holds no valid
    JSON and the second run raises [JSONDecodeError] when loading it. *)
Theorem fix_file_twice {PState : Type} (file_path : str)
        (tw : Z * world PState) (es : list json) :
  fs_get file_path (fs (snd tw)) = Some (Some (JArr es)) ->
  records_wf es -> forallb is_obj es = true ->
  exists r tw1,
    _fix_file lower PState file_path tw = (r, tw1) /\
    match r with
    | Ok _ => _fix_file lower PState file_path tw1 = (Ok false, tw1)
    | Exc e =>
        e = UnicodeEncodeError /\
        _fix_file lower PState file_path tw1 = (Exc JSONDecodeError, tw1)
    | OutOfFuel => False
    end.
Proof.
  intros Eload Hwf Hall. destruct tw as [t w]. cbn [snd] in Eload.
  destruct (fix_elements_stable es false 0 Hwf Hall) as (es' & m & c & E & Hst).
  rewrite (fix_file_run file_path t w es es' m c Eload E).
  destruct m.
  - destruct (encodable (JArr es')) eqn:Henc.
    + do 2 eexists. split; [reflexivity|].
      apply (fix_file_run file_path _ _ es' es' false 0); [|apply Hst].
      unfold after_dump. cbn [fs]. rewrite Henc. apply fs_get_put_same.
    + do 2 eexists. split; [reflexivity|]. split; [reflexivity|].
      apply fix_file_not_json.
      unfold after_dump. cbn [snd fs]. rewrite Henc. apply fs_get_put_same.
  - do 2 eexists. split; [reflexivity|].
    apply (fix_file_run file_path t w es es' false c Eload E).
Qed.

End FixerMore.

Lemma count_fields_pos (p : str -> json -> bool) (l : dict) (k : str) (x : json) :
  In (k, x) l -> p k x = true -> 1 <= count_fields p l.
Proof.
  induction l as [|[k0 y] l IH]; intros Hin Hp; [destruct Hin|].
  rewrite count_fields_cons. cbn [fst snd].
  pose proof (count_fields_nonneg p l).
  destruct Hin as [Heq | Hin].
  - inversion Heq; subst. rewrite Hp. lia.
  - specialize (IH Hin Hp). destruct (p k0 y); lia.
Qed.

(** X16. What the fixer writes carries the failed signature.  A
    non-translatable source field of a record with distinct keys comes out
    of the fixer with a derived value equal to its own, so the verifier
    counts it as failed (and the retry run would send it to the
    provider). *)
Theorem fixer_output_reads_as_failed
        (lower : str -> str) (d : dict) (modified : bool) (count : Z)
        (key v : str) :
  wf_dict d -> In (key, JStr v) d -> source_field key v ->
  NonTranslatableFixer.str_in (strip (lower v))
    NonTranslatableFixer.NON_TRANSLATABLE_VALUES = true ->
  let d' := NonTranslatableFixer.fx_item
              (NonTranslatableFixer.fix_item lower d modified count) in
  In (key, JStr v) d' /\
  is_failed d' key (JStr v) = true /\
  forall c, TranslationVerifier.c_failed c + 1
            <= TranslationVerifier.c_failed (TranslationVerifier.verify_item d' c).
Proof.
  intros Hwf Hin Hsrc Hs d'.
  assert (Hin' : In (key, JStr v) d').
  { destruct (fix_loop_keeps lower d
                (NonTranslatableFixer.mkFixState d modified count))
      as (_ & A2 & _).
    apply A2; [exact Hin | apply Hsrc]. }
  assert (Hf : is_failed d' key (JStr v) = true).
  { unfold is_failed. rewrite (proj2 (is_source_iff key v) Hsrc). cbn [andb].
    unfold TranslationRetrier.failed_signature, dict_mem.
    unfold d'. unfold NonTranslatableFixer.fix_item.
    rewrite (fix_loop_sets lower key v d _ Hwf Hin (proj1 Hsrc) Hs).
    cbn [json_eq_str andb]. apply str_eqb_refl. }
  split; [exact Hin'|]. split; [exact Hf|].
  intros c. unfold TranslationVerifier.verify_item.
  rewrite verify_fold_counts. cbn [TranslationVerifier.c_failed].
  pose proof (count_fields_pos (is_failed d') d' key (JStr v) Hin' Hf). lia.
Qed.

Lemma fixer_output_reads_as_failed_witness :
  let d := [([102; 108; 97; 103]%N, JStr [116; 114; 117; 101]%N)] in
  let d' := NonTranslatableFixer.fx_item
              (NonTranslatableFixer.fix_item ascii_lower d false 0) in
  In ([102; 108; 97; 103]%N, JStr [116; 114; 117; 101]%N) d' /\
  is_failed d' [102; 108; 97; 103]%N (JStr [116; 114; 117; 101]%N) = true /\
  forall c, TranslationVerifier.c_failed c + 1
            <= TranslationVerifier.c_failed (TranslationVerifier.verify_item d' c).
Proof.
  intros d.
  apply (fixer_output_reads_as_failed ascii_lower d false 0
           [102; 108; 97; 103]%N [116; 114; 117; 101]%N).
  - repeat constructor. simpl. tauto.
  - left. reflexivity.
  - split; reflexivity.
  - reflexivity.
Defined.

Lemma fix_file_twice_witness :
  let file := [102]%N in
  let es := [JObj [([102; 108; 97; 103]%N, JStr [116; 114; 117; 101]%N)]] in
  let tw := (0, mkWorld tt [] [(file, Some (JArr es))]) in
  exists r tw1,
    NonTranslatableFixer._fix_file ascii_lower unit file tw = (r, tw1) /\
    match r with
    | Ok _ =>
        NonTranslatableFixer._fix_file ascii_lower unit file tw1
        = (Ok false, tw1)
    | Exc e =>
        e = UnicodeEncodeError /\
        NonTranslatableFixer._fix_file ascii_lower unit file tw1
        = (Exc JSONDecodeError, tw1)
    | OutOfFuel => False
    end.
Proof.
  intros file es tw.
  apply (fix_file_twice ascii_lower file tw es).
  - reflexivity.
  - intros d [Hd | []]. inversion Hd; subst. repeat constructor. simpl. tauto.
  - reflexivity.
Defined.


Lemma verify_file_report_witness :
  let file := [102]%N in
  let w := mkWorld tt [] [(file, Some (JObj [([97]%N, JStr [98]%N)]))] in
  TranslationVerifier._verify_file file w = TranslationVerifier.VerifyValueError.
Proof.
  intros file w.
  apply (proj1 (proj2 (verify_file_report file w))
           (JObj [([97]%N, JStr [98]%N)])).
  - reflexivity.
  - intros es H. discriminate H.
Defined.

Lemma retry_agrees_with_verify_witness :
  let file := [102]%N in
  let es := [JObj [([97]%N, JStr [1605]%N);
                   ([97; 45; 101; 110]%N, JStr [1605]%N)]] in
  let w := mkWorld tt [] [(file, Some (JArr es))] in
  exists s,
    TranslationVerifier._verify_file file w = TranslationVerifier.Verified s /\
    1 = TranslationVerifier.failed_fields s.
Proof.
  intros file es w.
  apply (retry_agrees_with_verify unit (constant [72; 105]%N) file w
           (snd (TranslationRetrier._retry_file unit (constant [72; 105]%N)
                   file w))
           es (TranslationRetrier.mkRetryResult file 1 1 true)).
  - reflexivity.
  - intros d [Hd | []]. inversion Hd; subst.
    repeat constructor; simpl; intuition discriminate.
  - reflexivity.
  - reflexivity.
Defined.

Lemma verify_after_process_witness :
  let file := [102]%N in
  let es := [JObj [([116]%N, JStr [1605; 1585]%N)]; JObj [([110]%N, JInt 3)]] in
  let w := mkWorld tt [] [(file, Some (JArr es))] in
  let run := process_file unit (constant [72; 105]%N) file w in
  exists s,
    TranslationVerifier._verify_file file (snd run)
    = TranslationVerifier.Verified s /\
    TranslationVerifier.translated_fields s = TranslationVerifier.total_fields s /\
    TranslationVerifier.total_items s = 2 /\
    TranslationVerifier.is_complete s
    = (TranslationVerifier.failed_fields s =? 0).
Proof.
  intros file es w run.
  apply (verify_after_process unit (constant [72; 105]%N) file w (snd run) es
           (mkFileResult file true (mkStats 2 1 0 0)));
    reflexivity.
Defined.

(** ** Non-translatable values *)

Section Passthrough.

Import NonTranslatableFixer.

Variable lower : str -> str.




End Passthrough.




(** [[{"flag": " True"}]] through [_fix_file]: the file is rewritten
    with ["flag-en": " True"] and no provider call is made. *)
Example fix_file_flag :
  let file := [102]%N in
  let flag := [102; 108; 97; 103]%N in
  let v := [32; 84; 114; 117; 101]%N in
  NonTranslatableFixer._fix_file ascii_lower unit file
    (0, mkWorld tt [] [(file, Some (JArr [JObj [(flag, JStr v)]]))])
  = (Ok true,
     (1, mkWorld tt
           [EvWrite file
              (JArr [JObj [(flag, JStr v);
                           (flag ++ config.TRANSLATION_SUFFIX, JStr v)]])]
           [(file,
             Some (JArr [JObj [(flag, JStr v);
                               (flag ++ config.TRANSLATION_SUFFIX, JStr v)]]))])).
Proof. reflexivity. Qed.

(** The fixer and the encoder: [[{"a": "yes", "b-en": "\ud800"}]].  The
    first run fixes ["a"], opens the file and raises; the second run
    cannot load what is left. *)
Example fix_file_lone_surrogate :
  let file := [102]%N in
  let es := [JObj [([97]%N, JStr [121; 101; 115]%N);
                   ([98; 45; 101; 110]%N, JStr [55296]%N)]] in
  let tw := (0, mkWorld tt [] [(file, Some (JArr es))]) in
  exists tw1,
    NonTranslatableFixer._fix_file ascii_lower unit file tw
    = (Exc UnicodeEncodeError, tw1) /\
    fs (snd tw1) = [(file, None)] /\ fst tw1 = 0 /\
    NonTranslatableFixer._fix_file ascii_lower unit file tw1
    = (Exc JSONDecodeError, tw1).
Proof.
  eexists. split; [vm_compute; reflexivity|].
  split; [reflexivity|]. split; reflexivity.
Qed.

(** ** The loops over the files *)

Section RunFacts.

Import TranslationRetrier.

Variable PState : Type.
Variable provider : PState -> str -> PState * outcome.

Local Abbreviation world := (world PState).
Local Abbreviation retry_field := (retry_field PState provider).
Local Abbreviation retry_elements := (retry_elements PState provider).
Local Abbreviation _retry_file := (_retry_file PState provider).

(** Without any assumption on the records: the loops of the retry run end
    normally or with a caught exception, and fix no more than they
    retry. *)
Lemma retry_fields_bounds : forall (l : dict) (st : retry_state PState),
  exists st',
    for_each l (fun kv => retry_field (fst kv) (snd kv)) st = (Ok tt, st') /\
    quiet (rs_world PState st) (rs_world PState st') /\
    0 <= fields_fixed PState st' - fields_fixed PState st
    <= fields_retried PState st' - fields_retried PState st.
Proof.
  induction l as [|[key value] l IH]; intros st.
  - exists st. split; [reflexivity|]. split; [apply quiet_refl | lia].
  - cbn [for_each fst snd]. unfold bind.
    destruct (is_failed (rs_item PState st) key value) eqn:Ef.
    + destruct (retry_field_failed PState provider key value st Ef)
        as (v & t & w' & -> & _ & Et & _ & ->).
      destruct (translate_ok PState provider v (rs_world PState st))
        as (t2 & w2 & Et2 & Hq0).
      rewrite Et in Et2. inversion Et2; subst t2 w2.
      destruct (str_eqb t v);
        match goal with
        | |- context [for_each l _ ?s] =>
            destruct (IH s) as (st' & E & Hq & Hb)
        end;
        cbn [rs_item fields_retried fields_fixed modified rs_world] in *;
        (exists st'; split; [exact E|];
         split; [eapply quiet_trans; eassumption | lia]).
    + rewrite (retry_field_not_failed PState provider key value st Ef).
      apply IH.
Qed.

Lemma retry_elements_bounds : forall (es : list json) (acc : retry_acc PState),
  exists r acc',
    retry_elements es acc = (r, acc') /\
    r <> OutOfFuel /\
    quiet (acc_world PState acc) (acc_world PState acc') /\
    0 <= acc_fixed PState acc' - acc_fixed PState acc
    <= acc_retried PState acc' - acc_retried PState acc.
Proof.
  induction es as [|e es IH]; intros acc.
  - exists (Ok []), acc. split; [reflexivity|]. split; [discriminate|].
    split; [apply quiet_refl | lia].
  - cbn [TranslationRetrier.retry_elements]. unfold bind.
    destruct e as [ | b | z | lx | sx | elems | d ];
      try (exists (Exc AttributeError), acc; split; [reflexivity|];
           split; [discriminate|]; split; [apply quiet_refl | lia]).
    unfold TranslationRetrier.retry_element.
    destruct (retry_fields_bounds d
                (mkRetryState PState d (acc_retried PState acc)
                              (acc_fixed PState acc) (acc_modified PState acc)
                              (acc_world PState acc)))
      as (st' & E & Hq1 & Hb1).
    cbv zeta. rewrite E.
    cbn [rs_item fields_retried fields_fixed modified rs_world] in *.
    match goal with
    | |- context [retry_elements es ?a] =>
        destruct (IH a) as (r & acc' & -> & Hne & Hq & Hb)
    end.
    cbn [acc_retried acc_fixed acc_modified acc_world] in *.
    destruct r as [es' | x | ]; [| |congruence];
      (do 2 eexists; split; [reflexivity|]; split; [discriminate|];
       split; [eapply quiet_trans; eassumption | lia]).
Qed.

Lemma retry_file_bounds (file_path : str) (w : world) :
  exists r w',
    _retry_file file_path w = (r, w') /\
    r <> OutOfFuel /\
    prefix_writes w w' file_path /\
    forall res, r = Ok res ->
                0 <= rr_fields_fixed res <= rr_fields_retried res.
Proof.
  destruct (fs_get file_path (fs w)) as [[data|]|] eqn:Eload.
  2,3: destruct (retry_file_not_loaded PState provider file_path w) as [e ->];
       [rewrite Eload; congruence |
        do 2 eexists; split; [reflexivity|]; split; [discriminate|];
        split; [left; reflexivity | intros res H; discriminate]].
  rewrite (retry_file_loaded PState provider file_path w data Eload).
  assert (Hrun : forall es : list json,
             exists r w',
               match retry_elements es (mkRetryAcc PState 0 0 false w) with
               | (Ok es', acc) =>
                   if acc_modified PState acc
                   then (if encodable (rebuild data es')
                         then Ok (mkRetryResult file_path
                                    (acc_retried PState acc)
                                    (acc_fixed PState acc) true)
                         else Exc UnicodeEncodeError,
                         after_dump file_path (rebuild data es')
                                    (acc_world PState acc))
                   else (Ok (mkRetryResult file_path (acc_retried PState acc)
                                           (acc_fixed PState acc) false),
                         acc_world PState acc)
               | (Exc e, acc) => (Exc e, acc_world PState acc)
               | (OutOfFuel, acc) => (OutOfFuel, acc_world PState acc)
               end = (r, w') /\
               r <> OutOfFuel /\
               prefix_writes w w' file_path /\
               forall res, r = Ok res ->
                           0 <= rr_fields_fixed res <= rr_fields_retried res).
  { intros es.
    destruct (retry_elements_bounds es (mkRetryAcc PState 0 0 false w))
      as (r & acc' & -> & Hne & [Hqf Hqw] & Hb).
    cbn [acc_retried acc_fixed acc_modified acc_world] in *.
    destruct r as [es' | x | ]; [| |congruence].
    - destruct (acc_modified PState acc').
      + do 2 eexists. split; [reflexivity|].
        split; [destruct (encodable (rebuild data es')); discriminate|].
        split; [right; unfold after_dump; cbn [trace];
                rewrite writes_app, Hqw; reflexivity|].
        intros res H. destruct (encodable (rebuild data es'));
          inversion H; subst res; cbn; lia.
      + do 2 eexists. split; [reflexivity|]. split; [discriminate|].
        split; [left; exact Hqw|].
        intros res H. inversion H; subst res. cbn. lia.
    - do 2 eexists. split; [reflexivity|]. split; [discriminate|].
      split; [left; exact Hqw | intros res H; discriminate]. }
  destruct data as [ | b | z | lx | sx | elems | fields ]; cbn [iter_elems];
    unfold raise, ret;
    try (do 2 eexists; split; [reflexivity|]; split; [discriminate|];
         split; [left; reflexivity | intros res H; discriminate]);
    apply Hrun.
Qed.

Lemma retry_loop_totals : forall (json_files : list str)
                                 (stats : Runs.RetryStats) (w : world),
  exists stats' w' ws,
    Runs.retry_loop PState provider json_files stats w = (Ok stats', w') /\
    writes (trace w') = writes (trace w) ++ ws /\ incl ws json_files /\
    0 <= Runs.fields_fixed stats' - Runs.fields_fixed stats /\
    Runs.fields_still_failed stats' - Runs.fields_still_failed stats
    = (Runs.fields_retried stats' - Runs.fields_retried stats)
      - (Runs.fields_fixed stats' - Runs.fields_fixed stats) /\
    0 <= Runs.fields_still_failed stats' - Runs.fields_still_failed stats /\
    0 <= Runs.files_processed stats' - Runs.files_processed stats
    <= Z.of_nat (length json_files) /\
    Runs.files_processed stats' - Runs.files_processed stats
    <= Runs.fields_retried stats' - Runs.fields_retried stats.
Proof.
  induction json_files as [|f rest IH]; intros stats w.
  - exists stats, w, []. split; [reflexivity|]. rewrite app_nil_r.
    split; [reflexivity|]. split; [apply incl_refl|]. cbn [length]. lia.
  - cbn [Runs.retry_loop].
    destruct (retry_file_bounds f w) as (r & w1 & -> & Hne & Hw & Hb).
    assert (Hws : exists ws1, writes (trace w1) = writes (trace w) ++ ws1 /\
                              incl ws1 [f]).
    { destruct Hw as [Hw | Hw].
      - exists []. rewrite app_nil_r. split; [exact Hw | intros x []].
      - exists [f]. split; [exact Hw | apply incl_refl]. }
    destruct Hws as (ws1 & Hws1 & Hincl1).
    assert (Hstep : forall stats1,
               0 <= Runs.fields_fixed stats1 - Runs.fields_fixed stats ->
               Runs.fields_still_failed stats1 - Runs.fields_still_failed stats
               = (Runs.fields_retried stats1 - Runs.fields_retried stats)
                 - (Runs.fields_fixed stats1 - Runs.fields_fixed stats) ->
               0 <= Runs.fields_still_failed stats1
                    - Runs.fields_still_failed stats ->
               0 <= Runs.files_processed stats1 - Runs.files_processed stats <= 1 ->
               Runs.files_processed stats1 - Runs.files_processed stats
               <= Runs.fields_retried stats1 - Runs.fields_retried stats ->
               exists stats' w' ws,
                 Runs.retry_loop PState provider rest stats1 w1 = (Ok stats', w') /\
                 writes (trace w') = writes (trace w) ++ ws /\
                 incl ws (f :: rest) /\
                 0 <= Runs.fields_fixed stats' - Runs.fields_fixed stats /\
                 Runs.fields_still_failed stats' - Runs.fields_still_failed stats
                 = (Runs.fields_retried stats' - Runs.fields_retried stats)
                   - (Runs.fields_fixed stats' - Runs.fields_fixed stats) /\
                 0 <= Runs.fields_still_failed stats'
                      - Runs.fields_still_failed stats /\
                 0 <= Runs.files_processed stats' - Runs.files_processed stats
                 <= Z.of_nat (length (f :: rest)) /\
                 Runs.files_processed stats' - Runs.files_processed stats
                 <= Runs.fields_retried stats' - Runs.fields_retried stats).
    { intros stats1 H1 H2 H3 H4 H5.
      destruct (IH stats1 w1) as (stats' & w' & ws & E & Hws & Hincl & A1 & A2 & A3 & A4 & A5).
      exists stats', w', (ws1 ++ ws). split; [exact E|].
      split; [rewrite Hws, Hws1; now rewrite app_assoc|].
      split.
      - intros x Hx. apply in_app_or in Hx. destruct Hx as [Hx | Hx].
        + left. destruct (Hincl1 x Hx) as [-> | []]. reflexivity.
        + right. now apply Hincl.
      - cbn [length]. rewrite Nat2Z.inj_succ. lia. }
    destruct r as [res | x | ]; [| |congruence].
    + specialize (Hb res eq_refl).
      destruct (Z.gtb_spec (rr_fields_retried res) 0) as [Hpos | Hzero].
      * apply Hstep; cbn; lia.
      * apply Hstep; lia.
    + apply Hstep; lia.
Qed.

(** X17. [retry_all_files] never raises, whatever the files hold: a file
    that cannot be loaded or is not a list of objects is passed over and
    the later files are still visited.  Only listed files are written.  In
    the totals, [fields_retried = fields_fixed + fields_still_failed] with
    both parts non-negative, and [files_processed] is at most the number
    of files and at most [fields_retried]. *)
Theorem retry_all_files_totals (json_files : list str) (w : world) :
  exists stats w' ws,
    Runs.retry_all_files PState provider json_files w = (Ok stats, w') /\
    writes (trace w') = writes (trace w) ++ ws /\ incl ws json_files /\
    Runs.fields_retried stats
    = Runs.fields_fixed stats + Runs.fields_still_failed stats /\
    0 <= Runs.fields_fixed stats /\ 0 <= Runs.fields_still_failed stats /\
    0 <= Runs.files_processed stats <= Z.of_nat (length json_files) /\
    Runs.files_processed stats <= Runs.fields_retried stats.
Proof.
  unfold Runs.retry_all_files.
  destruct (retry_loop_totals json_files (Runs.mkRetryStats 0 0 0 0) w)
    as (stats & w' & ws & E & Hws & Hincl & A1 & A2 & A3 & A4 & A5).
  cbn in A1, A2, A3, A4, A5.
  exists stats, w', ws. split; [exact E|]. split; [exact Hws|].
  split; [exact Hincl|]. lia.
Qed.

Lemma process_loop_spec : forall (json_files : list str)
                                 (acc : list FileResult) (w : world),
  exists results w' ws,
    Runs.process_loop PState provider json_files acc w
    = (Ok (acc ++ results), w') /\
    map filename results = json_files /\
    writes (trace w') = writes (trace w) ++ ws /\
    incl ws json_files /\
    incl (map filename (filter success results)) ws /\
    (length (filter success results) <= length ws <= length json_files)%nat.
Proof.
  induction json_files as [|f rest IH]; intros acc w.
  - exists [], w, []. cbn. rewrite !app_nil_r.
    repeat split; auto using incl_refl.
  - cbn [Runs.process_loop]. unfold bind.
    destruct (process_file_spec PState provider f w)
      as (res & w1 & E & Hn & Hcases).
    rewrite E.
    destruct (IH (acc ++ [res]) w1)
      as (results & w' & ws & -> & Hmap & Hws & Hincl & Hsucc & Hlen).
    destruct Hcases as [(Hs & Hw & _) | (data & data' & _ & _ & Hw & _ & Hs)].
    + exists (res :: results), w', ws. rewrite <- app_assoc.
      split; [reflexivity|]. split; [cbn; now rewrite Hn, Hmap|].
      split; [now rewrite Hws, Hw|].
      split; [intros x Hx; right; now apply Hincl|].
      cbn [filter]. rewrite Hs. split; [exact Hsucc|]. cbn [length]. lia.
    + exists (res :: results), w', (f :: ws). rewrite <- app_assoc.
      split; [reflexivity|]. split; [cbn; now rewrite Hn, Hmap|].
      split; [rewrite Hws, Hw, <- app_assoc; reflexivity|].
      split; [intros x [Hx | Hx]; [now left | right; now apply Hincl]|].
      cbn [filter]. destruct (success res); cbn [map length].
      * split; [|lia]. rewrite Hn.
        intros x [Hx | Hx]; [now left | right; now apply Hsucc].
      * split; [|lia]. intros x Hx. right. now apply Hsucc.
Qed.

(** X18. [process_files] never raises and gives one result for every
    file, in the order of the listing, even when earlier files fail.  It
    opens only listed files for writing, and every file whose result is a
    success is among them: the number of successes is at most the number
    of files opened for writing (a rewrite that fails in the encoder
    leaves a file opened and a failure reported), which is at most the
    number of files. *)
Theorem process_files_results (json_files : list str) (w : world) :
  exists results w' ws,
    Runs.process_files PState provider json_files w = (Ok results, w') /\
    map filename results = json_files /\
    writes (trace w') = writes (trace w) ++ ws /\
    incl ws json_files /\
    incl (map filename (filter success results)) ws /\
    Runs.successful_files results <= Z.of_nat (length ws)
    <= Z.of_nat (length json_files).
Proof.
  unfold Runs.process_files.
  destruct (process_loop_spec json_files [] w)
    as (results & w' & ws & E & Hmap & Hws & Hincl & Hsucc & Hlen).
  exists results, w', ws. split; [exact E|]. split; [exact Hmap|].
  split; [exact Hws|]. split; [exact Hincl|]. split; [exact Hsucc|].
  unfold Runs.successful_files. lia.
Qed.

End RunFacts.

(** ** The fixer and the verifier over a directory *)

Section FixRunFacts.

Import NonTranslatableFixer.

Variable lower : str -> str.
Variable PState : Type.

Lemma fix_elements_count : forall (es es' : list json) (m m' : bool) (c c' : Z),
  fix_elements lower es m c = Ok (es', m', c') ->
  c <= c' /\ m' = m || (c <? c').
Proof.
  induction es as [|e es IH]; intros es' m m' c c' H.
  - inversion H; subst. split; [lia|].
    rewrite Z.ltb_irrefl. now rewrite orb_false_r.
  - destruct e as [ | b | z | lx | sx | elems | d ]; try discriminate.
    cbn [fix_elements] in H.
    destruct (fix_elements lower es (fx_modified (fix_item lower d m c))
                (fixed_count (fix_item lower d m c)))
      as [[[es1 m1] c1] | x | ] eqn:E; try discriminate.
    inversion H; subst. destruct (IH _ _ _ _ _ E) as [Hc Hm].
    destruct (fix_loop_keeps lower d (mkFixState d m c)) as (_ & _ & _ & A4 & A5).
    fold (fix_item lower d m c) in A4, A5. cbn [fixed_count fx_modified] in A4, A5.
    split; [lia|]. rewrite Hm, A5. destruct m; [reflexivity|]. simpl.
    destruct (Z.ltb_spec c (fixed_count (fix_item lower d false c)));
      destruct (Z.ltb_spec (fixed_count (fix_item lower d false c)) c');
      destruct (Z.ltb_spec c c'); try reflexivity; lia.
Qed.

(** [_fix_file] on any file: it answers [True] and has rewritten the
    file, with [total_fixed] grown; or the rewrite raised and the file was
    opened all the same; or it has changed nothing. *)
Lemma fix_file_spec (file_path : str) (t : Z) (w : world PState) :
  exists r t' w',
    _fix_file lower PState file_path (t, w) = (r, (t', w')) /\
    prov w' = prov w /\ calls (trace w') = calls (trace w) /\
    ((r = Ok true /\ writes (trace w') = writes (trace w) ++ [file_path] /\
      t < t') \/
     (r = Exc UnicodeEncodeError /\
      writes (trace w') = writes (trace w) ++ [file_path] /\ t' = t) \/
     (r <> Ok true /\ w' = w /\ t' = t)).
Proof.
  assert (Hsame : forall r : result bool,
             r <> Ok true ->
             exists r0 t' w',
               (r, (t, w)) = (r0, (t', w')) /\
               prov w' = prov w /\ calls (trace w') = calls (trace w) /\
               ((r0 = Ok true /\
                 writes (trace w') = writes (trace w) ++ [file_path] /\ t < t') \/
                (r0 = Exc UnicodeEncodeError /\
                 writes (trace w') = writes (trace w) ++ [file_path] /\ t' = t) \/
                (r0 <> Ok true /\ w' = w /\ t' = t))).
  { intros r Hr. do 3 eexists. split; [reflexivity|]. split; [reflexivity|].
    split; [reflexivity|]. right. right. auto. }
  destruct (fs_get file_path (fs w)) as [[data|]|] eqn:Eload.
  2,3: unfold _fix_file, bind, in_world, lift, load_json; cbn [snd fst];
       rewrite Eload; apply Hsame; discriminate.
  destruct data as [ | b | z | lx | sx | elems | fields ];
    try (unfold _fix_file, bind, in_world, lift, load_json; cbn [snd fst];
         rewrite Eload; apply Hsame; discriminate).
  destruct (fix_elements lower elems false 0) as [[[es' m] c] | x | ] eqn:E.
  - rewrite (fix_file_run lower file_path t w elems es' m c Eload E).
    destruct (fix_elements_count _ _ _ _ _ _ E) as [Hc Hm]. cbn [orb] in Hm.
    destruct m; [|apply Hsame; discriminate].
    symmetry in Hm. apply Z.ltb_lt in Hm.
    destruct (encodable (JArr es')).
    + do 3 eexists. split; [reflexivity|]. unfold after_dump. cbn [prov trace].
      split; [reflexivity|]. split; [rewrite calls_app; simpl; lia|].
      left. split; [reflexivity|]. split; [now rewrite writes_app | lia].
    + do 3 eexists. split; [reflexivity|]. unfold after_dump. cbn [prov trace].
      split; [reflexivity|]. split; [rewrite calls_app; simpl; lia|].
      right. left. split; [reflexivity|]. split; [now rewrite writes_app | auto].
  - unfold _fix_file, bind, in_world, lift, load_json; cbn [snd fst].
    rewrite Eload. cbn [snd fst]. rewrite E. apply Hsame. discriminate.
  - unfold _fix_file, bind, in_world, lift, load_json; cbn [snd fst].
    rewrite Eload. cbn [snd fst]. rewrite E. apply Hsame. discriminate.
Qed.

Lemma fix_loop_files : forall (json_files : list str) (fx : Runs.fixer)
                              (w : world PState),
  exists ws,
    let out := Runs.fix_loop lower PState json_files fx w in
    writes (trace (snd out)) = writes (trace w) ++ ws /\
    incl ws json_files /\
    Runs.files_modified fx <= Runs.files_modified (fst out)
    <= Runs.files_modified fx + Z.of_nat (length ws) /\
    Runs.total_fixed fx
    + (Runs.files_modified (fst out) - Runs.files_modified fx)
    <= Runs.total_fixed (fst out) /\
    prov (snd out) = prov w /\ calls (trace (snd out)) = calls (trace w).
Proof.
  induction json_files as [|f rest IH]; intros fx w.
  - exists []. cbn. rewrite app_nil_r.
    split; [reflexivity|]. split; [apply incl_refl|]. repeat split; lia.
  - cbn [Runs.fix_loop].
    destruct (fix_file_spec f (Runs.total_fixed fx) w)
      as (r & t' & w' & -> & Hp & Hc & Hcases).
    destruct Hcases as [(-> & Hw & Ht) | [(-> & Hw & ->) | (Hne & -> & ->)]].
    + destruct (IH (Runs.mkFixer t' (Runs.files_modified fx + 1)) w')
        as (ws & H1 & H2 & H3 & H4 & H5 & H6).
      exists (f :: ws). cbv zeta in *. cbn [Runs.total_fixed Runs.files_modified] in *.
      split; [rewrite H1, Hw, <- app_assoc; reflexivity|].
      split; [intros x [-> | Hx]; [now left | right; now apply H2]|].
      cbn [length]. rewrite Nat2Z.inj_succ.
      split; [lia|]. split; [lia|]. split; congruence.
    + destruct (IH (Runs.mkFixer (Runs.total_fixed fx) (Runs.files_modified fx)) w')
        as (ws & H1 & H2 & H3 & H4 & H5 & H6).
      exists (f :: ws). cbv zeta in *. cbn [Runs.total_fixed Runs.files_modified] in *.
      split; [rewrite H1, Hw, <- app_assoc; reflexivity|].
      split; [intros x [-> | Hx]; [now left | right; now apply H2]|].
      cbn [length]. rewrite Nat2Z.inj_succ.
      split; [lia|]. split; [lia|]. split; congruence.
    + assert (Hsame : Runs.fix_loop lower PState rest
                        (Runs.mkFixer (Runs.total_fixed fx) (Runs.files_modified fx)) w
                      = match r with
                        | Ok true =>
                            Runs.fix_loop lower PState rest
                              (Runs.mkFixer (Runs.total_fixed fx)
                                            (Runs.files_modified fx + 1)) w
                        | _ =>
                            Runs.fix_loop lower PState rest
                              (Runs.mkFixer (Runs.total_fixed fx)
                                            (Runs.files_modified fx)) w
                        end).
      { destruct r as [[|] | x | ]; try reflexivity. congruence. }
      rewrite <- Hsame.
      destruct (IH (Runs.mkFixer (Runs.total_fixed fx) (Runs.files_modified fx)) w)
        as (ws & H1 & H2 & H3 & H4 & H5 & H6).
      exists ws. cbv zeta in *. cbn [Runs.total_fixed Runs.files_modified] in *.
      split; [exact H1|]. split; [intros x Hx; right; now apply H2|].
      auto.
Qed.

(** X19. [fix_all_files] never calls the provider and never opens for
    writing the metadata file 'filename_mapping.json' nor any file
    outside the listing.  [files_modified] grows by at most the number of
    files opened for writing (a rewrite that fails in the encoder is not
    counted), and [total_fixed] grows by at least one for each file
    counted as modified. *)
Theorem fix_all_files_report (json_files : list str) (fx : Runs.fixer)
        (w : world PState) :
  exists ws,
    let out := Runs.fix_all_files lower PState json_files fx w in
    writes (trace (snd out)) = writes (trace w) ++ ws /\
    (forall f, In f ws ->
               In f json_files /\ f <> TranslationVerifier.MAPPING_NAME) /\
    Runs.files_modified fx <= Runs.files_modified (fst out)
    <= Runs.files_modified fx + Z.of_nat (length ws) /\
    Runs.total_fixed fx
    + (Runs.files_modified (fst out) - Runs.files_modified fx)
    <= Runs.total_fixed (fst out) /\
    prov (snd out) = prov w /\ calls (trace (snd out)) = calls (trace w).
Proof.
  unfold Runs.fix_all_files.
  destruct (fix_loop_files
              (filter (fun f => negb (str_eqb f TranslationVerifier.MAPPING_NAME))
                      json_files) fx w)
    as (ws & H1 & H2 & H3 & H4 & H5 & H6).
  exists ws. cbv zeta in *. split; [exact H1|]. split; [|auto].
  intros f Hf. apply H2 in Hf. apply filter_In in Hf. destruct Hf as [Hin Hne].
  split; [exact Hin|]. apply negb_true_iff in Hne. now apply str_eqb_neq.
Qed.

End FixRunFacts.

Section VerifyRunFacts.

Import TranslationVerifier.

Variable PState : Type.

Lemma verify_loop_spec : forall (json_files : list str) (w : world PState)
                                (acc : AggregateStats),
  let out := verify_loop json_files w acc in
  exists new,
    file_stats out = file_stats acc ++ new /\
    (length new <= length json_files)%nat /\
    Forall (fun s => In (filename s) json_files /\
                     filename s <> MAPPING_NAME /\
                     _verify_file (filename s) w = Verified s) new /\
    0 <= agg_failed_fields out - agg_failed_fields acc
    <= agg_translated_fields out - agg_translated_fields acc /\
    agg_translated_fields out - agg_translated_fields acc
    <= agg_total_fields out - agg_total_fields acc /\
    0 <= agg_total_items out - agg_total_items acc.
Proof.
  induction json_files as [|f rest IH]; intros w acc; cbv zeta;
    cbn [verify_loop].
  - exists []. rewrite app_nil_r. split; [reflexivity|].
    split; [cbn [length]; lia|]. split; [constructor | lia].
  - assert (Hskip : let out := verify_loop rest w acc in
              exists new,
                file_stats out = file_stats acc ++ new /\
                (length new <= length (f :: rest))%nat /\
                Forall (fun s => In (filename s) (f :: rest) /\
                                 filename s <> MAPPING_NAME /\
                                 _verify_file (filename s) w = Verified s) new /\
                0 <= agg_failed_fields out - agg_failed_fields acc
                <= agg_translated_fields out - agg_translated_fields acc /\
                agg_translated_fields out - agg_translated_fields acc
                <= agg_total_fields out - agg_total_fields acc /\
                0 <= agg_total_items out - agg_total_items acc).
    { destruct (IH w acc) as (new & H1 & H2 & H3 & H4).
      exists new. split; [exact H1|]. split; [cbn [length]; lia|].
      split; [|exact H4].
      eapply Forall_impl; [|exact H3]. cbn beta. intros s (A & B & C).
      split; [now right | auto]. }
    destruct (str_eqb f MAPPING_NAME) eqn:Em; [exact Hskip|].
    destruct (_verify_file f w) as [s | | e] eqn:Ev; try exact Hskip.
    destruct (verify_file_spec f w) as (_ & _ & Hb).
    destruct (Hb s Ev) as (Hn & (es & _ & Hti) & Hb1 & Hb2).
    match goal with
    | |- context [verify_loop rest w ?a] =>
        destruct (IH w a) as (new & H1 & H2 & H3 & H4 & H5 & H6)
    end.
    cbv zeta in *.
    cbn [file_stats agg_failed_fields agg_translated_fields agg_total_fields
         agg_total_items] in *.
    exists (s :: new). split; [rewrite H1, <- app_assoc; reflexivity|].
    split; [cbn [length]; lia|]. split; [|lia].
    constructor.
    + rewrite Hn. split; [now left|]. split; [|exact Ev].
      now apply str_eqb_neq.
    + eapply Forall_impl; [|exact H3]. cbn beta. intros s0 (A & B & C).
      split; [now right | auto].
Qed.

(** X20. [verify_all_files] keeps the statistics of exactly the listed
    files, other than 'filename_mapping.json', that [_verify_file]
    accepts, and passes over the others without stopping.  In its totals
    [total_files] is the number of statistics kept and
    [0 <= failed_fields <= translated_fields <= total_fields]. *)
Theorem verify_all_files_report (json_files : list str) (w : world PState) :
  let agg := verify_all_files json_files w in
  agg_total_files agg = Z.of_nat (length (file_stats agg)) /\
  (length (file_stats agg) <= length json_files)%nat /\
  Forall (fun s => In (filename s) json_files /\
                   filename s <> MAPPING_NAME /\
                   _verify_file (filename s) w = Verified s) (file_stats agg) /\
  0 <= agg_failed_fields agg <= agg_translated_fields agg /\
  agg_translated_fields agg <= agg_total_fields agg /\
  0 <= agg_total_items agg.
Proof.
  unfold verify_all_files.
  destruct (verify_loop_spec json_files w (mkAggregate 0 0 0 0 0 []))
    as (new & H1 & H2 & H3 & H4 & H5 & H6).
  cbv zeta in *.
  cbn [file_stats agg_failed_fields agg_translated_fields agg_total_fields
       agg_total_items agg_total_files app] in *.
  rewrite H1. split; [reflexivity|]. split; [exact H2|]. split; [exact H3|]. lia.
Qed.

End VerifyRunFacts.

(** ** The numbering of the files *)

Section Numbering.

Import FileNumberer.
Local Open Scope nat_scope.

Lemma digits_value_app (a : str) (c : char) :
  digits_value (a ++ [c]) = (10 * digits_value a + (N.to_nat c - 48))%nat.
Proof.
  induction a as [|x a IH]; cbn [app digits_value length].
  - simpl. lia.
  - rewrite IH, length_app. cbn [length]. rewrite Nat.add_1_r, Nat.pow_succ_r'.
    ring.
Qed.

Lemma digits_fuel_spec : forall (fuel n : nat),
  (n < fuel)%nat ->
  Forall is_digit (digits_fuel fuel n) /\
  digits_fuel fuel n <> [] /\
  digits_value (digits_fuel fuel n) = n /\
  (n < 10 ^ length (digits_fuel fuel n))%nat /\
  (1 <= n -> 10 ^ (length (digits_fuel fuel n) - 1) <= n)%nat.
Proof.
  induction fuel as [|fuel IH]; intros n Hn; [lia|].
  cbn [digits_fuel]. destruct (Nat.ltb_spec n 10) as [Hlt | Hge].
  - split; [|split; [|split; [|split]]].
    + constructor; [unfold is_digit; lia | constructor].
    + discriminate.
    + cbn [digits_value length]. rewrite Nat2N.id. simpl. lia.
    + cbn [length]. simpl. lia.
    + cbn [length]. simpl. lia.
  - pose proof (Nat.div_mod_eq n 10) as Hdm.
    pose proof (Nat.mod_upper_bound n 10 ltac:(lia)) as Hmod.
    assert (Hq : (n / 10 < fuel)%nat) by lia.
    assert (Hq1 : (1 <= n / 10)%nat) by lia.
    destruct (IH (n / 10) Hq) as (A1 & A2 & A3 & A4 & A5).
    specialize (A5 Hq1).
    set (s := digits_fuel fuel (n / 10)) in *.
    assert (Hlen : (1 <= length s)%nat) by (destruct s; [congruence | simpl; lia]).
    split; [|split; [|split; [|split]]].
    + apply Forall_app. split; [exact A1|].
      constructor; [unfold is_digit; lia | constructor].
    + destruct s; discriminate.
    + rewrite digits_value_app, A3, Nat2N.id. lia.
    + rewrite length_app. cbn [length]. rewrite Nat.add_1_r, Nat.pow_succ_r'. lia.
    + intros _. rewrite length_app. cbn [length].
      replace (length s + 1 - 1)%nat with (S (length s - 1)) by lia.
      rewrite Nat.pow_succ_r'. lia.
Qed.

Lemma str_of_nat_spec (n : nat) :
  Forall is_digit (str_of_nat n) /\
  str_of_nat n <> [] /\
  digits_value (str_of_nat n) = n /\
  (n < 10 ^ length (str_of_nat n))%nat /\
  (1 <= n -> 10 ^ (length (str_of_nat n) - 1) <= n)%nat.
Proof. apply digits_fuel_spec. lia. Qed.

Lemma str_of_nat_length_mono (i n : nat) :
  (i <= n)%nat -> (length (str_of_nat i) <= length (str_of_nat n))%nat.
Proof.
  intros Hle.
  destruct (str_of_nat_spec i) as (_ & Hi0 & _ & _ & Hi).
  destruct (str_of_nat_spec n) as (_ & Hn0 & _ & Hn & _).
  assert (1 <= length (str_of_nat n))%nat
    by (destruct (str_of_nat n); [congruence | simpl; lia]).
  destruct (Nat.eq_dec i 0) as [-> | Hpos]; [exact H|].
  specialize (Hi ltac:(lia)).
  assert (Hpow : (10 ^ (length (str_of_nat i) - 1)
                  < 10 ^ length (str_of_nat n))%nat) by lia.
  apply Nat.pow_lt_mono_r_iff in Hpow; lia.
Qed.

Lemma zfill_digits (s : str) (width : nat) :
  Forall is_digit s -> zfill s width = repeat 48%N (width - length s) ++ s.
Proof.
  intros H. unfold zfill. destruct s as [|c rest]; [now rewrite app_nil_r|].
  inversion H as [|? ? Hc _]; subst. unfold is_digit in Hc.
  destruct (N.eqb_spec c 43); [lia|]. destruct (N.eqb_spec c 45); [lia|].
  reflexivity.
Qed.

Lemma digits_value_pad (k : nat) (s : str) :
  digits_value (repeat 48%N k ++ s) = digits_value s.
Proof. induction k as [|k IH]; [reflexivity|]. cbn [repeat app digits_value]. simpl. exact IH. Qed.

Lemma digits_value_bound (s : str) :
  Forall is_digit s -> (digits_value s < 10 ^ length s)%nat.
Proof.
  induction 1 as [|c s Hc _ IH]; cbn [digits_value length]; [simpl; lia|].
  unfold is_digit in Hc. rewrite Nat.pow_succ_r'.
  assert (N.to_nat c - 48 <= 9)%nat by lia. nia.
Qed.

Lemma lex_of_value : forall a b : str,
  length a = length b -> Forall is_digit a -> Forall is_digit b ->
  (digits_value a < digits_value b)%nat -> str_lt a b.
Proof.
  induction a as [|x a IH]; intros [|y b] Hlen Ha Hb Hv;
    cbn [length] in Hlen; try discriminate.
  - simpl in Hv. lia.
  - inversion Ha as [|? ? Hx Ha']; inversion Hb as [|? ? Hy Hb']; subst.
    injection Hlen as Hlen. cbn [digits_value] in Hv. rewrite Hlen in Hv.
    pose proof (digits_value_bound a Ha') as Hba.
    pose proof (digits_value_bound b Hb') as Hbb.
    rewrite Hlen in Hba. unfold is_digit in Hx, Hy.
    cbn [str_lt].
    destruct (N.lt_trichotomy x y) as [Hlt | [Heq | Hgt]].
    + now left.
    + right. split; [exact Heq|]. subst y. apply IH; auto. lia.
    + exfalso.
      assert (N.to_nat y - 48 + 1 <= N.to_nat x - 48)%nat by lia. nia.
Qed.

Lemma str_lt_app : forall a b x y : str,
  length a = length b -> str_lt a b -> str_lt (a ++ x) (b ++ y).
Proof.
  induction a as [|c a IH]; intros [|d b] x y Hlen Hlt;
    cbn [length] in Hlen; try discriminate.
  - destruct Hlt.
  - cbn [app str_lt] in *. destruct Hlt as [Hlt | [Heq Hlt]]; [now left|].
    right. split; [exact Heq|]. apply IH; [lia | exact Hlt].
Qed.

Lemma str_lt_irrefl (a : str) : ~ str_lt a a.
Proof.
  induction a as [|c a IH]; cbn [str_lt]; [tauto|].
  intros [H | [_ H]]; [lia | tauto].
Qed.

(** The padded prefix of an index that fits [width] digits. *)
Lemma prefix_spec (idx n : nat) :
  (idx <= n)%nat ->
  let p := zfill (str_of_nat idx) (length (str_of_nat n)) in
  length p = length (str_of_nat n) /\ Forall is_digit p /\ digits_value p = idx.
Proof.
  intros Hle p. subst p.
  destruct (str_of_nat_spec idx) as (Hd & _ & Hv & _).
  pose proof (str_of_nat_length_mono idx n Hle) as Hlen.
  rewrite (zfill_digits _ _ Hd). split; [|split].
  - rewrite length_app, repeat_length. unfold str, char in *. lia.
  - apply Forall_app. split; [|exact Hd].
    apply Forall_forall. intros c Hc. apply repeat_spec in Hc. subst c.
    unfold is_digit. lia.
  - now rewrite digits_value_pad.
Qed.

Lemma new_name_lt (i j n : nat) (x y : str) :
  (i < j)%nat -> (j <= n)%nat ->
  str_lt (new_name_of i (length (str_of_nat n)) x)
         (new_name_of j (length (str_of_nat n)) y).
Proof.
  intros Hij Hjn. unfold new_name_of.
  destruct (prefix_spec i n ltac:(lia)) as (L1 & D1 & V1).
  destruct (prefix_spec j n Hjn) as (L2 & D2 & V2).
  apply str_lt_app; [congruence|].
  apply lex_of_value; auto; [congruence | lia].
Qed.

Lemma numbered_after (n i : nat) (x : str) : forall (files : list str) (idx : nat),
  (i < idx)%nat -> (idx + length files <= S n)%nat ->
  Forall (str_lt (new_name_of i (length (str_of_nat n)) x))
         (numbered files idx (length (str_of_nat n))).
Proof.
  induction files as [|f rest IH]; intros idx Hi Hn; cbn [numbered]; constructor.
  - apply new_name_lt; [exact Hi | cbn [length] in Hn; lia].
  - apply IH; [lia | cbn [length] in Hn; lia].
Qed.

Lemma numbered_sorted (n : nat) : forall (files : list str) (idx : nat),
  (idx + length files <= S n)%nat ->
  StronglySorted str_lt (numbered files idx (length (str_of_nat n))).
Proof.
  induction files as [|f rest IH]; intros idx Hn; cbn [numbered]; constructor.
  - apply IH. cbn [length] in Hn. lia.
  - apply numbered_after; [lia | cbn [length] in Hn; lia].
Qed.

Lemma numbered_shape (n : nat) : forall (files : list str) (idx : nat),
  (idx + length files <= S n)%nat ->
  Forall2 (fun old new =>
             exists p, new = p ++ [95%N] ++ old /\
                       length p = length (str_of_nat n) /\
                       Forall is_digit p)
          files (numbered files idx (length (str_of_nat n))).
Proof.
  induction files as [|f rest IH]; intros idx Hn; cbn [numbered]; constructor.
  - destruct (prefix_spec idx n) as (L & D & _); [cbn [length] in Hn; lia|].
    eexists. split; [reflexivity|]. auto.
  - apply IH. cbn [length] in Hn. lia.
Qed.

Lemma numbered_length (w : nat) : forall (files : list str) (idx : nat),
  length (numbered files idx w) = length files.
Proof.
  induction files as [|f rest IH]; intros idx; cbn [numbered length];
    [reflexivity | now rewrite IH].
Qed.

Lemma keys_app (a b : dict) : keys (a ++ b) = keys a ++ keys b.
Proof. unfold keys. apply map_app. Qed.

Lemma build_mapping_spec (w : nat) : forall (files : list str) (idx : nat)
                                            (mapping : dict),
  NoDup files -> (forall f, In f files -> ~ In f (keys mapping)) ->
  build_mapping files idx w mapping
  = mapping ++ combine files (map JStr (numbered files idx w)).
Proof.
  induction files as [|f rest IH]; intros idx mapping Hnd Hdis;
    cbn [build_mapping numbered map combine]; [now rewrite app_nil_r|].
  inversion Hnd as [|? ? Hnotin Hnd']; subst.
  rewrite dict_set_absent
    by (apply dict_get_not_key; apply Hdis; now left).
  rewrite IH.
  - now rewrite <- app_assoc.
  - exact Hnd'.
  - intros g Hg. rewrite keys_app. cbn. intros Hin. apply in_app_or in Hin.
    destruct Hin as [Hin | [Heq | []]].
    + apply (Hdis g); [now right | exact Hin].
    + subst g. contradiction.
Qed.

Lemma sorted_NoDup (l : list str) : StronglySorted str_lt l -> NoDup l.
Proof.
  induction 1 as [|a l _ IH Hall]; constructor; [|exact IH].
  intros Hin. rewrite Forall_forall in Hall.
  apply (str_lt_irrefl a). now apply Hall.
Qed.

(** X21. The mapping [number_files] builds for a listing of distinct
    names maps every old name, in the order of the listing, to the same
    name behind a prefix of decimal digits and an underscore.  All
    prefixes have the same length, and the new names are strictly
    increasing in the order of Python strings: the numbered files list in
    the order they were numbered, and no two new names are equal. *)
Theorem number_files_mapping_sorted (json_files : list str) :
  NoDup json_files ->
  let w := length (str_of_nat (length json_files)) in
  let news := numbered json_files 1 w in
  number_files_mapping json_files = combine json_files (map JStr news) /\
  keys (number_files_mapping json_files) = json_files /\
  Forall2 (fun old new =>
             exists p, new = p ++ [95%N] ++ old /\ length p = w /\
                       Forall is_digit p)
          json_files news /\
  StronglySorted str_lt news /\ NoDup news.
Proof.
  intros Hnd w news.
  assert (Hmap : number_files_mapping json_files
                 = combine json_files (map JStr news)).
  { unfold number_files_mapping. destruct json_files as [|f rest]; [reflexivity|].
    cbv zeta. rewrite build_mapping_spec; [reflexivity | exact Hnd | intros ? _ []]. }
  assert (Hlen : length news = length json_files) by apply numbered_length.
  assert (Hsorted : StronglySorted str_lt news)
    by (apply numbered_sorted; lia).
  split; [exact Hmap|]. split; [|split; [|split]].
  - rewrite Hmap. unfold keys.
    assert (Hl : length json_files = length (map JStr news))
      by (rewrite length_map; lia).
    clear -Hl. revert Hl. generalize (map JStr news).
    induction json_files as [|f rest IH]; intros [|x l] Hl;
      cbn in *; try lia; [reflexivity|]. f_equal. apply IH. lia.
  - apply numbered_shape. lia.
  - exact Hsorted.
  - now apply sorted_NoDup.
Qed.

End Numbering.

Lemma number_files_mapping_sorted_witness :
  let files := [[97]%N; [98]%N; [99]%N] in
  let w := length (FileNumberer.str_of_nat (length files)) in
  let news := numbered files 1 w in
  FileNumberer.number_files_mapping files = combine files (map JStr news) /\
  keys (FileNumberer.number_files_mapping files) = files /\
  Forall2 (fun old new =>
             exists p, new = p ++ [95%N] ++ old /\ length p = w /\
                       Forall is_digit p)
          files news /\
  StronglySorted str_lt news /\ NoDup news.
Proof.
  intros files.
  apply (number_files_mapping_sorted files).
  repeat constructor; simpl; intuition discriminate.
Defined.

(** Twelve files get two-digit prefixes: the third one becomes
    ["03_c"]. *)
Example number_files_mapping_twelve :
  nth_error (numbered (map (fun c => [c]) [97; 98; 99; 100; 101; 102; 103; 104;
                                           105; 106; 107; 108]%N) 1
                      (length (FileNumberer.str_of_nat 12))) 2
  = Some [48; 51; 95; 99]%N.
Proof. reflexivity. Qed.

(** ** The retry run on a dataset without failed fields *)

Lemma count_fields_zero (p : str -> json -> bool) (l : dict) :
  count_fields p l = 0 -> forall k x, In (k, x) l -> p k x = false.
Proof.
  induction l as [|[k0 y] l IH]; intros H k x Hin; [destruct Hin|].
  rewrite count_fields_cons in H. cbn [fst snd] in H.
  pose proof (count_fields_nonneg p l).
  destruct (p k0 y) eqn:Ep; [lia|].
  destruct Hin as [Heq | Hin]; [inversion Heq; subst; exact Ep|].
  apply IH; [lia | exact Hin].
Qed.

Section RetryNothing.

Import TranslationRetrier.

Variable PState : Type.
Variable provider : PState -> str -> PState * outcome.

Lemma retry_loop_none : forall (l : dict) (st : retry_state PState),
  (forall k x, In (k, x) l -> is_failed (rs_item PState st) k x = false) ->
  for_each l (fun kv => retry_field PState provider (fst kv) (snd kv)) st
  = (Ok tt, st).
Proof.
  induction l as [|[key value] l IH]; intros st H; [reflexivity|].
  cbn [for_each fst snd]. unfold bind.
  rewrite (retry_field_not_failed PState provider key value st
             (H key value (or_introl eq_refl))).
  apply IH. intros k x Hin. apply H. now right.
Qed.

Lemma retry_elements_none : forall (es : list json) (acc : retry_acc PState),
  forallb is_obj es = true -> count_in_records is_failed es = 0 ->
  retry_elements PState provider es acc = (Ok es, acc).
Proof.
  induction es as [|e es IH]; intros acc Hall Hz; [reflexivity|].
  cbn [forallb] in Hall. apply andb_true_iff in Hall. destruct Hall as [He Hall].
  destruct e as [ | b | z | lx | sx | elems | d ]; try discriminate.
  cbn [count_in_records] in Hz.
  pose proof (count_fields_nonneg (is_failed d) d).
  pose proof (proj1 (count_in_records_bounds es)).
  cbn [TranslationRetrier.retry_elements]. unfold bind.
  unfold TranslationRetrier.retry_element. cbv zeta.
  rewrite retry_loop_none
    by (cbn [rs_item]; apply count_fields_zero; lia).
  cbn [rs_item fields_retried fields_fixed modified rs_world].
  replace (mkRetryAcc PState (acc_retried PState acc) (acc_fixed PState acc)
                      (acc_modified PState acc) (acc_world PState acc))
    with acc by (destruct acc; reflexivity).
  rewrite IH by (auto; lia). reflexivity.
Qed.

(** X22. On a file that holds a list of objects none of whose fields
    carries the failed signature, [_retry_file] does nothing: no provider
    call, no sleep, no write, and a report of zero retried and zero fixed
    fields with [modified] false. *)
Theorem retry_file_nothing_to_do (file_path : str) (w : world PState)
        (es : list json) :
  fs_get file_path (fs w) = Some (Some (JArr es)) ->
  forallb is_obj es = true -> count_in_records is_failed es = 0 ->
  _retry_file PState provider file_path w
  = (Ok (mkRetryResult file_path 0 0 false), w).
Proof.
  intros Eload Hall Hz.
  rewrite (retry_file_loaded PState provider file_path w _ Eload).
  cbn [iter_elems]. unfold ret.
  now rewrite (retry_elements_none es _ Hall Hz).
Qed.

End RetryNothing.

Lemma retry_file_nothing_to_do_witness :
  let file := [102]%N in
  let es := [JObj [([97]%N, JStr [1605]%N);
                   ([97; 45; 101; 110]%N, JStr [72; 105]%N)]] in
  let w := mkWorld tt [] [(file, Some (JArr es))] in
  TranslationRetrier._retry_file unit down file w
  = (Ok (TranslationRetrier.mkRetryResult file 0 0 false), w).
Proof.
  intros file es w.
  apply (retry_file_nothing_to_do unit down file w es); reflexivity.
Defined.
